(** * SLR-Parser: a shallow embedding of [parser_utils.py] and of the parse
    driver of [app.py], with the properties of the specification settled
    against it.

    Layout: the Python values the program manipulates ([Py]: str, dict, set,
    exceptions), then the program (the grammar reader, the FIRST and FOLLOW
    solvers, the LR(0) automaton, the SLR table builder, the parse driver),
    then the facts, function by function.

    Conventions.  A Python set is a list without repetitions, in some order
    of iteration; where that order can be seen in a result (the items of a
    state in [build_slr_parsing_table]) the theorems quantify over it.  A
    dict is an association list in insertion order.  The loops that Python
    runs until nothing changes take a number of rounds as fuel and return
    [None] when it is used up; [compute_first_sets], [compute_follow_sets]
    and [closure] compute a fuel that is proved sufficient.  [str.isupper]
    and [int] belong to the runtime and are parameters of the functions that
    call them; [ascii_isupper] and [dec_int] stand for them on the ASCII
    inputs of the examples. *)

From Stdlib Require Import String Ascii DecimalString.
From Stdlib Require Import NArith ZArith Lia Bool Arith List Permutation.
Import ListNotations.
Open Scope list_scope.

Set Implicit Arguments.

(* ===================================================================== *)
(** ** Python values *)
(* ===================================================================== *)

Module Py.

(** A Python [str] is a sequence of Unicode code points. *)
Definition char := N.
Definition str := list char.

(** Decoding of the UTF-8 bytes of a source literal, so that program
    literals such as 'ε' can be written as they are in the source. *)
Fixpoint utf8_decode (bs : list N) : str :=
  match bs with
  | [] => []
  | b :: r =>
    if (b <? 128)%N then b :: utf8_decode r
    else if (b <? 224)%N then
      match r with
      | c1 :: r1 => ((b - 192) * 64 + (c1 - 128))%N :: utf8_decode r1
      | [] => [b]
      end
    else if (b <? 240)%N then
      match r with
      | c1 :: c2 :: r2 =>
        ((b - 224) * 4096 + (c1 - 128) * 64 + (c2 - 128))%N :: utf8_decode r2
      | _ => [b]
      end
    else
      match r with
      | c1 :: c2 :: c3 :: r3 =>
        ((b - 240) * 262144 + (c1 - 128) * 4096 + (c2 - 128) * 64 + (c3 - 128))%N
          :: utf8_decode r3
      | _ => [b]
      end
  end.

Definition lit (s : string) : str :=
  utf8_decode (map N_of_ascii (list_ascii_of_string s)).
Arguments lit s%_string.

(** Equality of values, as [==] and hashing use it for keys and members. *)
Class EqDec (A : Type) := {
  eqb : A -> A -> bool;
  eqb_eq : forall x y, eqb x y = true <-> x = y
}.

Lemma eqb_refl {A} `{EqDec A} (x : A) : eqb x x = true.
Proof. apply eqb_eq; reflexivity. Qed.

Lemma eqb_neq {A} `{EqDec A} (x y : A) : eqb x y = false <-> x <> y.
Proof.
  split.
  - intros E Heq. apply eqb_eq in Heq. congruence.
  - intros N. destruct (eqb x y) eqn:E; [apply eqb_eq in E; contradiction | reflexivity].
Qed.

Lemma eqb_sym {A} `{EqDec A} (x y : A) : eqb x y = eqb y x.
Proof.
  destruct (eqb x y) eqn:E.
  - apply eqb_eq in E; subst. symmetry; apply eqb_refl.
  - symmetry. apply eqb_neq. apply eqb_neq in E. congruence.
Qed.

#[export] Instance EqDec_N : EqDec N := {| eqb := N.eqb; eqb_eq := N.eqb_eq |}.
#[export] Instance EqDec_Z : EqDec Z := {| eqb := Z.eqb; eqb_eq := Z.eqb_eq |}.
#[export] Instance EqDec_nat : EqDec nat := {| eqb := Nat.eqb; eqb_eq := Nat.eqb_eq |}.

Fixpoint list_eqb {A} `{EqDec A} (l1 l2 : list A) : bool :=
  match l1, l2 with
  | [], [] => true
  | x :: r1, y :: r2 => eqb x y && list_eqb r1 r2
  | _, _ => false
  end.

Lemma list_eqb_eq {A} `{EqDec A} (l1 l2 : list A) : list_eqb l1 l2 = true <-> l1 = l2.
Proof.
  revert l2; induction l1 as [|x r1 IH]; intros [|y r2]; simpl; split; intros E;
    try reflexivity; try discriminate.
  - apply andb_true_iff in E as [E1 E2]. apply eqb_eq in E1. apply IH in E2. congruence.
  - inversion E; subst. apply andb_true_iff; split; [apply eqb_refl | apply IH; reflexivity].
Qed.

#[export] Instance EqDec_list {A} `{EqDec A} : EqDec (list A) :=
  {| eqb := list_eqb; eqb_eq := list_eqb_eq |}.

Definition pair_eqb {A B} `{EqDec A} `{EqDec B} (p q : A * B) : bool :=
  eqb (fst p) (fst q) && eqb (snd p) (snd q).

Lemma pair_eqb_eq {A B} `{EqDec A} `{EqDec B} (p q : A * B) :
  pair_eqb p q = true <-> p = q.
Proof.
  destruct p as [a b], q as [c d]; unfold pair_eqb; simpl.
  rewrite andb_true_iff, !eqb_eq. split; [intros [-> ->]; reflexivity | intros E; inversion E; auto].
Qed.

#[export] Instance EqDec_pair {A B} `{EqDec A} `{EqDec B} : EqDec (A * B) :=
  {| eqb := pair_eqb; eqb_eq := pair_eqb_eq |}.

(** *** Exceptions *)

Inductive exn := KeyError | ValueError | IndexError.

Inductive result (A : Type) : Type :=
| Ok (a : A)
| Raise (e : exn).
Arguments Ok {A} a.
Arguments Raise {A} e.

Definition bind {A B} (c : result A) (k : A -> result B) : result B :=
  match c with
  | Ok a => k a
  | Raise e => Raise e
  end.

(** A [for] loop whose body may raise. *)
Fixpoint for_each {A S} (body : S -> A -> result S) (l : list A) (s : S) : result S :=
  match l with
  | [] => Ok s
  | x :: r => bind (body s x) (for_each body r)
  end.

(** *** str methods *)

(** The code points for which [str.isspace] holds; [str.strip] and
    [str.split] without separator use the same class. *)
Definition isspace (c : char) : bool :=
  ((9 <=? c) && (c <=? 13) || (28 <=? c) && (c <=? 32)
   || (c =? 133) || (c =? 160) || (c =? 5760)
   || (8192 <=? c) && (c <=? 8202)
   || (c =? 8232) || (c =? 8233) || (c =? 8239) || (c =? 8287) || (c =? 12288))%N.

Fixpoint lstrip (s : str) : str :=
  match s with
  | [] => []
  | c :: r => if isspace c then lstrip r else s
  end.

Definition rstrip (s : str) : str := rev (lstrip (rev s)).

Definition strip (s : str) : str := rstrip (lstrip s).

Fixpoint startswith (s prefix : str) {struct prefix} : bool :=
  match prefix, s with
  | [], _ => true
  | p :: prefix', c :: s' => N.eqb p c && startswith s' prefix'
  | _ :: _, [] => false
  end.

(** [sub in s] *)
Fixpoint contains (sub s : str) : bool :=
  startswith s sub ||
  match s with
  | [] => false
  | _ :: r => contains sub r
  end.

(** [s.split(sep)] for a non-empty separator: the pieces between the
    occurrences of [sep], found from the left without overlap.  [skip] counts
    the code points of a separator still to be passed over and [cur] holds
    the piece being read, reversed. *)
Fixpoint split_from (sep : str) (skip : nat) (cur : str) (s : str) : list str :=
  match s with
  | [] => [rev cur]
  | c :: r =>
    match skip with
    | S k => split_from sep k cur r
    | O =>
      if startswith s sep
      then rev cur :: split_from sep (length sep - 1) [] r
      else split_from sep 0 (c :: cur) r
    end
  end.

Definition split (s sep : str) : list str := split_from sep 0 [] s.

(** [s.split()]: the maximal runs of code points that are not whitespace. *)
Fixpoint split_ws_from (cur : str) (s : str) : list str :=
  match s with
  | [] => match cur with [] => [] | _ => [rev cur] end
  | c :: r =>
    if isspace c
    then match cur with
         | [] => split_ws_from [] r
         | _ => rev cur :: split_ws_from [] r
         end
    else split_ws_from (c :: cur) r
  end.

Definition split_ws (s : str) : list str := split_ws_from [] s.

(** [sep.join(l)] *)
Fixpoint join (sep : str) (l : list str) : str :=
  match l with
  | [] => []
  | [x] => x
  | x :: r => x ++ sep ++ join sep r
  end.

(** [str(n)] for an int. *)
Definition str_of_int (n : Z) : str := lit (NilZero.string_of_int (Z.to_int n)).

(** The comparison of strings that [sorted] uses: lexicographic on code
    points. *)
Fixpoint str_ltb (a b : str) : bool :=
  match a, b with
  | [], [] => false
  | [], _ :: _ => true
  | _ :: _, [] => false
  | x :: a', y :: b' => (x <? y)%N || (x =? y)%N && str_ltb a' b'
  end.

(** *** dict: keys in insertion order *)

Definition dict (K V : Type) := list (K * V).

Section Dict.
Context {K V : Type} `{EqDec K}.

Fixpoint get (d : dict K V) (k : K) : option V :=
  match d with
  | [] => None
  | (k', v) :: r => if eqb k k' then Some v else get r k
  end.

Definition has (d : dict K V) (k : K) : bool :=
  match get d k with Some _ => true | None => false end.

(** [d[k] = v]: a present key keeps its place. *)
Fixpoint set (d : dict K V) (k : K) (v : V) : dict K V :=
  match d with
  | [] => [(k, v)]
  | (k', v') :: r => if eqb k k' then (k', v) :: r else (k', v') :: set r k v
  end.

Definition keys (d : dict K V) : list K := map fst d.

(** [d.get(k, default)] *)
Definition get_or (d : dict K V) (k : K) (default : V) : V :=
  match get d k with Some v => v | None => default end.

(** [d[k]] on a plain dict. *)
Definition lookup (d : dict K V) (k : K) : result V :=
  match get d k with Some v => Ok v | None => Raise KeyError end.

(** Reading [d[k]] on a [defaultdict]: a missing key is entered with the
    default value. *)
Definition touch (default : V) (d : dict K V) (k : K) : dict K V :=
  if has d k then d else d ++ [(k, default)].
End Dict.

(** *** set: members without repetition *)

Section PySet.
Context {A : Type} `{EqDec A}.

Fixpoint mem (x : A) (s : list A) : bool :=
  match s with
  | [] => false
  | y :: r => eqb x y || mem x r
  end.

(** [s.add(x)] *)
Definition add (s : list A) (x : A) : list A :=
  if mem x s then s else s ++ [x].

(** [s.update(t)] *)
Definition update (s t : list A) : list A := fold_left add t s.

(** [s - {x}] *)
Definition discard (s : list A) (x : A) : list A :=
  filter (fun y => negb (eqb y x)) s.

(** [set(l)] *)
Definition of_list (l : list A) : list A := update [] l.

Definition subset (s t : list A) : bool := forallb (fun x => mem x t) s.

(** [s == t] on sets. *)
Definition set_eqb (s t : list A) : bool := subset s t && subset t s.
End PySet.

End Py.
Import Py.

Notation "x <- c ;; k" := (bind c (fun x => k))
  (at level 61, c at next level, right associativity).

Definition Symbol := str.
Definition Production : Type := Symbol * list Symbol.
Definition Grammar : Type := list Production.

Definition EPSILON : Symbol := lit "ε".
Definition END_MARKER : Symbol := lit "$".

(* ===================================================================== *)
(** ** parse_grammar *)
(* ===================================================================== *)

(** One line of the grammar text: skipped without '->', otherwise unpacked
    into exactly two parts (any other number of parts is the ValueError of
    the tuple assignment) and expanded into one production per alternative. *)
Definition parse_line (grammar : Grammar) (line : str) : result Grammar :=
  if negb (contains (lit "->") line) then Ok grammar
  else
    match split line (lit "->") with
    | [lhs; rhs] =>
      let lhs := strip lhs in
      let rhs_alts := split (strip rhs) (lit "|") in
      Ok (grammar ++ map (fun alt => (lhs, split_ws (strip alt))) rhs_alts)
    | _ => Raise ValueError
    end.

Definition parse_grammar (grammar_text : str) : result Grammar :=
  for_each parse_line (split (strip grammar_text) [10%N]) [].

(* ===================================================================== *)
(** ** FIRST and FOLLOW *)
(* ===================================================================== *)

(** [productions[lhs].append(rhs)] on a [defaultdict(list)]. *)
Definition append_production {R : Type} (productions : dict Symbol (list R))
    (lhs : Symbol) (rhs : R) : dict Symbol (list R) :=
  set productions lhs (get_or productions lhs [] ++ [rhs]).

Definition group_productions (grammar : Grammar) : dict Symbol (list (list Symbol)) :=
  fold_left (fun productions p => append_production productions (fst p) (snd p)) grammar [].

Definition FirstSets := dict Symbol (list Symbol).
Definition FollowSets := dict Symbol (list Symbol).

(** Every symbol of the grammar, left-hand sides and right-hand sides. *)
Definition grammar_symbols (grammar : Grammar) : list Symbol :=
  fold_left (fun symbols p => add (update symbols (snd p)) (fst p)) grammar [].

(** The loop [changed = True; while changed: changed = False; <pass>], where
    a pass returns the new state and the flag it leaves in [changed].
    [None] when the passes allowed by [fuel] are used up. *)
Fixpoint while_changed {S : Type} (pass : S -> S * bool) (fuel : nat) (s : S)
    : option S :=
  match fuel with
  | O => None
  | S fuel' =>
    let '(s, changed) := pass s in
    if changed then while_changed pass fuel' s else Some s
  end.

Section Solvers.

(** [str.isupper] of the runtime: it reads the Unicode case tables, which
    are no part of the program. *)
Variable isupper : str -> bool.

(** The scan of lines 38-43: a right-hand-side symbol is entered as a
    terminal when it is not among the left-hand sides met so far and is not
    upper-case.  The state is [(non_terminals, terminals)]. *)
Definition classify_rhs (non_terminals : list Symbol) (terminals : list Symbol)
    (rhs : list Symbol) : list Symbol :=
  fold_left
    (fun terminals symbol =>
       if negb (mem symbol non_terminals) && negb (isupper symbol)
       then add terminals symbol else terminals)
    rhs terminals.

Definition classify_production (st : list Symbol * list Symbol) (p : Production)
    : list Symbol * list Symbol :=
  let non_terminals := add (fst st) (fst p) in
  (non_terminals, classify_rhs non_terminals (snd st) (snd p)).

Definition classify (grammar : Grammar) : list Symbol * list Symbol :=
  fold_left classify_production grammar ([], []).

Definition first_terminals (grammar : Grammar) : list Symbol := snd (classify grammar).

(** [first_of(symbol)]; reading [first[symbol]] enters a missing key. *)
Definition first_of (terminals : list Symbol) (first : FirstSets) (symbol : Symbol)
    : list Symbol * FirstSets :=
  if mem symbol terminals then ([symbol], first)
  else (get_or first symbol [], touch [] first symbol).

(** Lines 61-62, the body of [for symbol in rhs]: the sets after it, and
    whether 'ε' is in [first_of(symbol)], that is whether the loop goes on. *)
Definition scan_symbol (terminals : list Symbol) (lhs : Symbol) (first : FirstSets)
    (symbol : Symbol) : FirstSets * bool :=
  let '(f, first) := first_of terminals first symbol in
  let first := set first lhs (update (get_or first lhs []) (discard f EPSILON)) in
  let '(f, first) := first_of terminals first symbol in
  (first, mem EPSILON f).

(** The [for symbol in rhs] loop of lines 60-65 with its [else] clause. *)
Fixpoint scan_rhs (terminals : list Symbol) (lhs : Symbol) (rhs : list Symbol)
    (first : FirstSets) : FirstSets :=
  match rhs with
  | [] => set first lhs (add (get_or first lhs []) EPSILON)
  | symbol :: rest =>
    let '(first, epsilon_in_symbol) := scan_symbol terminals lhs first symbol in
    if negb epsilon_in_symbol then first
    else scan_rhs terminals lhs rest first
  end.

(** Lines 55-67 for one production; the state is [(first, changed)]. *)
Definition first_production (terminals : list Symbol) (lhs : Symbol)
    (st : FirstSets * bool) (rhs : list Symbol) : FirstSets * bool :=
  let first := touch [] (fst st) lhs in
  let before := length (get_or first lhs []) in
  let first :=
    match rhs with
    | [] => set first lhs (add (get_or first lhs []) EPSILON)
    | _ => scan_rhs terminals lhs rhs first
    end in
  (first, snd st || (before <? length (get_or first lhs []))).

Definition first_pass (terminals : list Symbol)
    (productions : dict Symbol (list (list Symbol))) (first : FirstSets)
    : FirstSets * bool :=
  fold_left
    (fun st entry => fold_left (first_production terminals (fst entry)) (snd entry) st)
    productions (first, false).

(** The passes of lines 50-67 use up at most one unit of [fuel] each. *)
Definition compute_first_sets_in (fuel : nat) (grammar : Grammar) : option FirstSets :=
  while_changed (first_pass (first_terminals grammar) (group_productions grammar)) fuel [].

(** A pass that changes a set enters a symbol of the grammar or 'ε' into the
    set of a symbol of the grammar, so this many passes are always enough
    ([compute_first_sets_returns] below). *)
Definition first_fuel (grammar : Grammar) : nat :=
  S (length (grammar_symbols grammar) * S (length (grammar_symbols grammar))).

Definition compute_first_sets (grammar : Grammar) : option FirstSets :=
  compute_first_sets_in (first_fuel grammar) grammar.

(** *** compute_follow_sets *)

(** The look-ahead loop of lines 95-110 for the occurrence [symbol] followed
    by [rest]; it returns the sets and the value [before] holds when the loop
    is left. *)
Fixpoint look_ahead (first_sets : FirstSets) (lhs symbol : Symbol)
    (rest : list Symbol) (follow : FollowSets) : FollowSets * nat :=
  match rest with
  | [] =>
    let follow := touch [] follow symbol in
    let before := length (get_or follow symbol []) in
    let follow := touch [] follow lhs in
    (set follow symbol (update (get_or follow symbol []) (get_or follow lhs [])), before)
  | next_symbol :: rest' =>
    let '(trailer, epsilon_in_next) :=
      match get first_sets next_symbol with
      | Some f => (discard f EPSILON, mem EPSILON f)
      | None => ([next_symbol], false)
      end in
    let follow := touch [] follow symbol in
    let before := length (get_or follow symbol []) in
    let follow := set follow symbol (update (get_or follow symbol []) trailer) in
    if epsilon_in_next then look_ahead first_sets lhs symbol rest' follow
    else (follow, before)
  end.

(** Lines 91-112: every occurrence of a nonterminal in [rhs]. *)
Fixpoint follow_rhs (non_terminals : list Symbol) (first_sets : FirstSets)
    (lhs : Symbol) (rhs : list Symbol) (st : FollowSets * bool) : FollowSets * bool :=
  match rhs with
  | [] => st
  | symbol :: rest =>
    let st :=
      if mem symbol non_terminals then
        let '(follow, before) := look_ahead first_sets lhs symbol rest (fst st) in
        (follow, snd st || (before <? length (get_or follow symbol [])))
      else st in
    follow_rhs non_terminals first_sets lhs rest st
  end.

Definition follow_pass (non_terminals : list Symbol) (first_sets : FirstSets)
    (productions : dict Symbol (list (list Symbol))) (follow : FollowSets)
    : FollowSets * bool :=
  fold_left
    (fun st entry =>
       fold_left (fun st rhs => follow_rhs non_terminals first_sets (fst entry) rhs st)
                 (snd entry) st)
    productions (follow, false).

Definition compute_follow_sets_in (fuel : nat) (grammar : Grammar)
    (first_sets : FirstSets) (start_symbol : Symbol) : option FollowSets :=
  while_changed
    (follow_pass (of_list (map fst grammar)) first_sets (group_productions grammar))
    fuel [(start_symbol, [END_MARKER])].

(** The members a FOLLOW set can get: '$', the members of the FIRST sets
    and the symbols of the right-hand sides. *)
Definition follow_universe (grammar : Grammar) (first_sets : FirstSets) : list Symbol :=
  END_MARKER :: concat (map snd first_sets) ++ concat (map snd grammar).

(** A pass that sets [changed] enters one of these members into the set of
    the start symbol or of a left-hand side, so this many passes are always
    enough ([compute_follow_sets_returns] below). *)
Definition follow_fuel (grammar : Grammar) (first_sets : FirstSets) : nat :=
  S (S (length grammar) * length (follow_universe grammar first_sets)).

Definition compute_follow_sets (grammar : Grammar) (first_sets : FirstSets)
    (start_symbol : Symbol) : option FollowSets :=
  compute_follow_sets_in (follow_fuel grammar first_sets) grammar first_sets start_symbol.

End Solvers.

(** [str.isupper] on strings whose cased characters are ASCII letters: no
    lower-case letter and at least one upper-case letter.  The Greek small
    letters (such as 'ε') are lower-case as well. *)
Definition ascii_isupper (s : str) : bool :=
  negb (existsb (fun c => (97 <=? c) && (c <=? 122) || (945 <=? c) && (c <=? 969))%N s)
  && existsb (fun c => (65 <=? c) && (c <=? 90))%N s.

Definition lines (l : list string) : str := join [10%N] (map lit l).

Definition fixed_grammar_text : str :=
  lines ["S' -> S"; "S -> L = R"; "S -> R"; "L -> * R"; "L -> id"; "R -> L"]%string.


(* ===================================================================== *)
(** ** LR(0) items, closure, goto and the canonical collection *)
(* ===================================================================== *)

(** An item is the tuple [(lhs, rhs, dot_pos)]. *)
Definition Item : Type := Symbol * list Symbol * nat.

(** One sweep of lines 128-136: the items [(symbol, prod_rhs, 0)] that the
    items of [closure_set] call for and that are not yet there. *)
Definition closure_item (productions : dict Symbol (list (list Symbol)))
    (closure_set : list Item) (new_items : list Item) (it : Item) : list Item :=
  let '(lhs, rhs, dot_pos) := it in
  match nth_error rhs dot_pos with
  | Some symbol =>
    match get productions symbol with
    | Some alternatives =>
      fold_left
        (fun new_items prod_rhs =>
           let item := (symbol, prod_rhs, 0) in
           if negb (mem item closure_set) && negb (mem item new_items)
           then add new_items item else new_items)
        alternatives new_items
    | None => new_items
    end
  | None => new_items
  end.

Definition closure_sweep (productions : dict Symbol (list (list Symbol)))
    (closure_set : list Item) : list Item :=
  fold_left (closure_item productions closure_set) closure_set [].

(** [while added]. *)
Fixpoint closure_loop (fuel : nat) (productions : dict Symbol (list (list Symbol)))
    (closure_set : list Item) : option (list Item) :=
  match fuel with
  | O => None
  | S fuel' =>
    match closure_sweep productions closure_set with
    | [] => Some closure_set
    | new_items => closure_loop fuel' productions (update closure_set new_items)
    end
  end.

(** Every sweep but the last enters an item [(lhs, rhs, 0)] of a production
    that was not there, so one sweep more than there are productions is
    always enough ([closure_returns] below). *)
Definition closure (items : list Item) (grammar : Grammar) : option (list Item) :=
  closure_loop (S (length grammar)) (group_productions grammar) (of_list items).

Definition goto (items : list Item) (symbol : Symbol) (grammar : Grammar)
    : option (list Item) :=
  let moved_items :=
    fold_left
      (fun moved it =>
         let '(lhs, rhs, dot_pos) := it in
         match nth_error rhs dot_pos with
         | Some x => if eqb x symbol then add moved (lhs, rhs, dot_pos + 1) else moved
         | None => moved
         end)
      items [] in
  match moved_items with
  | [] => Some []
  | _ => closure moved_items grammar
  end.

(** [sorted] on a set of strings. *)
Fixpoint insert_sorted (x : str) (l : list str) : list str :=
  match l with
  | [] => [x]
  | y :: r => if str_ltb y x then y :: insert_sorted x r else x :: l
  end.

Definition sorted (s : list str) : list str := fold_right insert_sorted [] s.

Definition GotoTable := dict (Z * Symbol) Z.

(** [item_set_indices]: a dict keyed by frozensets, so a key is found by
    equality of sets. *)
Fixpoint index_of (indices : list (list Item * Z)) (s : list Item) : option Z :=
  match indices with
  | [] => None
  | (k, v) :: r => if set_eqb k s then Some v else index_of r s
  end.

Record Automaton := {
  item_sets : list (list Item);
  item_set_indices : list (list Item * Z);
  goto_table : GotoTable
}.

(** Lines 179-187 for one symbol; the state is the automaton and the queue.
    [None] stands for a closure that ran out of sweeps. *)
Definition explore_symbol (grammar : Grammar) (I_ : list Item) (I_idx : Z)
    (st : option (Automaton * list (list Item))) (symbol : Symbol)
    : option (Automaton * list (list Item)) :=
  match st with
  | None => None
  | Some (aut, queue) =>
    match goto I_ symbol grammar with
    | None => None
    | Some [] => Some (aut, queue)
    | Some goto_I =>
      let '(aut, queue) :=
        match index_of (item_set_indices aut) goto_I with
        | Some _ => (aut, queue)
        | None =>
          ({| item_sets := item_sets aut ++ [goto_I];
              item_set_indices :=
                item_set_indices aut ++ [(goto_I, Z.of_nat (length (item_sets aut)))];
              goto_table := goto_table aut |},
           queue ++ [goto_I])
        end in
      match index_of (item_set_indices aut) goto_I with
      | Some j =>
        Some ({| item_sets := item_sets aut;
                 item_set_indices := item_set_indices aut;
                 goto_table := set (goto_table aut) (I_idx, symbol) j |}, queue)
      | None => None
      end
    end
  end.

(** [while queue]. *)
Fixpoint explore (fuel : nat) (grammar : Grammar) (symbols : list Symbol)
    (aut : Automaton) (queue : list (list Item)) : option Automaton :=
  match fuel with
  | O => None
  | S fuel' =>
    match queue with
    | [] => Some aut
    | I_ :: queue =>
      match index_of (item_set_indices aut) I_ with
      | None => None
      | Some I_idx =>
        match fold_left (explore_symbol grammar I_ I_idx) symbols (Some (aut, queue)) with
        | Some (aut, queue) => explore fuel' grammar symbols aut queue
        | None => None
        end
      end
    end
  end.

(** The outer [option] is the fuel of the worklist loop; [grammar[0]] on an
    empty grammar is the IndexError. *)
Definition construct_lr0_item_sets (fuel : nat) (grammar : Grammar)
    : option (result (list (list Item) * GotoTable)) :=
  let symbols := sorted (grammar_symbols grammar) in
  match grammar with
  | [] => Some (Raise IndexError)
  | (lhs0, rhs0) :: _ =>
    match closure [(lhs0, rhs0, 0)] grammar with
    | None => None
    | Some initial =>
      match explore fuel grammar symbols
              {| item_sets := [initial]; item_set_indices := [(initial, 0%Z)];
                 goto_table := [] |} [initial] with
      | Some aut => Some (Ok (item_sets aut, goto_table aut))
      | None => None
      end
    end
  end.

(* ===================================================================== *)
(** ** build_slr_parsing_table *)
(* ===================================================================== *)

Definition ActionTable := dict (Z * Symbol) str.

Section Table.

Variable isupper : str -> bool.

(** Lines 199-203. *)
Definition number_productions (grammar : Grammar) : dict (Symbol * list Symbol) Z :=
  snd (fold_left (fun st p => (Z.succ (fst st), set (snd st) p (fst st)))
                 grammar (0%Z, [])).

(** Lines 205-214; the state is [(nonterminals, terminals)]. *)
Definition table_classify_rhs (nonterminals terminals : list Symbol)
    (rhs : list Symbol) : list Symbol :=
  fold_left
    (fun terminals sym =>
       let terminals :=
         if negb (mem sym nonterminals) && negb (isupper sym)
         then add terminals sym else terminals in
       if eqb sym (lit "id") || eqb sym (lit "*") then add terminals sym else terminals)
    rhs terminals.

Definition table_classify_production (st : list Symbol * list Symbol) (p : Production)
    : list Symbol * list Symbol :=
  let nonterminals := add (fst st) (fst p) in
  (nonterminals, table_classify_rhs nonterminals (snd st) (snd p)).

Definition table_classify (grammar : Grammar) : list Symbol * list Symbol :=
  let '(nonterminals, terminals) :=
    fold_left table_classify_production grammar ([], []) in
  (nonterminals, add terminals END_MARKER).

(** Lines 234-239: the reduce action on one member of FOLLOW(lhs). *)
Definition write_reduce (i : Z) (prod_num : Z) (action_table : ActionTable)
    (a : Symbol) : ActionTable :=
  match get action_table (i, a) with
  | Some v => set action_table (i, a) (v ++ lit "/reduce " ++ str_of_int prod_num)
  | None => set action_table (i, a) (lit "reduce " ++ str_of_int prod_num)
  end.

(** Lines 221-239 for one item of state [i]. *)
Definition table_item (terminals : list Symbol)
    (prod_map : dict (Symbol * list Symbol) Z) (goto_table : GotoTable)
    (follow_sets : FollowSets) (i : Z) (action_table : ActionTable) (item : Item)
    : result ActionTable :=
  let '(lhs, rhs, dot_pos) := item in
  match nth_error rhs dot_pos with
  | Some a =>
    if mem a terminals then
      match get goto_table (i, a) with
      | Some j => Ok (set action_table (i, a) (lit "shift " ++ str_of_int j))
      | None => Ok action_table
      end
    else Ok action_table
  | None =>
    if eqb lhs (lit "S'") then Ok (set action_table (i, END_MARKER) (lit "accept"))
    else
      prod_num <- lookup prod_map (lhs, rhs) ;;
      follow_lhs <- lookup follow_sets lhs ;;
      Ok (fold_left (write_reduce i prod_num) follow_lhs action_table)
  end.

(** Lines 241-243. *)
Definition table_gotos (nonterminals : list Symbol) (goto_table : GotoTable) (i : Z)
    (goto_table_out : GotoTable) : GotoTable :=
  fold_left
    (fun out A =>
       match get goto_table (i, A) with
       | Some j => set out (i, A) j
       | None => out
       end)
    nonterminals goto_table_out.

(** The body of the loop over [enumerate(item_sets)]; the state is
    [(i, action_table, goto_table_out)]. *)
Definition table_state (nonterminals terminals : list Symbol)
    (prod_map : dict (Symbol * list Symbol) Z) (goto_table : GotoTable)
    (follow_sets : FollowSets) (st : Z * ActionTable * GotoTable)
    (item_set : list Item) : result (Z * ActionTable * GotoTable) :=
  let '(i, action_table, goto_table_out) := st in
  action_table <-
    for_each (table_item terminals prod_map goto_table follow_sets i) item_set
             action_table ;;
  Ok (Z.succ i, action_table, table_gotos nonterminals goto_table i goto_table_out).

(** [item_sets] gives each state's items in the order the [for] loop meets
    them. *)
Definition build_slr_parsing_table (grammar : Grammar) (item_sets : list (list Item))
    (goto_table : GotoTable) (follow_sets : FollowSets)
    : result (ActionTable * GotoTable) :=
  let prod_map := number_productions grammar in
  let '(nonterminals, terminals) := table_classify grammar in
  st <- for_each (table_state nonterminals terminals prod_map goto_table follow_sets)
                 item_sets (0%Z, [], []) ;;
  _ <- lookup follow_sets (lit "L") ;;
  Ok (snd (fst st), snd st).

End Table.

(* ===================================================================== *)
(** ** The parse driver *)
(* ===================================================================== *)

Inductive entry :=
| State (n : Z)
| Sym (s : Symbol).

Definition entry_str (e : entry) : str :=
  match e with
  | State n => str_of_int n
  | Sym s => s
  end.

(** One row of the trace: the dict with keys 'Stack', 'Input', 'Action' and
    'Conflict'. *)
Record Step := {
  Stack : str;
  Input : str;
  Action : str;
  Conflict : str
}.

(** [l[n]] with Python's negative indices. *)
Definition index {A} (l : list A) (n : Z) : result A :=
  let k := if (n <? 0)%Z then (Z.of_nat (length l) + n)%Z else n in
  if (k <? 0)%Z then Raise IndexError
  else match nth_error l (Z.to_nat k) with
       | Some x => Ok x
       | None => Raise IndexError
       end.

(** [for _ in range(n): stack.pop()] *)
Fixpoint pop_n {A} (n : nat) (stack : list A) : result (list A) :=
  match n with
  | O => Ok stack
  | S n' =>
    match stack with
    | [] => Raise IndexError
    | _ => pop_n n' (removelast stack)
    end
  end.

Definition max_steps : nat := 50.

Section Driver.

(** [int] of the runtime on a string ([None] is its ValueError). *)
Variable py_int : str -> option Z.

Variable grammar : Grammar.
Variable action_table : ActionTable.
Variable goto_table_out : GotoTable.
Variable input_tokens : list Symbol.

(** [int(action.split()[1])] *)
Definition action_argument (action : str) : result Z :=
  match nth_error (split_ws action) 1 with
  | None => Raise IndexError
  | Some w => match py_int w with Some n => Ok n | None => Raise ValueError end
  end.

Definition amend_action (steps : list Step) (suffix : str) : list Step :=
  match rev steps with
  | [] => []
  | s :: r =>
    rev r ++ [{| Stack := Stack s; Input := Input s;
                 Action := Action s ++ suffix; Conflict := Conflict s |}]
  end.

Definition clear_conflict (steps : list Step) : list Step :=
  match rev steps with
  | [] => []
  | s :: r =>
    rev r ++ [{| Stack := Stack s; Input := Input s;
                 Action := Action s; Conflict := [] |}]
  end.

(** The [while] loop of lines 156-193; [budget] is [max_steps - len(steps)],
    so the loop is left when it reaches 0. *)
Fixpoint drive (budget : nat) (stack : list entry) (pointer : nat) (steps : list Step)
    : result (list Step) :=
  match budget with
  | O => Ok steps
  | S budget' =>
    match nth_error input_tokens pointer with
    | None => Ok steps
    | Some symbol =>
      match rev stack with
      | [] => Raise IndexError
      | state :: _ =>
        let action :=
          match state with
          | State n => get_or action_table (n, symbol) []
          | Sym _ => []
          end in
        let conflict := contains (lit "shift") action && contains (lit "reduce") action in
        let steps :=
          steps ++ [{| Stack := join (lit " ") (map entry_str stack);
                       Input := join (lit " ") (skipn pointer input_tokens);
                       Action := action;
                       Conflict := if conflict then lit "Yes" else [] |}] in
        if conflict then Ok steps
        else if startswith action (lit "shift") then
          next_state <- action_argument action ;;
          drive budget' (stack ++ [Sym symbol; State next_state]) (S pointer) steps
        else if startswith action (lit "reduce") then
          prod_num <- action_argument action ;;
          p <- index grammar prod_num ;;
          let '(lhs, rhs) := p in
          stack <- (if eqb rhs [EPSILON] then Ok stack else pop_n (2 * length rhs) stack) ;;
          match rev stack with
          | [] => Raise IndexError
          | state :: _ =>
            let stack := stack ++ [Sym lhs] in
            let goto_state :=
              match state with
              | State n => get goto_table_out (n, lhs)
              | Sym _ => None
              end in
            match goto_state with
            | None => Ok (amend_action steps (lit " (Goto error)"))
            | Some g => drive budget' (stack ++ [State g]) pointer steps
            end
          end
        else if eqb action (lit "accept") then Ok (clear_conflict steps)
        else Ok (amend_action steps (lit " (Error)"))
      end
    end
  end.

Definition run_parse : result (list Step) := drive max_steps [State 0] 0 [].

End Driver.

(** [int] on an optional sign followed by ASCII digits. *)
Fixpoint digits_value (acc : Z) (s : str) : option Z :=
  match s with
  | [] => Some acc
  | c :: r =>
    if ((48 <=? c) && (c <=? 57))%N
    then digits_value (10 * acc + Z.of_N (c - 48))%Z r
    else None
  end.

Definition dec_int (s : str) : option Z :=
  match s with
  | [] => None
  | c :: r =>
    if (c =? 45)%N then
      match r with [] => None | _ => option_map Z.opp (digits_value 0 r) end
    else if (c =? 43)%N then
      match r with [] => None | _ => digits_value 0 r end
    else digits_value 0 s
  end.


(* ===================================================================== *)
(** ** Facts about sets and dicts *)
(* ===================================================================== *)

Section SetFacts.
Context {A : Type} `{EqDec A}.

Lemma mem_In (x : A) (s : list A) : mem x s = true <-> In x s.
Proof.
  induction s as [|y r IH]; simpl.
  - split; [discriminate | tauto].
  - rewrite orb_true_iff, IH, eqb_eq. split; intros [E|E]; auto.
Qed.

Lemma mem_false (x : A) (s : list A) : mem x s = false <-> ~ In x s.
Proof.
  rewrite <- mem_In. destruct (mem x s); split; congruence.
Qed.

Lemma add_cases (s : list A) (x : A) :
  (In x s /\ add s x = s) \/ (~ In x s /\ add s x = s ++ [x]).
Proof.
  unfold add. destruct (mem x s) eqn:E.
  - left. split; [apply mem_In; assumption | reflexivity].
  - right. split; [apply mem_false; assumption | reflexivity].
Qed.

Lemma add_In (s : list A) (x y : A) : In y (add s x) <-> In y s \/ y = x.
Proof.
  destruct (add_cases s x) as [[Hx ->]|[Hx ->]].
  - split; [auto | intros [E|E]; subst; auto].
  - rewrite in_app_iff. simpl. split; intros [E|E]; auto.
    + destruct E as [E|[]]; auto.
Qed.

Lemma add_NoDup (s : list A) (x : A) : NoDup s -> NoDup (add s x).
Proof.
  intros N. destruct (add_cases s x) as [[Hx ->]|[Hx ->]]; [assumption|].
  apply NoDup_app; [assumption | constructor; [simpl; tauto | constructor] |].
  intros a Ha [<- |[]]. contradiction.
Qed.

Lemma add_extends (s : list A) (x : A) : exists e, add s x = s ++ e /\ incl e [x].
Proof.
  destruct (add_cases s x) as [[Hx ->]|[Hx ->]].
  - exists []. rewrite app_nil_r. split; [reflexivity | apply incl_nil_l].
  - exists [x]. split; [reflexivity | apply incl_refl].
Qed.

Lemma update_extends (t s : list A) : exists e, update s t = s ++ e /\ incl e t.
Proof.
  unfold update. revert s. induction t as [|x t IH]; intros s; simpl.
  - exists []. rewrite app_nil_r. split; [reflexivity | apply incl_refl].
  - destruct (add_extends s x) as [e1 [E1 I1]]. destruct (IH (add s x)) as [e2 [E2 I2]].
    exists (e1 ++ e2). rewrite E2, E1, app_assoc. split; [reflexivity|].
    apply incl_app.
    + intros a Ha. apply I1 in Ha. destruct Ha as [<- |[]]. left; reflexivity.
    + apply incl_tl; assumption.
Qed.

Lemma update_In (t s : list A) (y : A) : In y (update s t) <-> In y s \/ In y t.
Proof.
  unfold update. revert s. induction t as [|x t IH]; intros s; simpl.
  - tauto.
  - rewrite IH, add_In. split; intros [E|E]; auto.
    + destruct E; auto.
    + destruct E; subst; auto.
Qed.

Lemma update_NoDup (t s : list A) : NoDup s -> NoDup (update s t).
Proof.
  unfold update. revert s. induction t as [|x t IH]; intros s N; simpl; auto using add_NoDup.
Qed.

Lemma update_length (t s : list A) : length s <= length (update s t).
Proof.
  destruct (update_extends t s) as [e [-> _]]. rewrite length_app. lia.
Qed.

Lemma update_same_length (t s : list A) :
  length (update s t) <= length s -> update s t = s.
Proof.
  destruct (update_extends t s) as [e [E _]]. rewrite E, length_app.
  destruct e; simpl; [rewrite app_nil_r; reflexivity | lia].
Qed.

Lemma update_incl_id (t s : list A) : incl t s -> update s t = s.
Proof.
  unfold update. revert s. induction t as [|x t IH]; intros s I; simpl; [reflexivity|].
  destruct (add_cases s x) as [[Hx ->]|[Hx _]].
  - apply IH. intros a Ha. apply I. right; assumption.
  - exfalso. apply Hx, I. left; reflexivity.
Qed.

Lemma discard_In (s : list A) (x y : A) : In y (discard s x) <-> In y s /\ y <> x.
Proof.
  unfold discard. rewrite filter_In, negb_true_iff, eqb_neq. tauto.
Qed.

Lemma discard_NoDup (s : list A) (x : A) : NoDup s -> NoDup (discard s x).
Proof. apply NoDup_filter. Qed.

Lemma of_list_In (l : list A) (y : A) : In y (of_list l) <-> In y l.
Proof. unfold of_list. rewrite update_In. simpl. tauto. Qed.

Lemma of_list_NoDup (l : list A) : NoDup (of_list l).
Proof. apply update_NoDup. constructor. Qed.

Lemma fold_add_NoDup (t s : list A) : NoDup (s ++ t) -> fold_left add t s = s ++ t.
Proof.
  revert s. induction t as [|x t IH]; intros s N; simpl.
  - rewrite app_nil_r. reflexivity.
  - destruct (add_cases s x) as [[Hx _]|[Hx ->]].
    + exfalso. apply NoDup_remove_2 in N. apply N. apply in_or_app. left; assumption.
    + rewrite IH; rewrite <- app_assoc; simpl; [reflexivity | assumption].
Qed.

Lemma of_list_id (l : list A) : NoDup l -> of_list l = l.
Proof. intros N. unfold of_list, update. rewrite fold_add_NoDup; auto. Qed.

Lemma subset_incl (s t : list A) : subset s t = true <-> incl s t.
Proof.
  unfold subset. rewrite forallb_forall. unfold incl.
  split; intros Hs x Hx; [apply mem_In | apply mem_In]; auto.
Qed.

Lemma set_eqb_iff (s t : list A) : set_eqb s t = true <-> (forall x, In x s <-> In x t).
Proof.
  unfold set_eqb. rewrite andb_true_iff, !subset_incl. unfold incl. firstorder.
Qed.

End SetFacts.

Section DictFacts.
Context {K V : Type} `{EqDec K}.

Lemma get_set (d : dict K V) (k k' : K) (v : V) :
  get (set d k v) k' = if eqb k' k then Some v else get d k'.
Proof.
  induction d as [|[k0 v0] r IH]; simpl.
  - reflexivity.
  - destruct (eqb k k0) eqn:E; simpl.
    + apply eqb_eq in E; subst. destruct (eqb k' k0); reflexivity.
    + destruct (eqb k' k0) eqn:E'.
      * apply eqb_eq in E'; subst. rewrite eqb_sym, E. reflexivity.
      * apply IH.
Qed.

Lemma get_app (d1 d2 : dict K V) (k : K) :
  get (d1 ++ d2) k = match get d1 k with Some v => Some v | None => get d2 k end.
Proof.
  induction d1 as [|[k0 v0] r IH]; simpl; [reflexivity|].
  destruct (eqb k k0); [reflexivity | apply IH].
Qed.

Lemma get_In_keys (d : dict K V) (k : K) : get d k <> None <-> In k (keys d).
Proof.
  induction d as [|[k0 v0] r IH]; simpl.
  - tauto.
  - destruct (eqb k k0) eqn:E.
    + apply eqb_eq in E; subst. split; [auto | discriminate].
    + apply eqb_neq in E. rewrite IH. split; [auto | intros [E'|E']; congruence].
Qed.

Lemma get_None_keys (d : dict K V) (k : K) : get d k = None <-> ~ In k (keys d).
Proof.
  rewrite <- get_In_keys. destruct (get d k); split; intros E; try congruence.
  exfalso. apply E. discriminate.
Qed.

Lemma get_Some_In (d : dict K V) (k : K) (v : V) : get d k = Some v -> In (k, v) d.
Proof.
  induction d as [|[k0 v0] r IH]; simpl; [discriminate|].
  destruct (eqb k k0) eqn:E.
  - apply eqb_eq in E; subst. intros [= ->]. left; reflexivity.
  - intros G. right. apply IH; assumption.
Qed.

Lemma keys_set (d : dict K V) (k : K) (v : V) :
  keys (set d k v) = if has d k then keys d else keys d ++ [k].
Proof.
  unfold has. induction d as [|[k0 v0] r IH]; simpl; [reflexivity|].
  destruct (eqb k k0) eqn:E; simpl; [reflexivity|].
  rewrite IH. destruct (get r k); reflexivity.
Qed.

Lemma has_In_keys (d : dict K V) (k : K) : has d k = true <-> In k (keys d).
Proof.
  rewrite <- get_In_keys. unfold has. destruct (get d k); split; congruence.
Qed.

Lemma keys_touch (def : V) (d : dict K V) (k : K) :
  keys (touch def d k) = if has d k then keys d else keys d ++ [k].
Proof.
  unfold touch. destruct (has d k); [reflexivity|].
  unfold keys. rewrite map_app. reflexivity.
Qed.

Lemma get_touch (def : V) (d : dict K V) (k k' : K) :
  get (touch def d k) k' =
  match get d k' with
  | Some v => Some v
  | None => if eqb k' k then Some def else None
  end.
Proof.
  unfold touch, has. destruct (get d k) eqn:G.
  - destruct (get d k') eqn:G'; [reflexivity|].
    destruct (eqb k' k) eqn:E; [|reflexivity].
    apply eqb_eq in E; subst. congruence.
  - rewrite get_app. simpl. destruct (get d k'); reflexivity.
Qed.

Lemma get_or_touch (def : V) (d : dict K V) (k k' : K) :
  get_or (touch def d k) k' def = get_or d k' def.
Proof.
  unfold get_or. rewrite get_touch. destruct (get d k'); [reflexivity|].
  destruct (eqb k' k); reflexivity.
Qed.

Lemma get_or_set (d : dict K V) (k k' : K) (v def : V) :
  get_or (set d k v) k' def = if eqb k' k then v else get_or d k' def.
Proof.
  unfold get_or. rewrite get_set. destruct (eqb k' k); reflexivity.
Qed.

Lemma keys_NoDup_set (d : dict K V) (k : K) (v : V) :
  NoDup (keys d) -> NoDup (keys (set d k v)).
Proof.
  intros N. rewrite keys_set. destruct (has d k) eqn:E; [assumption|].
  apply NoDup_app; [assumption | constructor; [simpl; tauto | constructor] |].
  intros a Ha [<- |[]]. apply has_In_keys in Ha. congruence.
Qed.

Lemma keys_NoDup_touch (def : V) (d : dict K V) (k : K) :
  NoDup (keys d) -> NoDup (keys (touch def d k)).
Proof.
  intros N. rewrite keys_touch. destruct (has d k) eqn:E; [assumption|].
  apply NoDup_app; [assumption | constructor; [simpl; tauto | constructor] |].
  intros a Ha [<- |[]]. apply has_In_keys in Ha. congruence.
Qed.

End DictFacts.

(* ===================================================================== *)
(** ** parse_grammar: what it returns and when it fails *)
(* ===================================================================== *)

Definition NEWLINE : str := [10%N].
Definition ARROW : str := lit "->".

(** A symbol name as a grammar author writes one: not empty, free of
    whitespace, and without '->' inside. *)
Definition plain_symbol (A : str) : bool :=
  negb (eqb A []) && forallb (fun c => negb (isspace c)) A && negb (contains ARROW A).

Lemma lstrip_nonspace (c : char) (r : str) : isspace c = false -> lstrip (c :: r) = c :: r.
Proof. intros E. simpl. rewrite E. reflexivity. Qed.

Lemma lstrip_all_nonspace (s : str) :
  forallb (fun c => negb (isspace c)) s = true -> lstrip s = s.
Proof.
  destruct s as [|c r]; simpl; [reflexivity|].
  intros E. apply andb_true_iff in E as [E _]. apply negb_true_iff in E.
  rewrite E. reflexivity.
Qed.

Lemma rstrip_nonspace_end (s : str) (c : char) :
  isspace c = false -> rstrip (s ++ [c]) = s ++ [c].
Proof.
  intros E. unfold rstrip. rewrite rev_app_distr. simpl rev at 2. simpl app.
  rewrite lstrip_nonspace by assumption.
  change (c :: rev s) with ([c] ++ rev s). rewrite rev_app_distr, rev_involutive.
  reflexivity.
Qed.

Lemma rstrip_space_end (s : str) (c : char) :
  isspace c = true -> rstrip (s ++ [c]) = rstrip s.
Proof.
  intros E. unfold rstrip. rewrite rev_app_distr. simpl. rewrite E. reflexivity.
Qed.

Lemma rstrip_all_nonspace (s : str) :
  forallb (fun c => negb (isspace c)) s = true -> rstrip s = s.
Proof.
  intros E. unfold rstrip. rewrite lstrip_all_nonspace.
  - apply rev_involutive.
  - rewrite forallb_forall in *. intros x Hx. apply E. apply in_rev. assumption.
Qed.

Lemma split_absent (x : char) (s cur : str) :
  Forall (fun c => c <> x) s -> split_from [x] 0 cur s = [rev cur ++ s].
Proof.
  revert cur. induction s as [|c r IH]; intros cur F; simpl.
  - rewrite app_nil_r. reflexivity.
  - inversion F as [|? ? Hc Hr]; subst.
    destruct (N.eqb_spec x c) as [-> |N]; [contradiction|]. simpl.
    rewrite IH by assumption. simpl. rewrite <- app_assoc. reflexivity.
Qed.

Lemma contains_app_r (sub a b : str) : contains sub b = true -> contains sub (a ++ b) = true.
Proof.
  intros E. induction a as [|c a IH]; simpl; [assumption|].
  rewrite IH. apply orb_true_r.
Qed.

Lemma split_arrow_epsilon (A cur : str) :
  contains ARROW A = false ->
  split_from ARROW 0 cur (A ++ lit " -> ε") = [rev cur ++ A ++ lit " "; lit " ε"].
Proof.
  change ARROW with [45%N; 62%N]. change (lit " -> ε") with [32%N; 45%N; 62%N; 32%N; 949%N].
  change (lit " ε") with [32%N; 949%N]. change (lit " ") with [32%N].
  revert cur. induction A as [|c A IH]; intros cur E.
  - simpl. reflexivity.
  - cbn [contains] in E. apply orb_false_iff in E as [E1 E2].
    cbn [app split_from].
    assert (S : startswith (c :: A ++ [32; 45; 62; 32; 949]%N) [45; 62]%N = false).
    { cbn [startswith] in *. destruct (45 =? c)%N; [|reflexivity]. cbn [andb] in *.
      destruct A as [|d A']; [reflexivity | cbn [app startswith] in *; assumption]. }
    rewrite S. rewrite IH by assumption. cbn [rev]. rewrite <- app_assoc. reflexivity.
Qed.

Lemma plain_symbol_strip (A : str) :
  forallb (fun c => negb (isspace c)) A = true -> strip (A ++ lit " ") = A.
Proof.
  intros E. unfold strip. change (lit " ") with [32%N].
  assert (L : lstrip (A ++ [32%N]) = A ++ [32%N] \/ A = []).
  { destruct A as [|c r]; [right; reflexivity | left]. simpl in *.
    apply andb_true_iff in E as [E _]. apply negb_true_iff in E. rewrite E. reflexivity. }
  destruct L as [-> | ->]; [|reflexivity].
  rewrite rstrip_space_end by reflexivity. apply rstrip_all_nonspace; assumption.
Qed.

(** C6 (as the code has it): on a line 'A -> ε' the marker stays in the
    right-hand side as the literal symbol 'ε'. *)
Theorem epsilon_alternative_kept (A : str) :
  plain_symbol A = true -> parse_grammar (A ++ lit " -> ε") = Ok [(A, [EPSILON])].
Proof.
  unfold plain_symbol. rewrite !andb_true_iff, !negb_true_iff.
  intros [[Hne Hws] Har].
  assert (T : strip (A ++ lit " -> ε") = A ++ lit " -> ε").
  { unfold strip. destruct A as [|c r]; [discriminate|].
    simpl in Hws. apply andb_true_iff in Hws as [Hc _]. apply negb_true_iff in Hc.
    cbn [app]. rewrite lstrip_nonspace by assumption.
    change (lit " -> ε") with (lit " -> " ++ [949%N]).
    rewrite app_comm_cons, app_assoc.
    apply rstrip_nonspace_end. reflexivity. }
  unfold parse_grammar. rewrite T. unfold split.
  rewrite split_absent.
  2:{ apply Forall_app. split.
      - rewrite forallb_forall in Hws. apply Forall_forall. intros x Hx ->.
        apply Hws in Hx. discriminate.
      - repeat constructor; discriminate. }
  cbn [rev app for_each bind]. unfold parse_line.
  fold ARROW. rewrite contains_app_r by reflexivity. cbn [negb].
  unfold split. rewrite split_arrow_epsilon by assumption.
  cbn [rev app]. rewrite plain_symbol_strip by assumption.
  reflexivity.
Qed.

(** The lines on which the tuple assignment [lhs, rhs = line.split('->')]
    fails: '->' occurs, and cutting at it leaves other than two pieces. *)
Definition unpack_fails (line : str) : Prop :=
  contains ARROW line = true /\ length (split line ARROW) <> 2.

Lemma parse_line_result (grammar : Grammar) (line : str) :
  (unpack_fails line /\ parse_line grammar line = Raise ValueError) \/
  (~ unpack_fails line /\ exists g', parse_line grammar line = Ok (grammar ++ g')).
Proof.
  unfold parse_line, unpack_fails. fold ARROW.
  destruct (contains ARROW line) eqn:C; cbn [negb].
  - destruct (split line ARROW) as [|a [|b [|c r]]] eqn:S; cbn [length].
    + left. split; [split; [reflexivity | lia] | reflexivity].
    + left. split; [split; [reflexivity | lia] | reflexivity].
    + right. split; [intros [_ N]; apply N; reflexivity | eexists; reflexivity].
    + left. split; [split; [reflexivity | lia] | reflexivity].
  - right. split; [intros [N _]; discriminate | exists []; rewrite app_nil_r; reflexivity].
Qed.

Lemma parse_lines_result (ls : list str) (grammar : Grammar) :
  (Exists unpack_fails ls /\ for_each parse_line ls grammar = Raise ValueError) \/
  (Forall (fun l => ~ unpack_fails l) ls /\ exists g', for_each parse_line ls grammar = Ok g').
Proof.
  revert grammar. induction ls as [|l ls IH]; intros grammar; cbn [for_each].
  - right. split; [constructor | exists grammar; reflexivity].
  - destruct (parse_line_result grammar l) as [[B ->]|[G [g' ->]]]; cbn [bind].
    + left. split; [left; assumption | reflexivity].
    + destruct (IH (grammar ++ g')) as [[B E]|[F E]].
      * left. split; [right; assumption | assumption].
      * right. split; [constructor; assumption | assumption].
Qed.

(** C5 (as the code has it): parse_grammar knows no GrammarSyntaxError.  Its
    only failure is the ValueError of unpacking a line that does not cut into
    exactly two pieces at '->'; the line "A ->" gives the production of A with
    the empty right-hand side, and a line with nothing before '->' gives a
    production whose left-hand side is the empty string. *)
Theorem parse_grammar_failure (text : str) :
  (parse_grammar text = Raise ValueError <->
     Exists unpack_fails (split (strip text) NEWLINE))
  /\ parse_grammar text <> Raise KeyError
  /\ parse_grammar text <> Raise IndexError
  /\ parse_grammar (lit "A ->") = Ok [(lit "A", [])]
  /\ parse_grammar (lit "-> a") = Ok [([], [lit "a"])].
Proof.
  unfold parse_grammar. fold NEWLINE.
  destruct (parse_lines_result (split (strip text) NEWLINE) []) as [[B E]|[F [g' E]]];
    rewrite E.
  - repeat split; try discriminate; try reflexivity; auto.
  - repeat split; try discriminate; try reflexivity.
    intros B. exfalso. apply Exists_exists in B as [l [Hl Bl]].
    rewrite Forall_forall in F. exact (F l Hl Bl).
Qed.

(** C5, against the specification: on the line "A ->" parse_grammar raises nothing
    and returns a grammar. *)
Lemma parse_grammar_accepts_empty_alternative :
  parse_grammar (lit "A ->") = Ok [(lit "A", [])].
Proof. vm_compute. reflexivity. Qed.

Lemma epsilon_alternative_kept_witness :
  plain_symbol (lit "A") = true /\
  parse_grammar (lit "A" ++ lit " -> ε") = Ok [(lit "A", [EPSILON])].
Proof.
  split; [reflexivity | apply (epsilon_alternative_kept (lit "A")); reflexivity].
Defined.

(** C6, against the specification: the production read from 'A -> ε' is not the one
    with the empty right-hand side. *)
Lemma epsilon_alternative_not_empty :
  parse_grammar (lit "A -> ε") <> Ok [(lit "A", [])].
Proof. vm_compute. discriminate. Qed.

(* ===================================================================== *)
(** ** The parse driver: the step ceiling *)
(* ===================================================================== *)

Section DriverBound.

Variable py_int : str -> option Z.
Variable grammar : Grammar.
Variable action_table : ActionTable.
Variable goto_table_out : GotoTable.
Variable input_tokens : list Symbol.

Lemma amend_action_length (steps : list Step) (suffix : str) :
  length (amend_action steps suffix) = length steps.
Proof.
  unfold amend_action. rewrite <- (length_rev steps).
  destruct (rev steps) as [|s r]; [reflexivity|].
  rewrite length_app, length_rev. simpl. lia.
Qed.

Lemma clear_conflict_length (steps : list Step) :
  length (clear_conflict steps) = length steps.
Proof.
  unfold clear_conflict. rewrite <- (length_rev steps).
  destruct (rev steps) as [|s r]; [reflexivity|].
  rewrite length_app, length_rev. simpl. lia.
Qed.

Lemma action_argument_raises (action : str) (e : exn) :
  action_argument py_int action = Raise e -> e = IndexError \/ e = ValueError.
Proof.
  unfold action_argument. destruct (nth_error (split_ws action) 1) as [w|].
  - destruct (py_int w); [discriminate | intros [= <-]; auto].
  - intros [= <-]; auto.
Qed.

Lemma index_raises {A} (l : list A) (n : Z) (e : exn) :
  index l n = Raise e -> e = IndexError.
Proof.
  unfold index. destruct (_ <? 0)%Z; [intros [= <-]; reflexivity|].
  destruct (nth_error l _); [discriminate | intros [= <-]; reflexivity].
Qed.

Lemma pop_n_raises {A} (n : nat) (stack : list A) (e : exn) :
  pop_n n stack = Raise e -> e = IndexError.
Proof.
  revert stack. induction n as [|n IH]; intros stack; simpl; [discriminate|].
  destruct stack; [intros [= <-]; reflexivity | apply IH].
Qed.

(** What a run of the loop can end in: a trace no longer than the steps
    already taken plus the budget left, or one of the two exceptions of a
    malformed entry. *)
Definition within (bound : nat) (r : result (list Step)) : Prop :=
  match r with
  | Ok steps => length steps <= bound
  | Raise e => e = IndexError \/ e = ValueError
  end.

Lemma drive_within (budget : nat) :
  forall stack pointer steps,
    within (length steps + budget)
      (drive py_int grammar action_table goto_table_out input_tokens
             budget stack pointer steps).
Proof.
  induction budget as [|budget IH]; intros stack pointer steps; cbn [drive].
  - simpl. lia.
  - destruct (nth_error input_tokens pointer) as [symbol|]; [|simpl; lia].
    destruct (rev stack) as [|state rest]; [simpl; auto|].
    set (action := match state with
                   | State n => get_or action_table (n, symbol) []
                   | Sym _ => []
                   end).
    set (steps' := steps ++ _).
    assert (L : length steps' = S (length steps)).
    { unfold steps'. rewrite length_app. simpl. lia. }
    destruct (contains (lit "shift") action && contains (lit "reduce") action).
    { simpl. lia. }
    destruct (startswith action (lit "shift")).
    { destruct (action_argument py_int action) as [n|e] eqn:E; cbn [bind].
      - specialize (IH (stack ++ [Sym symbol; State n]) (S pointer) steps').
        rewrite L in IH. replace (length steps + S budget) with (S (length steps) + budget) by lia.
        exact IH.
      - simpl. eapply action_argument_raises; eassumption. }
    destruct (startswith action (lit "reduce")).
    { destruct (action_argument py_int action) as [n|e] eqn:E; cbn [bind];
        [|simpl; eapply action_argument_raises; eassumption].
      destruct (index grammar n) as [[lhs rhs]|e] eqn:E2; cbn [bind];
        [|simpl; left; eapply index_raises; eassumption].
      destruct (if eqb rhs [EPSILON] then Ok stack else pop_n (2 * length rhs) stack)
        as [stack'|e] eqn:E3; cbn [bind].
      2:{ simpl. left. destruct (eqb rhs [EPSILON]); [discriminate|].
          eapply pop_n_raises; eassumption. }
      destruct (rev stack') as [|state' rest']; [simpl; auto|].
      destruct (match state' with
                | State n0 => get goto_table_out (n0, lhs)
                | Sym _ => None
                end) as [g|].
      - specialize (IH ((stack' ++ [Sym lhs]) ++ [State g]) pointer steps').
        rewrite L in IH. replace (length steps + S budget) with (S (length steps) + budget) by lia.
        exact IH.
      - simpl. rewrite amend_action_length. lia. }
    destruct (eqb action (lit "accept")).
    { simpl. rewrite clear_conflict_length. lia. }
    simpl. rewrite amend_action_length. lia.
Qed.

End DriverBound.

(** C10 (as the code has it): the loop takes at most [max_steps] steps, and
    what it ends in is a returned trace or the IndexError or ValueError of a
    malformed entry; there is no DriverError: once the steps are used up the
    loop is left and the trace is returned as it is. *)
Theorem run_parse_bounded (py_int : str -> option Z) (grammar : Grammar)
    (action_table : ActionTable) (goto_table_out : GotoTable)
    (input_tokens : list Symbol) :
  ((exists steps,
       run_parse py_int grammar action_table goto_table_out input_tokens = Ok steps
       /\ length steps <= max_steps)
   \/ run_parse py_int grammar action_table goto_table_out input_tokens = Raise IndexError
   \/ run_parse py_int grammar action_table goto_table_out input_tokens = Raise ValueError)
  /\ forall stack pointer steps,
       drive py_int grammar action_table goto_table_out input_tokens 0 stack pointer steps
       = Ok steps.
Proof.
  split; [|reflexivity].
  unfold run_parse.
  pose proof (drive_within py_int grammar action_table goto_table_out input_tokens
                max_steps [State 0%Z] 0 []) as W.
  destruct (drive _ _ _ _ _ _ _ _ _) as [steps|e]; simpl in W.
  - left. exists steps. split; [reflexivity | exact W].
  - right. destruct W as [-> | ->]; auto.
Qed.

(** A table that reduces by the empty production [A -> ] for ever. *)
Definition looping_grammar : Grammar := [(lit "A", [])].
Definition looping_action : ActionTable := [((0%Z, lit "a"), lit "reduce 0")].
Definition looping_goto : GotoTable := [((0%Z, lit "A"), 0%Z)].

(** C10, against the specification: a run that uses up all the steps raises nothing;
    it returns the fifty plain reduce steps it took. *)
Lemma run_parse_stops_silently :
  exists steps,
    run_parse dec_int looping_grammar looping_action looping_goto [lit "a"] = Ok steps
    /\ length steps = max_steps
    /\ Forall (fun s => Action s = lit "reduce 0" /\ Conflict s = []) steps.
Proof.
  eexists. split; [vm_compute; reflexivity|].
  split; [reflexivity|]. repeat constructor.
Qed.

(* ===================================================================== *)
(** ** Which symbols count as terminals *)
(* ===================================================================== *)

(** [x] occurs in a right-hand side. *)
Definition rhs_symbol (g : Grammar) (x : Symbol) : Prop :=
  exists p, In p g /\ In x (snd p).

Section Classification.

Variable isupper : str -> bool.

(** [x] has an occurrence in a right-hand side at which it is not the
    left-hand side of that production or of an earlier one, next to
    [earlier], and it is not upper-case. *)
Definition entered_by_case (earlier : list Symbol) (g : Grammar) (x : Symbol) : Prop :=
  exists g1 p g2,
    g = g1 ++ p :: g2 /\ In x (snd p) /\ ~ In x earlier
    /\ ~ In x (map fst (g1 ++ [p])) /\ isupper x = false.

Lemma classify_rhs_In (nts ts rhs : list Symbol) (x : Symbol) :
  In x (classify_rhs isupper nts ts rhs) <->
  In x ts \/ (In x rhs /\ ~ In x nts /\ isupper x = false).
Proof.
  unfold classify_rhs. revert ts. induction rhs as [|s rhs IH]; intros ts; cbn [fold_left].
  - simpl. tauto.
  - rewrite IH. clear IH. destruct (mem s nts) eqn:M; cbn [negb andb].
    + apply mem_In in M. simpl. intuition (subst; auto; try contradiction).
    + apply mem_false in M. destruct (isupper s) eqn:U; cbn [negb].
      * simpl. intuition (subst; auto; try congruence).
      * rewrite add_In. simpl. intuition (subst; auto).
Qed.

Lemma classify_fold_fst (g : Grammar) (nts ts : list Symbol) :
  fst (fold_left (classify_production isupper) g (nts, ts)) = update nts (map fst g).
Proof.
  revert nts ts. induction g as [|p g IH]; intros nts ts; cbn [fold_left map]; [reflexivity|].
  unfold classify_production at 2. cbn [fst snd]. rewrite IH. reflexivity.
Qed.

Lemma entered_cons (earlier : list Symbol) (p : Production) (g : Grammar) (x : Symbol) :
  entered_by_case earlier (p :: g) x <->
  (In x (snd p) /\ ~ In x (add earlier (fst p)) /\ isupper x = false)
  \/ entered_by_case (add earlier (fst p)) g x.
Proof.
  unfold entered_by_case. split.
  - intros [g1 [q [g2 [E [Hx [N1 [N2 U]]]]]]]. destruct g1 as [|p' g1]; simpl in E.
    + inversion E; subst. left. rewrite add_In. simpl in N2.
      intuition (subst; auto).
    + inversion E; subst. right. exists g1, q, g2. rewrite add_In. simpl in N2.
      intuition (subst; auto).
  - intros [[Hx [N U]]|[g1 [q [g2 [E [Hx [N1 [N2 U]]]]]]]]; rewrite add_In in *.
    + exists [], p, g. simpl. intuition (subst; auto).
    + exists (p :: g1), q, g2. subst. simpl. intuition (subst; auto).
Qed.

Lemma classify_fold_In (g : Grammar) (nts ts : list Symbol) (x : Symbol) :
  In x (snd (fold_left (classify_production isupper) g (nts, ts))) <->
  In x ts \/ entered_by_case nts g x.
Proof.
  revert nts ts. induction g as [|p g IH]; intros nts ts; cbn [fold_left].
  - simpl. split; [tauto|]. intros [E|[g1 [q [g2 [E _]]]]]; [assumption|].
    destruct g1; discriminate.
  - unfold classify_production at 2. cbn [fst snd].
    rewrite IH, classify_rhs_In, entered_cons. tauto.
Qed.

(** The terminals of [compute_first_sets]. *)
Lemma first_terminals_In (g : Grammar) (x : Symbol) :
  In x (first_terminals isupper g) <-> entered_by_case [] g x.
Proof.
  unfold first_terminals, classify. rewrite classify_fold_In. simpl. tauto.
Qed.

Lemma table_classify_rhs_In (nts ts rhs : list Symbol) (x : Symbol) :
  In x (table_classify_rhs isupper nts ts rhs) <->
  In x ts \/ (In x rhs /\
              ((~ In x nts /\ isupper x = false) \/ x = lit "id" \/ x = lit "*")).
Proof.
  unfold table_classify_rhs. revert ts. induction rhs as [|s rhs IH]; intros ts;
    cbn [fold_left].
  - simpl. tauto.
  - rewrite IH. clear IH.
    set (ts1 := if negb (mem s nts) && negb (isupper s) then add ts s else ts).
    assert (H1 : In x ts1 <-> In x ts \/ (x = s /\ ~ In x nts /\ isupper x = false)).
    { unfold ts1. destruct (mem s nts) eqn:M; cbn [negb andb].
      - apply mem_In in M. intuition (subst; auto; try contradiction).
      - apply mem_false in M. destruct (isupper s) eqn:U; cbn [negb].
        + intuition (subst; auto; try congruence).
        + rewrite add_In. intuition (subst; auto). }
    assert (H2 : In x (if eqb s (lit "id") || eqb s (lit "*") then add ts1 s else ts1)
                 <-> In x ts1 \/ (x = s /\ (x = lit "id" \/ x = lit "*"))).
    { destruct (eqb s (lit "id")) eqn:E1; cbn [orb].
      - apply eqb_eq in E1. rewrite add_In. intuition (subst; auto).
      - apply eqb_neq in E1. destruct (eqb s (lit "*")) eqn:E2.
        + apply eqb_eq in E2. rewrite add_In. intuition (subst; auto).
        + apply eqb_neq in E2. intuition (subst; auto; try contradiction). }
    rewrite H2, H1. simpl. intuition (subst; auto).
Qed.

Lemma table_fold_In (g : Grammar) (nts ts : list Symbol) (x : Symbol) :
  In x (snd (fold_left (table_classify_production isupper) g (nts, ts))) <->
  In x ts \/ entered_by_case nts g x
  \/ (rhs_symbol g x /\ (x = lit "id" \/ x = lit "*")).
Proof.
  revert nts ts. induction g as [|p g IH]; intros nts ts; cbn [fold_left].
  - simpl. split; [tauto|]. intros [E|[[g1 [q [g2 [E _]]]]|[[q [[] _]] _]]]; [assumption|].
    destruct g1; discriminate.
  - unfold table_classify_production at 2. cbn [fst snd].
    rewrite IH, table_classify_rhs_In, entered_cons. clear IH. unfold rhs_symbol.
    rewrite add_In. split.
    + intros [[E|[Hx [E|E]]]|[E|[[q [Hq Hx]] E]]]; try tauto.
      * right. right. split; [exists p; simpl; tauto | assumption].
      * right. right. split; [exists q; simpl; tauto | assumption].
    + intros [E|[[E|E]|[[q [[Hq|Hq] Hx]] E]]]; try tauto.
      * subst q. tauto.
      * right. right. split; [exists q; tauto | assumption].
Qed.

Lemma table_fold_fst (g : Grammar) (nts ts : list Symbol) :
  fst (fold_left (table_classify_production isupper) g (nts, ts)) = update nts (map fst g).
Proof.
  revert nts ts. induction g as [|p g IH]; intros nts ts; cbn [fold_left map]; [reflexivity|].
  unfold table_classify_production at 2. cbn [fst snd]. rewrite IH. reflexivity.
Qed.

Lemma table_classify_eq (g : Grammar) :
  table_classify isupper g =
  (of_list (map fst g), add (snd (fold_left (table_classify_production isupper) g ([], []))) END_MARKER).
Proof.
  unfold table_classify.
  pose proof (table_fold_fst g [] []) as F.
  destruct (fold_left (table_classify_production isupper) g ([], [])) as [n t]. simpl in *. subst. reflexivity.
Qed.

(** The terminals of [build_slr_parsing_table]. *)
Lemma table_terminals_In (g : Grammar) (x : Symbol) :
  In x (snd (table_classify isupper g)) <->
  entered_by_case [] g x
  \/ (rhs_symbol g x /\ (x = lit "id" \/ x = lit "*"))
  \/ x = END_MARKER.
Proof.
  rewrite table_classify_eq. cbn [snd]. rewrite add_In, table_fold_In. simpl. tauto.
Qed.

End Classification.

Lemma grammar_symbols_fold (g : Grammar) (acc : list Symbol) (x : Symbol) :
  In x (fold_left (fun symbols p => add (update symbols (snd p)) (fst p)) g acc) <->
  In x acc \/ In x (map fst g) \/ rhs_symbol g x.
Proof.
  revert acc. induction g as [|p g IH]; intros acc; cbn [fold_left].
  - unfold rhs_symbol. simpl. split; [tauto|]. intros [E|[[]|[q [[] _]]]]. assumption.
  - rewrite IH, add_In, update_In. unfold rhs_symbol. simpl. split.
    + intros [[[E|E]|E]|[E|[q [Hq Hx]]]]; auto.
      * right. right. exists p. tauto.
      * right. right. exists q. tauto.
    + intros [E|[[E|E]|[q [[Hq|Hq] Hx]]]]; auto.
      * subst q. auto.
      * right. right. exists q. tauto.
Qed.

Lemma grammar_symbols_In (g : Grammar) (x : Symbol) :
  In x (grammar_symbols g) <-> In x (map fst g) \/ rhs_symbol g x.
Proof. unfold grammar_symbols. rewrite grammar_symbols_fold. simpl. tauto. Qed.

(** The casing convention the two scans rely on: every left-hand side is
    upper-case, and a right-hand-side symbol that is no left-hand side is
    not. *)
Definition casing_convention (isupper : str -> bool) (g : Grammar) : bool :=
  forallb isupper (map fst g)
  && forallb (fun x => mem x (map fst g) || negb (isupper x)) (concat (map snd g)).

(** C4 (as the code has it): on a grammar that keeps the casing convention,
    a symbol of the grammar is a terminal for compute_first_sets and for
    build_slr_parsing_table exactly when it is no left-hand side. *)
Theorem terminals_by_convention (isupper : str -> bool) (g : Grammar) (x : Symbol) :
  isupper (lit "id") = false -> isupper (lit "*") = false ->
  isupper END_MARKER = false ->
  casing_convention isupper g = true ->
  In x (grammar_symbols g) ->
  (In x (first_terminals isupper g) <-> ~ In x (map fst g))
  /\ (In x (snd (table_classify isupper g)) <-> ~ In x (map fst g)).
Proof.
  intros Uid Ustar Uend C Hx. unfold casing_convention in C.
  apply andb_true_iff in C as [C1 C2]. rewrite forallb_forall in C1, C2.
  assert (L : forall y, In y (map fst g) -> isupper y = true) by exact C1.
  assert (R : forall y, rhs_symbol g y -> ~ In y (map fst g) -> isupper y = false).
  { intros y [p [Hp Hy]] N.
    assert (I : In y (concat (map snd g))).
    { apply in_concat. exists (snd p). split; [apply in_map; assumption | assumption]. }
    apply C2 in I. apply orb_true_iff in I as [I|I].
    - apply mem_In in I. contradiction.
    - apply negb_true_iff in I. assumption. }
  assert (E : entered_by_case isupper [] g x <-> ~ In x (map fst g)).
  { split.
    - intros [g1 [p [g2 [-> [Hp [_ [_ U]]]]]]] N. apply L in N. congruence.
    - intros N. apply grammar_symbols_In in Hx as [Hx|Hx]; [contradiction|].
      pose proof (R x Hx N) as U. destruct Hx as [p [Hp Hxp]].
      apply in_split in Hp as [g1 [g2 ->]]. exists g1, p, g2.
      repeat split; auto. intros I. apply N. rewrite map_app in *.
      apply in_app_iff in I. apply in_app_iff. simpl in *. tauto. }
  split.
  - rewrite first_terminals_In. exact E.
  - rewrite table_terminals_In, E. split; [|tauto].
    intros [N | [[_ [-> | ->]] | ->]]; [assumption | | |]; intros I; apply L in I; congruence.
Qed.

(** The grammar of the application. *)
Definition fixed_grammar : Grammar :=
  [(lit "S'", [lit "S"]);
   (lit "S", [lit "L"; lit "="; lit "R"]);
   (lit "S", [lit "R"]);
   (lit "L", [lit "*"; lit "R"]);
   (lit "L", [lit "id"]);
   (lit "R", [lit "L"])].

Lemma fixed_grammar_parsed : parse_grammar fixed_grammar_text = Ok fixed_grammar.
Proof. vm_compute. reflexivity. Qed.

Lemma terminals_by_convention_witness :
  ascii_isupper (lit "id") = false /\ ascii_isupper (lit "*") = false
  /\ ascii_isupper END_MARKER = false
  /\ casing_convention ascii_isupper fixed_grammar = true
  /\ In (lit "id") (grammar_symbols fixed_grammar)
  /\ (In (lit "id") (first_terminals ascii_isupper fixed_grammar)
        <-> ~ In (lit "id") (map fst fixed_grammar))
  /\ (In (lit "id") (snd (table_classify ascii_isupper fixed_grammar))
        <-> ~ In (lit "id") (map fst fixed_grammar)).
Proof.
  assert (I : In (lit "id") (grammar_symbols fixed_grammar)).
  { apply mem_In. vm_compute. reflexivity. }
  repeat (split; [vm_compute; reflexivity|]).
  split; [exact I|].
  apply (terminals_by_convention ascii_isupper fixed_grammar (lit "id"));
    try (vm_compute; reflexivity). exact I.
Defined.

(** A grammar whose token [ID] is written in upper case. *)
Definition token_grammar : Grammar :=
  [(lit "E", [lit "E"; lit "+"; lit "T"]); (lit "E", [lit "T"]); (lit "T", [lit "ID"])].

(** C4, against the specification: [ID] occurs in the grammar and is the left-hand
    side of no production, yet neither scan enters it as a terminal. *)
Lemma uppercase_token_not_terminal :
  In (lit "ID") (grammar_symbols token_grammar)
  /\ ~ In (lit "ID") (map fst token_grammar)
  /\ ~ In (lit "ID") (first_terminals ascii_isupper token_grammar)
  /\ ~ In (lit "ID") (snd (table_classify ascii_isupper token_grammar)).
Proof.
  split; [apply mem_In; vm_compute; reflexivity|].
  repeat split; apply mem_false; vm_compute; reflexivity.
Qed.

(* ===================================================================== *)
(** ** closure *)
(* ===================================================================== *)

Lemma group_fold_get_or (g : Grammar) (P : dict Symbol (list (list Symbol))) (A : Symbol) :
  get_or (fold_left (fun P p => append_production P (fst p) (snd p)) g P) A [] =
  get_or P A [] ++ map snd (filter (fun p => eqb (fst p) A) g).
Proof.
  revert P. induction g as [|[l r] g IH]; intros P; cbn [fold_left filter fst snd].
  - simpl. rewrite app_nil_r. reflexivity.
  - rewrite IH. unfold append_production. rewrite get_or_set.
    rewrite (eqb_sym A l). destruct (eqb l A) eqn:E.
    + apply eqb_eq in E; subst. cbn [map snd]. rewrite <- app_assoc. reflexivity.
    + reflexivity.
Qed.

Lemma group_productions_In (g : Grammar) (A : Symbol) (alternatives : list (list Symbol))
    (rhs : list Symbol) :
  get (group_productions g) A = Some alternatives -> In rhs alternatives -> In (A, rhs) g.
Proof.
  intros G I. pose proof (group_fold_get_or g [] A) as E.
  fold (group_productions g) in E. unfold get_or in E at 1.
  rewrite G in E. simpl in E. subst alternatives.
  apply in_map_iff in I as [[l r] [E1 E2]]. cbn [snd] in E1; subst r.
  apply filter_In in E2 as [E2 E3]. cbn [fst] in E3. apply list_eqb_eq in E3; subst.
  assumption.
Qed.

Section Closure.

Variable productions : dict Symbol (list (list Symbol)).

(** The item [it] is one that [item] calls for: a production of the symbol
    after its dot, with the dot in front. *)
Definition calls_for (item it : Item) : Prop :=
  exists symbol alternatives prod_rhs,
    nth_error (snd (fst item)) (snd item) = Some symbol
    /\ get productions symbol = Some alternatives
    /\ In prod_rhs alternatives
    /\ it = (symbol, prod_rhs, 0).

Lemma closure_alternatives_In (cs : list Item) (symbol : Symbol)
    (alts : list (list Symbol)) (ni : list Item) (it : Item) :
  In it
    (fold_left
       (fun new_items prod_rhs =>
          let item := (symbol, prod_rhs, 0) in
          if negb (mem item cs) && negb (mem item new_items)
          then add new_items item else new_items)
       alts ni)
  <-> In it ni \/ ((exists r, In r alts /\ it = (symbol, r, 0)) /\ ~ In it cs).
Proof.
  revert ni. induction alts as [|r alts IH]; intros ni; cbn [fold_left].
  - simpl. split; [tauto|]. intros [E|[[r [[] _]] _]]. assumption.
  - rewrite IH. clear IH. cbv zeta.
    destruct (mem (symbol, r, 0) cs) eqn:M1; cbn [negb andb].
    + apply mem_In in M1. split.
      * intros [E|[[r' [Hr ->]] N]]; [tauto|]. right. split; [exists r'; simpl; tauto | assumption].
      * intros [E|[[r' [[<- |Hr] ->]] N]]; [tauto | contradiction |].
        right. split; [exists r'; tauto | assumption].
    + apply mem_false in M1. destruct (mem (symbol, r, 0) ni) eqn:M2; cbn [negb].
      * apply mem_In in M2. split.
        -- intros [E|[[r' [Hr ->]] N]]; [tauto|]. right. split; [exists r'; simpl; tauto | assumption].
        -- intros [E|[[r' [[<- |Hr] ->]] N]]; [tauto | tauto |].
           right. split; [exists r'; tauto | assumption].
      * rewrite add_In. split.
        -- intros [[E| ->]|[[r' [Hr ->]] N]]; [tauto | |].
           ++ right. split; [exists r; simpl; tauto | assumption].
           ++ right. split; [exists r'; simpl; tauto | assumption].
        -- intros [E|[[r' [[<- |Hr] ->]] N]]; [tauto | tauto |].
           right. split; [exists r'; tauto | assumption].
Qed.

Lemma closure_item_In (cs ni : list Item) (item it : Item) :
  In it (closure_item productions cs ni item)
  <-> In it ni \/ (calls_for item it /\ ~ In it cs).
Proof.
  unfold closure_item, calls_for. destruct item as [[lhs rhs] dot]. cbn [fst snd].
  destruct (nth_error rhs dot) as [symbol|].
  - destruct (get productions symbol) as [alts|] eqn:G.
    + rewrite closure_alternatives_In. split.
      * intros [E|[[r [Hr ->]] N]]; [tauto|]. right. split; [|assumption].
        exists symbol, alts, r. auto.
      * intros [E|[[s [a [r [E1 [E2 [E3 ->]]]]]] N]]; [tauto|].
        inversion E1; subst s. rewrite G in E2. inversion E2; subst a.
        right. split; [exists r; auto | assumption].
    + split; [tauto|]. intros [E|[[s [a [r [E1 [E2 _]]]]] _]]; [assumption|].
      inversion E1; subst. congruence.
  - split; [tauto|]. intros [E|[[s [a [r [E1 _]]]] _]]; [assumption | discriminate].
Qed.

Lemma closure_fold_In (cs items ni : list Item) (it : Item) :
  In it (fold_left (closure_item productions cs) items ni)
  <-> In it ni \/ ((exists item, In item items /\ calls_for item it) /\ ~ In it cs).
Proof.
  revert ni. induction items as [|item items IH]; intros ni; cbn [fold_left].
  - simpl. split; [tauto|]. intros [E|[[i [[] _]] _]]. assumption.
  - rewrite IH, closure_item_In. split.
    + intros [[E|[C N]]|[[i [Hi C]] N]]; [tauto | |].
      * right. split; [exists item; simpl; tauto | assumption].
      * right. split; [exists i; simpl; tauto | assumption].
    + intros [E|[[i [[<- |Hi] C]] N]]; [tauto | tauto |].
      right. split; [exists i; tauto | assumption].
Qed.

(** What a sweep finds: the items called for and missing. *)
Lemma closure_sweep_In (cs : list Item) (it : Item) :
  In it (closure_sweep productions cs)
  <-> (exists item, In item cs /\ calls_for item it) /\ ~ In it cs.
Proof.
  unfold closure_sweep. rewrite closure_fold_In. simpl. tauto.
Qed.

End Closure.

(** The items a sweep can ever enter: one per production, dot in front. *)
Definition initial_items (g : Grammar) : list Item :=
  map (fun p => (fst p, snd p, 0)) g.

(** How many of them are still missing from [cs]. *)
Definition missing (g : Grammar) (cs : list Item) : nat :=
  length (filter (fun c => negb (mem c cs)) (initial_items g)).

Lemma filter_length_lt {A} (p q : A -> bool) (l : list A) (a : A) :
  (forall x, In x l -> q x = true -> p x = true) ->
  In a l -> p a = true -> q a = false ->
  length (filter q l) < length (filter p l).
Proof.
  induction l as [|x l IH]; intros Hpq Ha Pa Qa; [destruct Ha|].
  assert (Le : forall l', (forall x, In x l' -> q x = true -> p x = true) ->
                          length (filter q l') <= length (filter p l')).
  { clear. induction l' as [|y l' IH']; intros H; simpl; [lia|].
    destruct (q y) eqn:Q.
    - rewrite (H y (or_introl eq_refl) Q). simpl.
      specialize (IH' (fun x Hx => H x (or_intror Hx))). lia.
    - specialize (IH' (fun x Hx => H x (or_intror Hx))).
      destruct (p y); simpl; lia. }
  simpl. destruct Ha as [-> | Ha].
  - rewrite Pa, Qa. simpl.
    specialize (Le l (fun x Hx => Hpq x (or_intror Hx))). lia.
  - specialize (IH (fun x Hx => Hpq x (or_intror Hx)) Ha Pa Qa).
    destruct (q x) eqn:Q.
    + rewrite (Hpq x (or_introl eq_refl) Q). simpl. lia.
    + destruct (p x); simpl; lia.
Qed.

Lemma missing_le (g : Grammar) (cs : list Item) : missing g cs <= length g.
Proof.
  unfold missing, initial_items.
  etransitivity; [apply filter_length_le|]. rewrite length_map. apply le_n.
Qed.

Lemma calls_for_initial (g : Grammar) (item it : Item) :
  calls_for (group_productions g) item it -> In it (initial_items g).
Proof.
  intros [symbol [alts [r [_ [G [I ->]]]]]].
  unfold initial_items. apply in_map_iff. exists (symbol, r). split; [reflexivity|].
  eapply group_productions_In; eauto.
Qed.

Lemma sweep_lowers_missing (g : Grammar) (cs : list Item) (x : Item) (rest : list Item) :
  closure_sweep (group_productions g) cs = x :: rest ->
  missing g (update cs (x :: rest)) < missing g cs.
Proof.
  intros E.
  assert (Hx : In x (closure_sweep (group_productions g) cs)) by (rewrite E; left; reflexivity).
  apply closure_sweep_In in Hx as [[item [_ C]] N].
  unfold missing. apply filter_length_lt with (a := x).
  - intros y _ Q. apply negb_true_iff in Q. apply negb_true_iff.
    apply mem_false. apply mem_false in Q. intros I. apply Q.
    apply update_In. left; assumption.
  - eapply calls_for_initial; eassumption.
  - apply negb_true_iff, mem_false. assumption.
  - apply negb_false_iff, mem_In, update_In. right. left. reflexivity.
Qed.

(** The loop returns as soon as its fuel exceeds the number of missing
    items, with a set that a further sweep leaves alone. *)
Lemma closure_loop_returns (g : Grammar) (fuel : nat) :
  forall cs, missing g cs < fuel -> NoDup cs ->
    exists C, closure_loop fuel (group_productions g) cs = Some C
              /\ closure_sweep (group_productions g) C = []
              /\ incl cs C /\ NoDup C.
Proof.
  induction fuel as [|fuel IH]; intros cs M N; [lia|].
  cbn [closure_loop].
  destruct (closure_sweep (group_productions g) cs) as [|x rest] eqn:E.
  - exists cs. auto using incl_refl.
  - pose proof (sweep_lowers_missing g cs E) as L.
    destruct (IH (update cs (x :: rest))) as [C [E1 [E2 [I1 N1]]]].
    + lia.
    + apply update_NoDup; assumption.
    + exists C. repeat split; auto.
      intros y Hy. apply I1. apply update_In. left; assumption.
Qed.

(** closure returns, with a set without repetitions that holds the items
    given and that a further sweep leaves alone. *)
Lemma closure_returns (G : Grammar) (S0 : list Item) :
  exists C,
    closure S0 G = Some C
    /\ closure_sweep (group_productions G) C = []
    /\ incl S0 C /\ NoDup C.
Proof.
  unfold closure.
  destruct (@closure_loop_returns G (S (length G)) (of_list S0)) as [C [E1 [E2 [I N]]]].
  - pose proof (missing_le G (of_list S0)). lia.
  - apply of_list_NoDup.
  - exists C. repeat split; try assumption.
    intros y Hy. apply I. apply of_list_In. assumption.
Qed.

(** C9: closure returns on every grammar and item set; what it returns
    contains the items given, and closure maps it to itself. *)
Theorem closure_idempotent_extensive (G : Grammar) (S0 : list Item) :
  exists C,
    closure S0 G = Some C
    /\ closure C G = Some C
    /\ incl S0 C.
Proof.
  destruct (closure_returns G S0) as [C [E [Sw [I N]]]].
  exists C. split; [exact E|]. split; [|exact I].
  unfold closure. rewrite (of_list_id N). cbn [closure_loop]. rewrite Sw. reflexivity.
Qed.

(** The set returned is closed: it holds every item its items call for. *)
Lemma closure_closed (G : Grammar) (S0 C : list Item) (item it : Item) :
  closure S0 G = Some C -> In item C -> calls_for (group_productions G) item it -> In it C.
Proof.
  intros E Hi Hc. destruct (closure_returns G S0) as [C' [E' [Sw _]]].
  rewrite E in E'. inversion E'; subst C'.
  destruct (mem it C) eqn:M; [apply mem_In; assumption|].
  apply mem_false in M. exfalso.
  assert (X : In it (closure_sweep (group_productions G) C)).
  { apply closure_sweep_In. split; [exists item; auto | assumption]. }
  rewrite Sw in X. destruct X.
Qed.

(* ===================================================================== *)
(** ** Dicts of sets that only grow, and the loops over them *)
(* ===================================================================== *)

Section Growing.
Context {K A : Type} `{EqDec K}.

(** The number of members over all the sets of a dict. *)
Definition weight (d : dict K (list A)) : nat :=
  fold_right (fun e n => length (snd e) + n) 0 d.

Definition size_at (d : dict K (list A)) (k : K) : nat := length (get_or d k []).

(** [d'] comes from [d] by entering keys and by appending members. *)
Definition grows (d d' : dict K (list A)) : Prop :=
  (forall k, exists e, get_or d' k [] = get_or d k [] ++ e)
  /\ weight d <= weight d'
  /\ (forall k, weight d + size_at d' k <= weight d' + size_at d k).

Lemma weight_app (d1 d2 : dict K (list A)) : weight (d1 ++ d2) = weight d1 + weight d2.
Proof. induction d1 as [|e d1 IH]; simpl; [reflexivity | rewrite IH; lia]. Qed.

Lemma weight_set (d : dict K (list A)) (k : K) (v : list A) :
  weight (set d k v) + size_at d k = weight d + length v.
Proof.
  unfold size_at, get_or. induction d as [|[k0 v0] r IH]; simpl.
  - lia.
  - destruct (eqb k k0); simpl; lia.
Qed.

Lemma grows_refl (d : dict K (list A)) : grows d d.
Proof.
  repeat split; try lia. intros k. exists []. rewrite app_nil_r. reflexivity.
Qed.

Lemma grows_size (d d' : dict K (list A)) (k : K) :
  grows d d' -> size_at d k <= size_at d' k.
Proof.
  intros [G _]. destruct (G k) as [e E]. unfold size_at. rewrite E, length_app. lia.
Qed.

Lemma grows_trans (d1 d2 d3 : dict K (list A)) :
  grows d1 d2 -> grows d2 d3 -> grows d1 d3.
Proof.
  intros G12 G23. pose proof G12 as [A1 [B1 C1]]. pose proof G23 as [A2 [B2 C2]].
  repeat split.
  - intros k. destruct (A1 k) as [e1 E1]. destruct (A2 k) as [e2 E2].
    exists (e1 ++ e2). rewrite E2, E1, app_assoc. reflexivity.
  - lia.
  - intros k. specialize (C1 k). specialize (C2 k). lia.
Qed.

Lemma grows_weight_lt (d d' : dict K (list A)) (k : K) :
  grows d d' -> size_at d k < size_at d' k -> weight d < weight d'.
Proof. intros [_ [_ C]] L. specialize (C k). lia. Qed.

Lemma grows_same (d d' : dict K (list A)) (k : K) :
  grows d d' -> size_at d' k <= size_at d k -> get_or d' k [] = get_or d k [].
Proof.
  intros [G _] L. destruct (G k) as [e E]. unfold size_at in L.
  rewrite E in *. rewrite length_app in L.
  destruct e; [apply app_nil_r | simpl in L; lia].
Qed.

Lemma grows_incl (d d' : dict K (list A)) (k : K) :
  grows d d' -> incl (get_or d k []) (get_or d' k []).
Proof.
  intros [G _]. destruct (G k) as [e E]. rewrite E. apply incl_appl, incl_refl.
Qed.

Lemma grows_touch (d : dict K (list A)) (k : K) : grows d (touch [] d k).
Proof.
  assert (W : weight (touch [] d k) = weight d).
  { unfold touch. destruct (has d k); [reflexivity|].
    rewrite weight_app. simpl. lia. }
  repeat split.
  - intros k'. exists []. rewrite get_or_touch, app_nil_r. reflexivity.
  - lia.
  - intros k'. unfold size_at. rewrite get_or_touch. lia.
Qed.

Lemma grows_set (d : dict K (list A)) (k : K) (e : list A) :
  grows d (set d k (get_or d k [] ++ e)).
Proof.
  pose proof (weight_set d k (get_or d k [] ++ e)) as W.
  rewrite length_app in W. unfold size_at in *.
  repeat split.
  - intros k'. rewrite get_or_set. destruct (eqb k' k) eqn:E.
    + apply eqb_eq in E; subst. exists e. reflexivity.
    + exists []. rewrite app_nil_r. reflexivity.
  - lia.
  - intros k'. unfold size_at. rewrite get_or_set. destruct (eqb k' k) eqn:E.
    + apply eqb_eq in E; subst. rewrite length_app. lia.
    + lia.
Qed.

(** The keys are among [Ks] and the members among [U], without
    repetitions. *)
Definition bounded (Ks : list K) (U : list A) (d : dict K (list A)) : Prop :=
  NoDup (keys d) /\ incl (keys d) Ks
  /\ Forall (fun e => NoDup (snd e) /\ incl (snd e) U) d.

Lemma bounded_weight (Ks : list K) (U : list A) (d : dict K (list A)) :
  bounded Ks U d -> weight d <= length Ks * length U.
Proof.
  intros [N [I F]].
  assert (W : weight d <= length d * length U).
  { clear N I. induction F as [|e d [Ne Ie] F IH]; simpl; [lia|].
    pose proof (NoDup_incl_length Ne Ie). lia. }
  pose proof (NoDup_incl_length N I) as L. unfold keys in L. rewrite length_map in L.
  nia.
Qed.

Lemma bounded_get_or (Ks : list K) (U : list A) (d : dict K (list A)) (k : K) :
  bounded Ks U d -> NoDup (get_or d k []) /\ incl (get_or d k []) U.
Proof.
  intros [_ [_ F]]. unfold get_or. destruct (get d k) as [v|] eqn:G.
  - apply get_Some_In in G. rewrite Forall_forall in F. exact (F _ G).
  - split; [constructor | apply incl_nil_l].
Qed.

Lemma bounded_touch (Ks : list K) (U : list A) (d : dict K (list A)) (k : K) :
  In k Ks -> bounded Ks U d -> bounded Ks U (touch [] d k).
Proof.
  intros Hk [N [I F]]. repeat split.
  - apply keys_NoDup_touch; assumption.
  - rewrite keys_touch. destruct (has d k); [assumption|].
    apply incl_app; [assumption|]. intros x [<- |[]]. assumption.
  - unfold touch. destruct (has d k); [assumption|].
    apply Forall_app. split; [assumption|]. constructor; [|constructor].
    simpl. split; [constructor | apply incl_nil_l].
Qed.

Lemma Forall_set (P : K * list A -> Prop) (d : dict K (list A)) (k : K) (v : list A) :
  (forall k', P (k', v)) -> Forall P d -> Forall P (set d k v).
Proof.
  intros Pv F. induction F as [|[k0 v0] d P0 F IH]; simpl.
  - constructor; [apply Pv | constructor].
  - destruct (eqb k k0); constructor; auto.
Qed.

Lemma bounded_set (Ks : list K) (U : list A) (d : dict K (list A)) (k : K) (v : list A) :
  In k Ks -> NoDup v -> incl v U -> bounded Ks U d -> bounded Ks U (set d k v).
Proof.
  intros Hk Nv Iv [N [I F]]. repeat split.
  - apply keys_NoDup_set; assumption.
  - rewrite keys_set. destruct (has d k); [assumption|].
    apply incl_app; [assumption|]. intros x [<- |[]]. assumption.
  - apply Forall_set; [intros; simpl; auto | assumption].
Qed.

(** A stretch of the program between two states of such a dict. *)
Definition step_ok (Ks : list K) (U : list A) (d d' : dict K (list A)) : Prop :=
  grows d d' /\ (bounded Ks U d -> bounded Ks U d').

Lemma ok_refl (Ks : list K) (U : list A) (d : dict K (list A)) : step_ok Ks U d d.
Proof. split; [apply grows_refl | auto]. Qed.

Lemma ok_trans (Ks : list K) (U : list A) (d1 d2 d3 : dict K (list A)) :
  step_ok Ks U d1 d2 -> step_ok Ks U d2 d3 -> step_ok Ks U d1 d3.
Proof. intros [G1 B1] [G2 B2]. split; [eapply grows_trans; eassumption | auto]. Qed.

Lemma ok_touch (Ks : list K) (U : list A) (d : dict K (list A)) (k : K) :
  In k Ks -> step_ok Ks U d (touch [] d k).
Proof. intros Hk. split; [apply grows_touch | apply bounded_touch; assumption]. Qed.

Context `{EqDec A}.

Lemma ok_update (Ks : list K) (U : list A) (d : dict K (list A)) (k : K) (t : list A) :
  In k Ks -> (bounded Ks U d -> incl t U) ->
  step_ok Ks U d (set d k (update (get_or d k []) t)).
Proof.
  intros Hk It. split.
  - destruct (update_extends t (get_or d k [])) as [e [-> _]]. apply grows_set.
  - intros B. destruct (bounded_get_or k B) as [N I]. apply bounded_set; auto.
    + apply update_NoDup; assumption.
    + intros x Hx. apply update_In in Hx as [Hx|Hx]; [apply I | apply (It B)]; assumption.
Qed.

Lemma ok_add (Ks : list K) (U : list A) (d : dict K (list A)) (k : K) (x : A) :
  In k Ks -> In x U -> step_ok Ks U d (set d k (add (get_or d k []) x)).
Proof.
  intros Hk Hx. change (add (get_or d k []) x) with (update (get_or d k []) [x]).
  apply ok_update; [assumption|]. intros _ y [<- |[]]. assumption.
Qed.

End Growing.

Section WhileChanged.
Context {S : Type}.
Variable pass : S -> S * bool.
Variable Inv : S -> Prop.
Variable w : S -> nat.
Variable B : nat.

Hypothesis pass_Inv : forall s, Inv s -> Inv (fst (pass s)).
Hypothesis w_bounded : forall s, Inv s -> w s <= B.
Hypothesis pass_rises : forall s, Inv s -> snd (pass s) = true -> w s < w (fst (pass s)).

(** A loop whose passes raise a bounded measure whenever they set the flag
    returns, and what it returns is the outcome of a pass that left the
    flag down. *)
Lemma while_changed_returns (fuel : nat) :
  forall s, Inv s -> B < w s + fuel ->
    exists s0 r, while_changed pass fuel s = Some r /\ Inv s0 /\ pass s0 = (r, false).
Proof.
  induction fuel as [|fuel IH]; intros s I L.
  - pose proof (w_bounded I). lia.
  - cbn [while_changed]. destruct (pass s) as [s' changed] eqn:E.
    pose proof (pass_Inv I) as I'. pose proof (pass_rises I) as R.
    rewrite E in I', R. cbn [fst snd] in I', R. destruct changed.
    + specialize (R eq_refl). apply IH; [assumption | lia].
    + exists s, s'. auto.
Qed.

Lemma while_changed_more_fuel (fuel fuel' : nat) (s r : S) :
  while_changed pass fuel s = Some r -> fuel <= fuel' ->
  while_changed pass fuel' s = Some r.
Proof.
  revert fuel' s. induction fuel as [|fuel IH]; intros fuel' s E L; [discriminate|].
  destruct fuel' as [|fuel']; [lia|]. cbn [while_changed] in *.
  destruct (pass s) as [s' [|]]; [apply IH; [assumption | lia] | assumption].
Qed.

End WhileChanged.

(** Relations between two states [(sets, changed)] of a pass. *)
Section Flagged.
Context {K A : Type} `{EqDec K}.
Variable Ks : list K.
Variable U : list A.

(** The sets evolve within the bounds, and the flag is not raised without a
    set having grown. *)
Definition rising (st st' : dict K (list A) * bool) : Prop :=
  step_ok Ks U (fst st) (fst st')
  /\ (snd st' = true -> snd st = true \/ weight (fst st) < weight (fst st')).

(** A flag that is down tells that it was down and that no set has changed. *)
Definition quiet (st st' : dict K (list A) * bool) : Prop :=
  snd st' = false ->
  snd st = false /\ forall k, get_or (fst st') k [] = get_or (fst st) k [].

Lemma rising_refl (st : dict K (list A) * bool) : rising st st.
Proof. split; [apply ok_refl | auto]. Qed.

Lemma rising_trans (s1 s2 s3 : dict K (list A) * bool) :
  rising s1 s2 -> rising s2 s3 -> rising s1 s3.
Proof.
  intros [O1 R1] [O2 R2]. split; [eapply ok_trans; eassumption|].
  intros E. destruct O1 as [[_ [W1 _]] _]. destruct O2 as [[_ [W2 _]] _].
  destruct (R2 E) as [E2|L]; [destruct (R1 E2); [auto | right; lia] | right; lia].
Qed.

Lemma quiet_refl (st : dict K (list A) * bool) : quiet st st.
Proof. intros E. auto. Qed.

Lemma quiet_trans (s1 s2 s3 : dict K (list A) * bool) :
  quiet s1 s2 -> quiet s2 s3 -> quiet s1 s3.
Proof.
  intros Q1 Q2 E. destruct (Q2 E) as [E2 G2]. destruct (Q1 E2) as [E1 G1].
  split; [assumption|]. intros k. rewrite G2. apply G1.
Qed.

End Flagged.

Lemma fold_left_rel {S X : Type} (R : S -> S -> Prop) (f : S -> X -> S) (l : list X) :
  (forall s, R s s) -> (forall a b c, R a b -> R b c -> R a c) ->
  (forall s x, In x l -> R s (f s x)) ->
  forall s, R s (fold_left f l s).
Proof.
  intros Rr Rt. induction l as [|x l IH]; intros Hf s; cbn [fold_left]; [apply Rr|].
  eapply Rt; [apply Hf; left; reflexivity|].
  apply IH. intros s' y Hy. apply Hf. right; assumption.
Qed.

(** The productions in the order in which a pass meets them. *)
Definition flatten (productions : dict Symbol (list (list Symbol))) : list Production :=
  flat_map (fun entry => map (pair (fst entry)) (snd entry)) productions.

Lemma fold_nested {S : Type} (f : Symbol -> S -> list Symbol -> S)
    (productions : dict Symbol (list (list Symbol))) (s : S) :
  fold_left (fun st entry => fold_left (f (fst entry)) (snd entry) st) productions s =
  fold_left (fun st p => f (fst p) st (snd p)) (flatten productions) s.
Proof.
  unfold flatten. revert s. induction productions as [|[lhs rhss] P IH]; intros s;
    cbn [fold_left flat_map fst snd]; [reflexivity|].
  rewrite fold_left_app, IH. f_equal.
  clear. revert s. induction rhss as [|r rhss IH]; intros s; cbn [fold_left map];
    [reflexivity | apply IH].
Qed.

Lemma group_fold_keys (g : Grammar) (P : dict Symbol (list (list Symbol))) :
  NoDup (keys P) ->
  NoDup (keys (fold_left (fun P p => append_production P (fst p) (snd p)) g P)).
Proof.
  revert P. induction g as [|p g IH]; intros P N; cbn [fold_left]; [assumption|].
  apply IH. apply keys_NoDup_set. assumption.
Qed.

Lemma In_get {K V} `{EqDec K} (d : dict K V) (k : K) (v : V) :
  NoDup (keys d) -> In (k, v) d -> get d k = Some v.
Proof.
  induction d as [|[k0 v0] d IH]; intros N I; [destruct I|].
  simpl in *. inversion N as [|? ? N1 N2]; subst. destruct I as [E|I].
  - inversion E; subst. rewrite eqb_refl. reflexivity.
  - destruct (eqb k k0) eqn:E.
    + apply eqb_eq in E; subst. exfalso. apply N1.
      change k0 with (fst (k0, v)). apply in_map. assumption.
    + apply IH; assumption.
Qed.

Lemma flatten_group_In (g : Grammar) (p : Production) :
  In p (flatten (group_productions g)) <-> In p g.
Proof.
  unfold flatten. rewrite in_flat_map. destruct p as [A rhs]. split.
  - intros [[l rhss] [I1 I2]]. cbn [fst snd] in I2.
    apply in_map_iff in I2 as [r [E I2]]. inversion E; subst.
    apply In_get in I1; [|apply group_fold_keys; constructor].
    eapply group_productions_In; eauto.
  - intros I. pose proof (group_fold_get_or g [] A) as E.
    fold (group_productions g) in E. cbn [get_or get app] in E.
    assert (Hr : In rhs (get_or (group_productions g) A [])).
    { rewrite E. apply in_map_iff. exists (A, rhs). split; [reflexivity|].
      apply filter_In. split; [assumption | apply eqb_refl]. }
    unfold get_or in Hr. destruct (get (group_productions g) A) as [rhss|] eqn:G;
      [|destruct Hr].
    exists (A, rhss). split; [apply get_Some_In; assumption|].
    cbn [fst snd]. apply in_map. assumption.
Qed.

(* ===================================================================== *)
(** ** compute_first_sets: termination, and 'ε' against nullability *)
(* ===================================================================== *)

(** A symbol derives the empty string when one of its productions has only
    symbols that are the marker 'ε' or derive the empty string themselves. *)
Inductive derives_empty (g : Grammar) : Symbol -> Prop :=
| de_production (A : Symbol) (rhs : list Symbol) :
    In (A, rhs) g -> all_empty g rhs -> derives_empty g A
with all_empty (g : Grammar) : list Symbol -> Prop :=
| ae_nil : all_empty g []
| ae_marker (rest : list Symbol) : all_empty g rest -> all_empty g (EPSILON :: rest)
| ae_symbol (x : Symbol) (rest : list Symbol) :
    derives_empty g x -> all_empty g rest -> all_empty g (x :: rest).

Scheme derives_empty_ind2 := Minimality for derives_empty Sort Prop
  with all_empty_ind2 := Minimality for all_empty Sort Prop.

(** The same by derivations: a step replaces an occurrence of a left-hand
    side by one of its right-hand sides, and a string is blank when it is
    made of markers 'ε' only. *)
Inductive derives_step (g : Grammar) : list Symbol -> list Symbol -> Prop :=
| ds_rewrite (u : list Symbol) (A : Symbol) (v rhs : list Symbol) :
    In (A, rhs) g -> derives_step g (u ++ A :: v) (u ++ rhs ++ v).

Inductive derives (g : Grammar) : list Symbol -> list Symbol -> Prop :=
| d_refl (u : list Symbol) : derives g u u
| d_step (u v w : list Symbol) : derives_step g u v -> derives g v w -> derives g u w.

Definition blank (w : list Symbol) : Prop := Forall (fun x => x = EPSILON) w.

Section Derivations.

Variable g : Grammar.

Lemma derives_trans (u v w : list Symbol) : derives g u v -> derives g v w -> derives g u w.
Proof.
  induction 1 as [|u v' v St D IH]; intros D'; [exact D'|].
  eapply d_step; [exact St | apply IH; exact D'].
Qed.

Lemma derives_app_l (p u v : list Symbol) : derives g u v -> derives g (p ++ u) (p ++ v).
Proof.
  induction 1 as [|u v' v St D IH]; [apply d_refl|].
  eapply d_step; [|exact IH]. destruct St as [a A b rhs I].
  rewrite (app_assoc p a (A :: b)), (app_assoc p a (rhs ++ b)).
  apply ds_rewrite. exact I.
Qed.

Lemma derives_app_r (s u v : list Symbol) : derives g u v -> derives g (u ++ s) (v ++ s).
Proof.
  induction 1 as [|u v' v St D IH]; [apply d_refl|].
  eapply d_step; [|exact IH]. destruct St as [a A b rhs I].
  rewrite <- !app_assoc. cbn [app]. apply ds_rewrite. exact I.
Qed.

Lemma derives_app (u u' v v' : list Symbol) :
  derives g u u' -> derives g v v' -> derives g (u ++ v) (u' ++ v').
Proof.
  intros Du Dv. eapply derives_trans; [apply derives_app_r; exact Du|].
  apply derives_app_l. exact Dv.
Qed.

Lemma all_empty_app (u v : list Symbol) :
  all_empty g (u ++ v) <-> all_empty g u /\ all_empty g v.
Proof.
  induction u as [|x u IH]; cbn [app].
  - split; [intros E; split; [constructor | exact E] | intros [_ E]; exact E].
  - split.
    + intros E. inversion E as [|rest E' Eq|y rest Dx E' Eq]; subst.
      * apply IH in E' as [Eu Ev]. split; [apply ae_marker | ]; assumption.
      * apply IH in E' as [Eu Ev]. split; [apply ae_symbol | ]; assumption.
    + intros [E Ev]. inversion E as [|rest E' Eq|y rest Dx E' Eq]; subst.
      * apply ae_marker. apply IH. auto.
      * apply ae_symbol; [assumption | apply IH; auto].
Qed.

Lemma blank_all_empty (w : list Symbol) : blank w -> all_empty g w.
Proof.
  induction 1 as [|x w -> _ IH]; [constructor | apply ae_marker; exact IH].
Qed.

Lemma derives_all_empty (u w : list Symbol) : derives g u w -> blank w -> all_empty g u.
Proof.
  induction 1 as [|u v w St D IH]; intros B; [apply blank_all_empty; exact B|].
  specialize (IH B). destruct St as [a A b rhs I].
  apply all_empty_app in IH as [Ea E]. apply all_empty_app in E as [Er Eb].
  apply all_empty_app. split; [exact Ea|].
  apply ae_symbol; [|exact Eb]. eapply de_production; eassumption.
Qed.

Lemma derives_empty_derivation :
  (forall A, derives_empty g A -> exists w, derives g [A] w /\ blank w)
  /\ (forall rhs, all_empty g rhs -> exists w, derives g rhs w /\ blank w).
Proof.
  split.
  - refine (@derives_empty_ind2 g
              (fun A => exists w, derives g [A] w /\ blank w)
              (fun rhs => exists w, derives g rhs w /\ blank w) _ _ _ _).
    + intros A rhs I _ [w [D B]]. exists w. split; [|exact B].
      eapply d_step; [|exact D].
      pose proof (@ds_rewrite g [] A [] rhs I) as St. cbn [app] in St.
      rewrite app_nil_r in St. exact St.
    + exists []. split; [apply d_refl | constructor].
    + intros rest _ [w [D B]]. exists (EPSILON :: w). split.
      * apply (@derives_app_l [EPSILON] rest w D).
      * constructor; [reflexivity | exact B].
    + intros x rest _ [wx [Dx Bx]] _ [w [D B]]. exists (wx ++ w). split.
      * apply (@derives_app [x] wx rest w Dx D).
      * apply Forall_app. split; assumption.
  - refine (@all_empty_ind2 g
              (fun A => exists w, derives g [A] w /\ blank w)
              (fun rhs => exists w, derives g rhs w /\ blank w) _ _ _ _).
    + intros A rhs I _ [w [D B]]. exists w. split; [|exact B].
      eapply d_step; [|exact D].
      pose proof (@ds_rewrite g [] A [] rhs I) as St. cbn [app] in St.
      rewrite app_nil_r in St. exact St.
    + exists []. split; [apply d_refl | constructor].
    + intros rest _ [w [D B]]. exists (EPSILON :: w). split.
      * apply (@derives_app_l [EPSILON] rest w D).
      * constructor; [reflexivity | exact B].
    + intros x rest _ [wx [Dx Bx]] _ [w [D B]]. exists (wx ++ w). split.
      * apply (@derives_app [x] wx rest w Dx D).
      * apply Forall_app. split; assumption.
Qed.

(** [derives_empty] is the derivability of a blank string: for a symbol
    other than the marker, having a derivation [A =>* w] with [w] blank. *)
Lemma derives_empty_iff_blank (A : Symbol) :
  A <> EPSILON ->
  (derives_empty g A <-> exists w, derives g [A] w /\ blank w).
Proof.
  intros N. split.
  - apply derives_empty_derivation.
  - intros [w [D B]]. pose proof (@derives_all_empty [A] w D B) as E.
    inversion E as [|rest E' Eq|y rest Dx E' Eq]; subst; [contradiction | exact Dx].
Qed.

End Derivations.

Section FirstFacts.

Variable T : list Symbol.
Variable Ks U : list Symbol.
Hypothesis eps_U : In EPSILON U.
Hypothesis T_U : incl T U.

(** 'ε' is in [first_of(x)] when the sets are read through [G]. *)
Definition nullable_in (G : Symbol -> list Symbol) (x : Symbol) : Prop :=
  if mem x T then x = EPSILON else In EPSILON (G x).

Lemma nullable_in_ext (G G' : Symbol -> list Symbol) (x : Symbol) :
  (forall k, In EPSILON (G k) <-> In EPSILON (G' k)) ->
  nullable_in G x <-> nullable_in G' x.
Proof. intros E. unfold nullable_in. destruct (mem x T); [tauto | apply E]. Qed.

(** Only the set of [lhs] is written, and 'ε' is not what is written. *)
Definition same_epsilon (d d' : FirstSets) : Prop :=
  forall k, In EPSILON (get_or d' k []) <-> In EPSILON (get_or d k []).

Definition only_at (lhs : Symbol) (d d' : FirstSets) : Prop :=
  forall k, k <> lhs -> get_or d' k [] = get_or d k [].

Lemma scan_symbol_spec (lhs x : Symbol) (d : FirstSets) :
  In lhs Ks -> In x Ks ->
  step_ok Ks U d (fst (scan_symbol T lhs d x))
  /\ only_at lhs d (fst (scan_symbol T lhs d x))
  /\ same_epsilon d (fst (scan_symbol T lhs d x))
  /\ (snd (scan_symbol T lhs d x) = true <-> nullable_in (fun k => get_or d k []) x).
Proof.
  intros Hl Hx. unfold scan_symbol, first_of, nullable_in.
  destruct (mem x T) eqn:M; cbn [fst snd].
  - apply mem_In in M. split; [|split; [|split]].
    + apply ok_update; [assumption|]. intros _ y Hy. apply discard_In in Hy as [Hy _].
      destruct Hy as [<- |[]]. apply T_U; assumption.
    + intros k N. rewrite get_or_set. apply eqb_neq in N. rewrite N. reflexivity.
    + intros k. rewrite get_or_set. destruct (eqb k lhs) eqn:E; [|tauto].
      apply eqb_eq in E; subst. rewrite update_In, discard_In. tauto.
    + cbn [mem]. rewrite orb_false_r. split.
      * intros E. apply eqb_eq in E. congruence.
      * intros ->. apply eqb_refl.
  - set (d1 := touch [] d x).
    set (d2 := set d1 lhs (update (get_or d1 lhs []) (discard (get_or d x []) EPSILON))).
    assert (O : step_ok Ks U d (touch [] d2 x)).
    { apply ok_trans with (d2 := d1); [apply ok_touch; exact Hx|].
      apply ok_trans with (d2 := d2); [|apply ok_touch; exact Hx].
      apply ok_update; [assumption|]. intros B y Hy. apply discard_In in Hy as [Hy _].
      destruct (bounded_get_or x B) as [_ I]. apply I. unfold d1.
      rewrite get_or_touch. assumption. }
    assert (S2 : forall k, In EPSILON (get_or d2 k []) <-> In EPSILON (get_or d k [])).
    { intros k. unfold d2. rewrite get_or_set. destruct (eqb k lhs) eqn:E.
      - apply eqb_eq in E; subst. rewrite update_In, discard_In. unfold d1.
        rewrite get_or_touch. tauto.
      - unfold d1. rewrite get_or_touch. tauto. }
    split; [|split; [|split]].
    + apply O.
    + intros k N. rewrite get_or_touch. unfold d2. rewrite get_or_set.
      apply eqb_neq in N. rewrite N. unfold d1. apply get_or_touch.
    + intros k. rewrite get_or_touch. apply S2.
    + rewrite mem_In. apply S2.
Qed.

Lemma scan_rhs_spec (lhs : Symbol) (rhs : list Symbol) :
  In lhs Ks -> incl rhs Ks ->
  forall d,
    step_ok Ks U d (scan_rhs T lhs rhs d)
    /\ only_at lhs d (scan_rhs T lhs rhs d)
    /\ forall k, In EPSILON (get_or (scan_rhs T lhs rhs d) k []) <->
                 In EPSILON (get_or d k [])
                 \/ (k = lhs /\ Forall (nullable_in (fun k => get_or d k [])) rhs).
Proof.
  intros Hl. induction rhs as [|x rest IH]; intros Hr d; cbn [scan_rhs].
  - split; [|split].
    + apply ok_add; assumption.
    + intros k N. rewrite get_or_set. apply eqb_neq in N. rewrite N. reflexivity.
    + intros k. rewrite get_or_set. destruct (eqb k lhs) eqn:E.
      * apply eqb_eq in E; subst. rewrite add_In. split; [|auto].
        intros [I|_]; auto.
      * apply eqb_neq in E. tauto.
  - assert (Hx : In x Ks) by (apply Hr; left; reflexivity).
    assert (Hrest : incl rest Ks) by (intros y Hy; apply Hr; right; assumption).
    destruct (scan_symbol_spec lhs x d Hl Hx) as [O [On [Se Go]]].
    destruct (scan_symbol T lhs d x) as [d1 go]. cbn [fst snd] in *.
    destruct go; cbn [negb].
    + destruct (IH Hrest d1) as [O' [On' E']]. split; [|split].
      * eapply ok_trans; eassumption.
      * intros k N. rewrite On' by assumption. apply On; assumption.
      * intros k. rewrite E'. split.
        -- intros [I|[-> F]].
           ++ left. apply Se. assumption.
           ++ right. split; [reflexivity|]. constructor.
              ** apply Go. reflexivity.
              ** eapply Forall_impl; [|exact F]. intros y Hy.
                 eapply nullable_in_ext; [|exact Hy]. intros k'. symmetry. apply Se.
        -- intros [I|[-> F]].
           ++ left. apply Se. assumption.
           ++ right. split; [reflexivity|]. inversion F as [|? ? _ F']; subst.
              eapply Forall_impl; [|exact F']. intros y Hy.
              eapply nullable_in_ext; [|exact Hy]. intros k'. apply Se.
    + split; [|split].
      * assumption.
      * assumption.
      * intros k. split.
        -- intros I. left. apply Se. assumption.
        -- intros [I|[_ F]]; [apply Se; assumption|].
           inversion F as [|? ? N _]; subst. apply Go in N. discriminate.
Qed.

Lemma first_production_spec (lhs : Symbol) (rhs : list Symbol) (st : FirstSets * bool) :
  In lhs Ks -> incl rhs Ks ->
  rising Ks U st (first_production T lhs st rhs)
  /\ quiet st (first_production T lhs st rhs)
  /\ forall k, In EPSILON (get_or (fst (first_production T lhs st rhs)) k []) <->
               In EPSILON (get_or (fst st) k [])
               \/ (k = lhs /\ Forall (nullable_in (fun k => get_or (fst st) k [])) rhs).
Proof.
  intros Hl Hr. destruct st as [d c]. unfold first_production. cbn [fst snd].
  set (d0 := touch [] d lhs).
  assert (E : match rhs with
              | [] => set d0 lhs (add (get_or d0 lhs []) EPSILON)
              | _ :: _ => scan_rhs T lhs rhs d0
              end = scan_rhs T lhs rhs d0) by (destruct rhs; reflexivity).
  rewrite E. clear E.
  destruct (@scan_rhs_spec lhs rhs Hl Hr d0) as [O [On Ep]].
  assert (O' : step_ok Ks U d (scan_rhs T lhs rhs d0)).
  { apply ok_trans with (d2 := d0); [apply ok_touch; exact Hl | exact O]. }
  assert (G0 : forall k, get_or d0 k [] = get_or d k []).
  { intros k. apply get_or_touch. }
  rewrite G0.
  assert (Nu : forall y, nullable_in (fun k => get_or d0 k []) y
                         <-> nullable_in (fun k => get_or d k []) y).
  { intros y. apply nullable_in_ext. intros k'. rewrite G0. tauto. }
  split; [|split].
  - split; [exact O'|]. cbn [fst snd]. intros C.
    apply orb_true_iff in C as [C|C]; [left; assumption | right].
    apply Nat.ltb_lt in C. eapply grows_weight_lt; [apply O' | exact C].
  - intros C. cbn [fst snd] in *. apply orb_false_iff in C as [C1 C2].
    split; [assumption|]. apply Nat.ltb_ge in C2. intros k.
    destruct (eqb k lhs) eqn:E.
    + apply eqb_eq in E; subst. apply grows_same; [apply O' | exact C2].
    + apply eqb_neq in E. rewrite On by assumption. apply G0.
  - intros k. rewrite Ep, G0. split.
    + intros [I|[-> F]]; [auto|]. right. split; [reflexivity|].
      eapply Forall_impl; [|exact F]. intros y. apply Nu.
    + intros [I|[-> F]]; [auto|]. right. split; [reflexivity|].
      eapply Forall_impl; [|exact F]. intros y. apply Nu.
Qed.

End FirstFacts.

Section FirstSolver.

Variable isupper : str -> bool.
Variable g : Grammar.

Let T := first_terminals isupper g.
Let Ks := grammar_symbols g.
Let U := EPSILON :: grammar_symbols g.
Let step := fun (st : FirstSets * bool) (p : Production) =>
              first_production T (fst p) st (snd p).

Lemma first_pass_flat (d : FirstSets) :
  first_pass T (group_productions g) d =
  fold_left step (flatten (group_productions g)) (d, false).
Proof. unfold first_pass, step. apply (fold_nested (first_production T)). Qed.

Lemma production_in_bounds (p : Production) :
  In p g -> In (fst p) Ks /\ incl (snd p) Ks.
Proof.
  intros I. unfold Ks. split.
  - apply grammar_symbols_In. left. apply in_map. assumption.
  - intros x Hx. apply grammar_symbols_In. right. exists p. auto.
Qed.

Lemma first_terminals_in_universe : incl T U.
Proof.
  intros x Hx. apply first_terminals_In in Hx as [g1 [p [g2 [E [Hp _]]]]].
  right. apply grammar_symbols_In. right. exists p. split; [|assumption].
  rewrite E. apply in_or_app. right. left. reflexivity.
Qed.

(** In the sets [d], 'ε' is only where the symbol derives the empty string. *)
Definition sound (d : FirstSets) : Prop :=
  forall k, In EPSILON (get_or d k []) -> derives_empty g k.

Lemma nullable_all_empty (d : FirstSets) (rhs : list Symbol) :
  sound d -> Forall (nullable_in T (fun k => get_or d k [])) rhs -> all_empty g rhs.
Proof.
  intros S F. induction F as [|x rest Hx F IH]; [constructor|].
  unfold nullable_in in Hx. destruct (mem x T).
  - subst. apply ae_marker. assumption.
  - apply ae_symbol; [apply S; assumption | assumption].
Qed.

Lemma step_facts (st : FirstSets * bool) (p : Production) :
  In p (flatten (group_productions g)) ->
  rising Ks U st (step st p) /\ quiet st (step st p)
  /\ (sound (fst st) -> sound (fst (step st p)))
  /\ forall k, In EPSILON (get_or (fst (step st p)) k []) <->
               In EPSILON (get_or (fst st) k [])
               \/ (k = fst p /\ Forall (nullable_in T (fun k => get_or (fst st) k [])) (snd p)).
Proof.
  intros I. apply (proj1 (flatten_group_In g p)) in I.
  destruct (@production_in_bounds p I) as [Hl Hr].
  destruct (@first_production_spec T Ks U (or_introl eq_refl)
              first_terminals_in_universe (fst p) (snd p) st Hl Hr) as [R [Q E]].
  split; [exact R|]. split; [exact Q|]. split; [|exact E].
  intros S k Hk. apply E in Hk as [Hk|[-> F]]; [apply S; assumption|].
  apply de_production with (rhs := snd p).
  - destruct p; assumption.
  - eapply nullable_all_empty; eassumption.
Qed.

Lemma first_pass_facts (d : FirstSets) :
  rising Ks U (d, false) (first_pass T (group_productions g) d)
  /\ quiet (d, false) (first_pass T (group_productions g) d)
  /\ (sound d -> sound (fst (first_pass T (group_productions g) d))).
Proof.
  rewrite first_pass_flat. split; [|split].
  - apply fold_left_rel; [apply rising_refl | apply rising_trans |].
    intros s x Hx. apply step_facts. assumption.
  - apply fold_left_rel; [apply quiet_refl | apply quiet_trans |].
    intros s x Hx. apply step_facts. assumption.
  - refine (@fold_left_rel _ _ (fun s s' => sound (fst s) -> sound (fst s')) step
                             _ _ _ _ (d, false)); [auto | auto |].
    intros s x Hx. apply step_facts. assumption.
Qed.

(** After a pass that left the flag down, the set of a left-hand side holds
    'ε' as soon as a right-hand side asks for it. *)
Lemma quiet_pass_closed (d r : FirstSets) (p : Production) :
  first_pass T (group_productions g) d = (r, false) ->
  In p g ->
  Forall (nullable_in T (fun k => get_or d k [])) (snd p) ->
  In EPSILON (get_or d (fst p) []).
Proof.
  rewrite first_pass_flat. intros E I F.
  apply (proj2 (flatten_group_In g p)) in I. pose proof I as I'.
  apply in_split in I as [l1 [l2 L]]. rewrite L in E, I'.
  rewrite fold_left_app in E. cbn [fold_left] in E.
  set (s1 := fold_left step l1 (d, false)) in *.
  assert (Q1 : quiet (d, false) s1).
  { apply fold_left_rel; [apply quiet_refl | apply quiet_trans |].
    intros s x Hx. apply step_facts. rewrite L. apply in_or_app. left; assumption. }
  clearbody s1.
  assert (Q3 : quiet (step s1 p) (fold_left step l2 (step s1 p))).
  { apply fold_left_rel; [apply quiet_refl | apply quiet_trans |].
    intros s x Hx. apply step_facts. rewrite L. apply in_or_app. right. right; assumption. }
  rewrite E in Q3.
  rewrite <- L in I'.
  destruct (@step_facts s1 p I') as [_ [Q2 [_ Ep]]].
  destruct (Q3 eq_refl) as [C2 _]. destruct (Q2 C2) as [C1 G2].
  destruct (Q1 C1) as [_ G1]. cbn [fst] in G1.
  rewrite <- G1, <- G2. apply Ep. right. split; [reflexivity|].
  eapply Forall_impl; [|exact F]. intros y Hy.
  eapply nullable_in_ext; [|exact Hy]. intros k. cbv beta. rewrite G1. tauto.
Qed.

(** The loop returns, with sets in which 'ε' is sound and which no
    production can extend by 'ε'. *)
Lemma compute_first_sets_spec :
  exists fs,
    compute_first_sets isupper g = Some fs
    /\ sound fs
    /\ forall p, In p g ->
         Forall (nullable_in T (fun k => get_or fs k [])) (snd p) ->
         In EPSILON (get_or fs (fst p) []).
Proof.
  unfold compute_first_sets, compute_first_sets_in. fold T.
  destruct (@while_changed_returns FirstSets
              (first_pass T (group_productions g))
              (fun d => bounded Ks U d /\ sound d)
              weight (length Ks * length U)) with (fuel := first_fuel g) (s := @nil (Symbol * list Symbol))
    as [s0 [r [E [[B S] P]]]].
  - intros s [B S]. destruct (first_pass_facts s) as [[[_ O] _] [_ So]]. auto.
  - intros s [B _]. apply bounded_weight. assumption.
  - intros s _ C. destruct (first_pass_facts s) as [[_ R] _].
    destruct (R C) as [X|X]; [discriminate | exact X].
  - split.
    + repeat split; [constructor | apply incl_nil_l | constructor].
    + intros k []. 
  - unfold first_fuel, Ks, U. simpl. lia.
  - exists r. split; [exact E|].
    destruct (first_pass_facts s0) as [_ [Q So]]. rewrite P in Q, So.
    destruct (Q eq_refl) as [_ G]. cbn [fst] in G, So. split; [auto|].
    intros p Hp F. rewrite G. eapply quiet_pass_closed; [exact P | exact Hp |].
    eapply Forall_impl; [|exact F]. intros y Hy.
    eapply nullable_in_ext; [|exact Hy]. intros k. cbv beta. rewrite G. tauto.
Qed.

End FirstSolver.

Lemma derives_empty_lhs (g : Grammar) (A : Symbol) :
  derives_empty g A -> In A (map fst g).
Proof.
  intros D. destruct D as [A rhs I _]. change A with (fst (A, rhs)).
  apply in_map. assumption.
Qed.

(** The scan of [compute_first_sets] and the rule "a terminal is a symbol
    that is no left-hand side" agree on the right-hand sides of [g], and
    'ε' is no left-hand side. *)
Definition lhs_rule_respected (isupper : str -> bool) (g : Grammar) : bool :=
  negb (mem EPSILON (map fst g))
  && forallb
       (fun x => Bool.eqb (mem x (first_terminals isupper g)) (negb (mem x (map fst g))))
       (concat (map snd g)).

Lemma lhs_rule_terminal (isupper : str -> bool) (g : Grammar) (x : Symbol) :
  lhs_rule_respected isupper g = true -> rhs_symbol g x ->
  (In x (first_terminals isupper g) <-> ~ In x (map fst g)).
Proof.
  unfold lhs_rule_respected. rewrite andb_true_iff, forallb_forall.
  intros [_ F] [p [Hp Hx]].
  assert (I : In x (concat (map snd g))).
  { apply in_concat. exists (snd p). split; [apply in_map; assumption | assumption]. }
  apply F in I. apply eqb_prop in I.
  rewrite <- mem_In, <- mem_false, I. destruct (mem x (map fst g)); simpl; split; congruence.
Qed.

(** C8 (as the code has it): on a grammar whose symbols the scan classifies
    as the left-hand-side rule does, the loop returns, 'ε' is in the FIRST
    set of a symbol exactly when the symbol derives the empty string, and
    the FIRST set read for a terminal is the terminal alone. *)
Theorem first_epsilon_iff_nullable (isupper : str -> bool) (g : Grammar) (A : Symbol) :
  lhs_rule_respected isupper g = true ->
  exists fs,
    compute_first_sets isupper g = Some fs
    /\ (In EPSILON (get_or fs A []) <-> derives_empty g A)
    /\ forall x first,
         rhs_symbol g x -> ~ In x (map fst g) ->
         fst (first_of (first_terminals isupper g) first x) = [x].
Proof.
  intros W. destruct (compute_first_sets_spec isupper g) as [fs [E [S C]]].
  exists fs. split; [exact E|]. split; [split; [apply S|]|].
  - assert (Eps : ~ In EPSILON (map fst g)).
    { unfold lhs_rule_respected in W. apply andb_true_iff in W as [W _].
      apply negb_true_iff in W. apply mem_false. assumption. }
    pose (P0 := fun rhs : list Symbol =>
                  (forall x, In x rhs -> rhs_symbol g x) ->
                  Forall (nullable_in (first_terminals isupper g)
                            (fun k => get_or fs k [])) rhs).
    revert A.
    refine (@derives_empty_ind2 g (fun A => In EPSILON (get_or fs A [])) P0
              _ _ _ _).
    + intros A rhs I _ H. apply (C (A, rhs) I). apply H.
      intros x Hx. exists (A, rhs). auto.
    + intros _. constructor.
    + intros rest _ IH R. constructor.
      * unfold nullable_in.
        assert (M : In EPSILON (first_terminals isupper g)).
        { apply (@lhs_rule_terminal isupper g EPSILON W); [apply R; left; reflexivity | assumption]. }
        apply mem_In in M. rewrite M. reflexivity.
      * apply IH. intros y Hy. apply R. right; assumption.
    + intros x rest D Hx _ IH R. constructor.
      * unfold nullable_in.
        assert (M : ~ In x (first_terminals isupper g)).
        { intros M. apply (@lhs_rule_terminal isupper g x W) in M; [|apply R; left; reflexivity].
          apply M. apply derives_empty_lhs. assumption. }
        apply mem_false in M. rewrite M. assumption.
      * apply IH. intros y Hy. apply R. right; assumption.
  - intros x first R N. unfold first_of.
    apply (@lhs_rule_terminal isupper g x W R) in N. apply mem_In in N. rewrite N. reflexivity.
Qed.

(** A grammar with a nullable symbol, written by the casing convention. *)
Definition nullable_grammar : Grammar :=
  [(lit "S", [lit "A"; lit "b"]); (lit "A", [EPSILON])].

Lemma first_epsilon_iff_nullable_witness :
  lhs_rule_respected ascii_isupper nullable_grammar = true
  /\ exists fs,
       compute_first_sets ascii_isupper nullable_grammar = Some fs
       /\ (In EPSILON (get_or fs (lit "A") []) <-> derives_empty nullable_grammar (lit "A"))
       /\ forall x first,
            rhs_symbol nullable_grammar x -> ~ In x (map fst nullable_grammar) ->
            fst (first_of (first_terminals ascii_isupper nullable_grammar) first x) = [x].
Proof.
  split; [vm_compute; reflexivity|].
  apply (first_epsilon_iff_nullable ascii_isupper nullable_grammar (lit "A")).
  vm_compute. reflexivity.
Defined.

(** A grammar whose nonterminal [a] is written in lower case and used before
    it is defined. *)
Definition lower_grammar : Grammar := [(lit "S", [lit "a"]); (lit "a", [])].

(** C8, against the specification: [S] derives the empty string through [a], yet
    FIRST(S) is without 'ε'; and the token [ID], the left-hand side of no
    production, is read with an empty FIRST set, which leaves FIRST(T)
    empty. *)
Lemma first_sets_follow_the_case :
  (derives_empty lower_grammar (lit "S")
   /\ exists fs, compute_first_sets ascii_isupper lower_grammar = Some fs
                 /\ ~ In EPSILON (get_or fs (lit "S") []))
  /\ (rhs_symbol token_grammar (lit "ID")
      /\ ~ In (lit "ID") (map fst token_grammar)
      /\ exists fs, compute_first_sets ascii_isupper token_grammar = Some fs
                    /\ fst (first_of (first_terminals ascii_isupper token_grammar)
                                     fs (lit "ID")) = []
                    /\ get_or fs (lit "T") [] = []).
Proof.
  split.
  - split.
    + apply de_production with (rhs := [lit "a"]); [left; reflexivity|].
      apply ae_symbol; [|apply ae_nil].
      apply de_production with (rhs := []); [right; left; reflexivity | apply ae_nil].
    + eexists. split; [vm_compute; reflexivity|].
      apply mem_false. vm_compute. reflexivity.
  - split; [|split].
    + exists (lit "T", [lit "ID"]). split; [right; right; left; reflexivity | left; reflexivity].
    + apply mem_false. vm_compute. reflexivity.
    + eexists. split; [vm_compute; reflexivity|]. split; vm_compute; reflexivity.
Qed.

(* ===================================================================== *)
(** ** compute_follow_sets: termination and the keys of the result *)
(* ===================================================================== *)

Section FollowSolver.

Variable g : Grammar.
Variable first_sets : FirstSets.
Variable start_symbol : Symbol.

Let Ks := start_symbol :: map fst g.
Let U := follow_universe g first_sets.
Let nts := of_list (map fst g).

Lemma trailer_in_universe (next_symbol : Symbol) (f : list Symbol) :
  get first_sets next_symbol = Some f -> incl (discard f EPSILON) U.
Proof.
  intros G x Hx. apply discard_In in Hx as [Hx _]. apply get_Some_In in G.
  right. apply in_or_app. left. apply in_concat. exists f. split; [|assumption].
  change f with (snd (next_symbol, f)). apply in_map. assumption.
Qed.

(** The look-ahead loop keeps the sets within the bounds, and a final set
    larger than [before] means that the sets have gained a member. *)
Lemma look_ahead_spec (lhs symbol : Symbol) (rest : list Symbol) :
  In lhs Ks -> In symbol Ks -> incl rest (concat (map snd g)) ->
  forall follow,
    step_ok Ks U follow (fst (look_ahead first_sets lhs symbol rest follow))
    /\ (snd (look_ahead first_sets lhs symbol rest follow)
          < size_at (fst (look_ahead first_sets lhs symbol rest follow)) symbol ->
        weight follow < weight (fst (look_ahead first_sets lhs symbol rest follow))).
Proof.
  intros Hl Hs. induction rest as [|next rest IH]; intros Hr follow; cbn [look_ahead].
  - set (d1 := touch [] follow symbol). set (d2 := touch [] d1 lhs).
    cbn [fst snd].
    assert (O : step_ok Ks U follow
                  (set d2 symbol (update (get_or d2 symbol []) (get_or d2 lhs [])))).
    { apply ok_trans with (d2 := d1); [apply ok_touch; exact Hs|].
      apply ok_trans with (d2 := d2); [apply ok_touch; exact Hl|].
      apply ok_update; [exact Hs|]. intros B. apply (bounded_get_or lhs B). }
    split; [exact O|]. intros L. eapply grows_weight_lt; [apply O|].
    unfold size_at in *. unfold d1 in L at 1. rewrite get_or_touch in L. exact L.
  - assert (Hrest : incl rest (concat (map snd g))).
    { intros y Hy. apply Hr. right; assumption. }
    set (te := match get first_sets next with
               | Some f => (discard f EPSILON, mem EPSILON f)
               | None => ([next], false)
               end).
    assert (It : incl (fst te) U).
    { unfold te. destruct (get first_sets next) as [f|] eqn:G; cbn [fst].
      - eapply trailer_in_universe; eassumption.
      - intros x [<- |[]]. right. apply in_or_app. right. apply Hr. left; reflexivity. }
    destruct te as [trailer epsilon_in_next]. cbn [fst] in It.
    set (d1 := touch [] follow symbol).
    set (d2 := set d1 symbol (update (get_or d1 symbol []) trailer)).
    assert (O : step_ok Ks U follow d2).
    { apply ok_trans with (d2 := d1); [apply ok_touch; exact Hs|].
      apply ok_update; [exact Hs | auto]. }
    destruct epsilon_in_next.
    + destruct (IH Hrest d2) as [O' W]. split.
      * eapply ok_trans; eassumption.
      * intros L. apply W in L. destruct O as [[_ [Wd _]] _]. lia.
    + cbn [fst snd]. split; [exact O|]. intros L.
      eapply grows_weight_lt; [apply O|].
      unfold size_at in *. unfold d1 in L at 1. rewrite get_or_touch in L. exact L.
Qed.

Lemma follow_rhs_rising (lhs : Symbol) (rhs : list Symbol) :
  In lhs Ks -> incl rhs (concat (map snd g)) ->
  forall st, rising Ks U st (follow_rhs nts first_sets lhs rhs st).
Proof.
  intros Hl. induction rhs as [|symbol rest IH]; intros Hr st; cbn [follow_rhs].
  - apply rising_refl.
  - assert (Hrest : incl rest (concat (map snd g))).
    { intros y Hy. apply Hr. right; assumption. }
    eapply rising_trans; [|apply IH; exact Hrest].
    destruct (mem symbol nts) eqn:M; [|apply rising_refl].
    apply mem_In in M. unfold nts in M. rewrite of_list_In in M.
    assert (Hs : In symbol Ks) by (right; exact M).
    destruct st as [d c]. cbn [fst snd].
    destruct (@look_ahead_spec lhs symbol rest Hl Hs Hrest d) as [O W].
    destruct (look_ahead first_sets lhs symbol rest d) as [follow before].
    cbn [fst snd] in *. split; [exact O|]. cbn [fst snd]. intros C.
    apply orb_true_iff in C as [C|C]; [left; exact C | right].
    apply Nat.ltb_lt in C. apply W. exact C.
Qed.

Lemma follow_pass_rising (follow : FollowSets) :
  rising Ks U (follow, false)
    (follow_pass nts first_sets (group_productions g) follow).
Proof.
  unfold follow_pass.
  rewrite (fold_nested (fun lhs st rhs => follow_rhs nts first_sets lhs rhs st)).
  apply fold_left_rel; [apply rising_refl | apply rising_trans |].
  intros st p Hp. apply (proj1 (flatten_group_In g p)) in Hp.
  apply follow_rhs_rising.
  - right. apply in_map. assumption.
  - intros x Hx. apply in_concat. exists (snd p). split; [apply in_map|]; assumption.
Qed.

(** The loop returns; the keys of what it returns are the start symbol and
    left-hand sides, and '$' is in the set of the start symbol. *)
Lemma compute_follow_sets_returns :
  exists fs,
    compute_follow_sets g first_sets start_symbol = Some fs
    /\ incl (keys fs) (start_symbol :: map fst g)
    /\ In END_MARKER (get_or fs start_symbol []).
Proof.
  unfold compute_follow_sets, compute_follow_sets_in. fold nts.
  set (init := [(start_symbol, [END_MARKER])] : FollowSets).
  destruct (@while_changed_returns FollowSets
              (follow_pass nts first_sets (group_productions g))
              (fun d => bounded Ks U d /\ grows init d)
              weight (length Ks * length U)) with (fuel := follow_fuel g first_sets) (s := init)
    as [s0 [r [E [[B G] P]]]].
  - intros s [B G]. destruct (follow_pass_rising s) as [[G' B'] _].
    split; [auto | eapply grows_trans; eassumption].
  - intros s [B _]. apply bounded_weight. assumption.
  - intros s _ C. destruct (follow_pass_rising s) as [_ R].
    destruct (R C) as [X|X]; [discriminate | exact X].
  - split; [|apply grows_refl]. split; [|split].
    + repeat constructor. simpl. tauto.
    + intros x [<- |[]]. left; reflexivity.
    + constructor; [|constructor]. cbn [snd]. split.
      * repeat constructor. simpl. tauto.
      * intros x [<- |[]]. left; reflexivity.
  - unfold follow_fuel, Ks, U. cbn [length]. rewrite length_map. apply Nat.lt_lt_add_l, Nat.lt_succ_diag_r.
  - exists r. split; [exact E|].
    destruct (follow_pass_rising s0) as [[G' B'] _]. rewrite P in G', B'. cbn [fst] in *.
    split; [apply B'; assumption|].
    apply (grows_incl start_symbol (grows_trans G G')).
    subst init. unfold get_or. cbn [get]. rewrite eqb_refl. left; reflexivity.
Qed.

End FollowSolver.

(** A grammar whose productions of [X] come before the production that
    uses [X], with start symbol [S']. *)
Definition late_start_grammar : Grammar :=
  [(lit "X", [lit "Z"]); (lit "X", [lit "t"]); (lit "X", []);
   (lit "Z", [lit "z"]); (lit "S'", [lit "X"; lit "X"; lit "t"])].

Lemma late_start_grammar_parsed :
  parse_grammar (lines ["X -> Z | t |"; "Z -> z"; "S' -> X X t"]%string)
  = Ok late_start_grammar.
Proof. vm_compute. reflexivity. Qed.

(** C7, where the code departs from the specification: on this grammar the loop
    stops after its first pass although FOLLOW(X) has grown in it, and the
    sets it returns are not closed under the rule for [X -> Z]: 't' is in
    FOLLOW(X) and not in FOLLOW(Z). *)
Theorem follow_sets_not_closed :
  exists first_sets fs,
    compute_first_sets ascii_isupper late_start_grammar = Some first_sets
    /\ compute_follow_sets late_start_grammar first_sets (lit "S'") = Some fs
    /\ In (lit "X", [lit "Z"]) late_start_grammar
    /\ get_or fs (lit "X") [] = [lit "t"; lit "z"]
    /\ get_or fs (lit "Z") [] = []
    /\ snd (follow_pass (of_list (map fst late_start_grammar)) first_sets
              (group_productions late_start_grammar) [(lit "S'", [END_MARKER])]) = false.
Proof.
  eexists. eexists. split; [vm_compute; reflexivity|].
  split; [vm_compute; reflexivity|].
  split; [left; reflexivity|].
  repeat split; vm_compute; reflexivity.
Qed.

(* ===================================================================== *)
(** ** build_slr_parsing_table: the failures *)
(* ===================================================================== *)

Lemma for_each_raises {X S : Type} (P : exn -> Prop) (body : S -> X -> result S)
    (l : list X) :
  (forall s x e, body s x = Raise e -> P e) ->
  forall s e, for_each body l s = Raise e -> P e.
Proof.
  intros Hb. induction l as [|x l IH]; intros s e; cbn [for_each]; [discriminate|].
  destruct (body s x) as [s'|e'] eqn:E; cbn [bind].
  - apply IH.
  - intros [= <-]. eapply Hb; eassumption.
Qed.

Section TableFailures.

Variable isupper : str -> bool.
Variable grammar : Grammar.
Variable goto_table : GotoTable.
Variable follow_sets : FollowSets.

Lemma lookup_raises {K V} `{EqDec K} (d : dict K V) (k : K) (e : exn) :
  lookup d k = Raise e -> e = KeyError.
Proof. unfold lookup. destruct (get d k); [discriminate | intros [= <-]; reflexivity]. Qed.

Lemma table_item_raises (terminals : list Symbol) (prod_map : dict (Symbol * list Symbol) Z)
    (i : Z) (action_table : ActionTable) (item : Item) (e : exn) :
  table_item terminals prod_map goto_table follow_sets i action_table item = Raise e ->
  e = KeyError.
Proof.
  unfold table_item. destruct item as [[lhs rhs] dot_pos].
  destruct (nth_error rhs dot_pos) as [a|].
  - destruct (mem a terminals); [|discriminate].
    destruct (get goto_table (i, a)); discriminate.
  - destruct (eqb lhs (lit "S'")); [discriminate|].
    destruct (lookup prod_map (lhs, rhs)) as [n|e1] eqn:E1; cbn [bind].
    + destruct (lookup follow_sets lhs) as [f|e2] eqn:E2; cbn [bind]; [discriminate|].
      intros [= <-]. revert E2. apply lookup_raises.
    + intros [= <-]. revert E1. apply lookup_raises.
Qed.

Lemma table_state_raises (nonterminals terminals : list Symbol)
    (prod_map : dict (Symbol * list Symbol) Z) (st : Z * ActionTable * GotoTable)
    (item_set : list Item) (e : exn) :
  table_state nonterminals terminals prod_map goto_table follow_sets st item_set = Raise e ->
  e = KeyError.
Proof.
  unfold table_state. destruct st as [[i action_table] goto_table_out].
  destruct (for_each _ item_set action_table) as [a|e'] eqn:E; cbn [bind]; [discriminate|].
  intros [= <-]. revert E. apply (for_each_raises (fun e => e = KeyError)).
  intros s x e0. apply table_item_raises.
Qed.

(** Without the key 'L' in the FOLLOW sets the builder ends in a KeyError:
    that of line 247 or an earlier one. *)
Lemma build_without_L (item_sets : list (list Item)) :
  get follow_sets (lit "L") = None ->
  build_slr_parsing_table isupper grammar item_sets goto_table follow_sets = Raise KeyError.
Proof.
  intros G. unfold build_slr_parsing_table.
  destruct (table_classify isupper grammar) as [nonterminals terminals].
  match goal with
  | |- context [for_each ?body item_sets ?s0] =>
    destruct (for_each body item_sets s0) as [st|e] eqn:E; cbn [bind]
  end.
  - unfold lookup. rewrite G. reflexivity.
  - f_equal. revert E. apply (for_each_raises (fun e => e = KeyError)).
    intros s x e0. apply table_state_raises.
Qed.

End TableFailures.

(** C3: on a grammar without a production of 'L', with the FOLLOW sets
    computed for the start symbol S' as the application does, the builder
    raises KeyError whatever the item sets and transitions are. *)
Theorem build_raises_without_L (isupper : str -> bool) (grammar : Grammar)
    (first_sets : FirstSets) (item_sets : list (list Item)) (goto_table : GotoTable) :
  ~ In (lit "L") (map fst grammar) ->
  exists follow_sets,
    compute_follow_sets grammar first_sets (lit "S'") = Some follow_sets
    /\ build_slr_parsing_table isupper grammar item_sets goto_table follow_sets
       = Raise KeyError.
Proof.
  intros N.
  destruct (compute_follow_sets_returns grammar first_sets (lit "S'")) as [fs [E [I _]]].
  exists fs. split; [exact E|]. apply build_without_L.
  apply get_None_keys. intros H. apply I in H. destruct H as [H|H].
  - discriminate H.
  - contradiction.
Qed.

(** A grammar in which the list is called [M]. *)
Definition renamed_grammar : Grammar :=
  [(lit "S'", [lit "S"]); (lit "S", [lit "M"; lit "="; lit "R"]); (lit "S", [lit "R"]);
   (lit "M", [lit "*"; lit "R"]); (lit "M", [lit "id"]); (lit "R", [lit "M"])].

Lemma build_raises_without_L_witness :
  ~ In (lit "L") (map fst renamed_grammar)
  /\ exists follow_sets,
       compute_follow_sets renamed_grammar [] (lit "S'") = Some follow_sets
       /\ build_slr_parsing_table ascii_isupper renamed_grammar [] [] follow_sets
          = Raise KeyError.
Proof.
  assert (N : ~ In (lit "L") (map fst renamed_grammar)).
  { apply mem_false. vm_compute. reflexivity. }
  split; [exact N|].
  apply (build_raises_without_L ascii_isupper renamed_grammar [] [] [] N).
Defined.

(* ===================================================================== *)
(** ** build_slr_parsing_table: what a cell of ACTION holds *)
(* ===================================================================== *)

(** The text a reduce action leaves in a cell that held [old]. *)
Definition reduce_text (old : option str) (prod_num : Z) : str :=
  match old with
  | Some v => v ++ lit "/reduce " ++ str_of_int prod_num
  | None => lit "reduce " ++ str_of_int prod_num
  end.

Section TableCells.

Variable terminals : list Symbol.
Variable prod_map : dict (Symbol * list Symbol) Z.
Variable goto_table : GotoTable.
Variable follow_sets : FollowSets.

(** The FOLLOW sets are sets. *)
Hypothesis follow_sets_NoDup : forall lhs F, get follow_sets lhs = Some F -> NoDup F.

(** What one item of state [i] does to the cell [(i, b)] that held [old]: a
    shift or the accept replaces it, a reduce is written into an empty cell
    and appended to a full one. *)
Definition cell_after_item (i : Z) (b : Symbol) (old : option str) (item : Item)
    : option str :=
  let '(lhs, rhs, dot_pos) := item in
  match nth_error rhs dot_pos with
  | Some a =>
    if mem a terminals then
      match get goto_table (i, a) with
      | Some j => if eqb b a then Some (lit "shift " ++ str_of_int j) else old
      | None => old
      end
    else old
  | None =>
    if eqb lhs (lit "S'") then
      if eqb b END_MARKER then Some (lit "accept") else old
    else
      match get prod_map (lhs, rhs), get follow_sets lhs with
      | Some n, Some F => if mem b F then Some (reduce_text old n) else old
      | _, _ => old
      end
  end.

(** The items the loop body does not fail on. *)
Definition item_ok (item : Item) : bool :=
  let '(lhs, rhs, dot_pos) := item in
  match nth_error rhs dot_pos with
  | Some _ => true
  | None => eqb lhs (lit "S'") || (has prod_map (lhs, rhs) && has follow_sets lhs)
  end.

Lemma cell_key_eqb (j i : Z) (b a : Symbol) :
  eqb (j, b) (i, a) = eqb j i && eqb b a.
Proof. reflexivity. Qed.

Lemma write_reduce_get (i n : Z) (action_table : ActionTable) (a : Symbol)
    (j : Z) (b : Symbol) :
  get (write_reduce i n action_table a) (j, b) =
  if eqb j i && eqb b a then Some (reduce_text (get action_table (i, a)) n)
  else get action_table (j, b).
Proof.
  unfold write_reduce, reduce_text.
  destruct (get action_table (i, a)); rewrite get_set, cell_key_eqb; reflexivity.
Qed.

Lemma reduce_fold_get (i n : Z) (F : list Symbol) (j : Z) (b : Symbol) :
  NoDup F ->
  forall action_table,
    get (fold_left (write_reduce i n) F action_table) (j, b) =
    if eqb j i && mem b F then Some (reduce_text (get action_table (j, b)) n)
    else get action_table (j, b).
Proof.
  intros N. induction N as [|a F Na N IH]; intros action_table; cbn [fold_left mem].
  - rewrite andb_false_r. reflexivity.
  - rewrite IH, !write_reduce_get.
    destruct (eqb j i) eqn:Ej; cbn [andb]; [|reflexivity].
    apply eqb_eq in Ej; subst j.
    destruct (eqb b a) eqn:Eb; cbn [orb].
    + apply eqb_eq in Eb; subst b. apply mem_false in Na. rewrite Na. reflexivity.
    + reflexivity.
Qed.

Lemma table_item_get (i : Z) (action_table action_table' : ActionTable) (item : Item)
    (j : Z) (b : Symbol) :
  table_item terminals prod_map goto_table follow_sets i action_table item
    = Ok action_table' ->
  get action_table' (j, b) =
  if eqb j i then cell_after_item i b (get action_table (j, b)) item
  else get action_table (j, b).
Proof.
  unfold table_item, cell_after_item. destruct item as [[lhs rhs] dot_pos].
  destruct (nth_error rhs dot_pos) as [a|].
  - destruct (mem a terminals).
    + destruct (get goto_table (i, a)) as [s|]; intros [= <-].
      * rewrite get_set, cell_key_eqb. destruct (eqb j i); [|reflexivity].
        cbn [andb]. destruct (eqb b a); reflexivity.
      * destruct (eqb j i); reflexivity.
    + intros [= <-]. destruct (eqb j i); reflexivity.
  - destruct (eqb lhs (lit "S'")).
    + intros [= <-]. rewrite get_set, cell_key_eqb. destruct (eqb j i); [|reflexivity].
      cbn [andb]. destruct (eqb b END_MARKER); reflexivity.
    + unfold lookup. destruct (get prod_map (lhs, rhs)) as [n|]; cbn [bind].
      * destruct (get follow_sets lhs) as [F|] eqn:GF; cbn [bind]; [|discriminate].
        intros [= <-]. rewrite (@reduce_fold_get i n F j b (follow_sets_NoDup lhs GF)).
        destruct (eqb j i); reflexivity.
      * discriminate.
Qed.

Lemma table_item_ok (i : Z) (action_table : ActionTable) (item : Item) :
  item_ok item = true ->
  exists action_table',
    table_item terminals prod_map goto_table follow_sets i action_table item
    = Ok action_table'.
Proof.
  unfold table_item, item_ok, has, lookup. destruct item as [[lhs rhs] dot_pos].
  destruct (nth_error rhs dot_pos) as [a|].
  - intros _. destruct (mem a terminals); [|eexists; reflexivity].
    destruct (get goto_table (i, a)); eexists; reflexivity.
  - destruct (eqb lhs (lit "S'")); cbn [orb]; [intros _; eexists; reflexivity|].
    destruct (get prod_map (lhs, rhs)); cbn [andb]; [|discriminate].
    destruct (get follow_sets lhs); [|discriminate].
    intros _. eexists. reflexivity.
Qed.

Lemma state_items_get (i : Z) (items : list Item) (j : Z) (b : Symbol) :
  forall action_table action_table',
    for_each (table_item terminals prod_map goto_table follow_sets i) items action_table
      = Ok action_table' ->
    get action_table' (j, b) =
    if eqb j i then fold_left (cell_after_item i b) items (get action_table (j, b))
    else get action_table (j, b).
Proof.
  induction items as [|item items IH]; intros action_table action_table';
    cbn [for_each fold_left].
  - intros [= <-]. destruct (eqb j i); reflexivity.
  - destruct (table_item _ _ _ _ i action_table item) as [mid|e] eqn:E; cbn [bind];
      [|discriminate].
    intros E'. rewrite (IH _ _ E'), (@table_item_get i action_table mid item j b E).
    destruct (eqb j i); reflexivity.
Qed.

Lemma state_items_ok (i : Z) (items : list Item) :
  forallb item_ok items = true ->
  forall action_table,
    exists action_table',
      for_each (table_item terminals prod_map goto_table follow_sets i) items action_table
      = Ok action_table'.
Proof.
  induction items as [|item items IH]; intros F action_table; cbn [for_each].
  - eexists. reflexivity.
  - cbn [forallb] in F. apply andb_true_iff in F as [F1 F2].
    destruct (@table_item_ok i action_table item F1) as [mid ->]. cbn [bind].
    apply IH. assumption.
Qed.

Variable nonterminals : list Symbol.

(** The GOTO table after the states [i0, i0+1, ...] of [n] item sets. *)
Fixpoint gotos_from (i0 : Z) (n : nat) (goto_table_out : GotoTable) : GotoTable :=
  match n with
  | O => goto_table_out
  | S n' => gotos_from (Z.succ i0) n' (table_gotos nonterminals goto_table i0 goto_table_out)
  end.

Let states := table_state nonterminals terminals prod_map goto_table follow_sets.

Lemma states_before (item_sets : list (list Item)) (j : Z) (b : Symbol) :
  forall i0 action_table go st,
    for_each states item_sets (i0, action_table, go) = Ok st ->
    (j < i0)%Z ->
    get (snd (fst st)) (j, b) = get action_table (j, b).
Proof.
  induction item_sets as [|items rest IH]; intros i0 action_table go st;
    cbn [for_each].
  - intros [= <-] _. reflexivity.
  - unfold states at 1. unfold table_state at 1.
    destruct (for_each _ items action_table) as [mid|e] eqn:E; cbn [bind]; [|discriminate].
    intros E' L. rewrite (IH _ _ _ _ E') by lia.
    rewrite (@state_items_get i0 items j b action_table mid E).
    destruct (eqb j i0) eqn:Ej; [|reflexivity]. apply Z.eqb_eq in Ej. lia.
Qed.

(** The cell [(i0 + k, b)] is written by the items of the [k]-th set only,
    one after the other, and the GOTO part does not depend on the items. *)
Lemma states_get (item_sets : list (list Item)) (b : Symbol) :
  forall i0 action_table go st,
    for_each states item_sets (i0, action_table, go) = Ok st ->
    snd st = gotos_from i0 (length item_sets) go
    /\ forall k items,
         nth_error item_sets k = Some items ->
         get (snd (fst st)) (i0 + Z.of_nat k, b)%Z =
         fold_left (cell_after_item (i0 + Z.of_nat k) b) items
                   (get action_table (i0 + Z.of_nat k, b)%Z).
Proof.
  induction item_sets as [|items0 rest IH]; intros i0 action_table go st;
    cbn [for_each].
  - intros [= <-]. split; [reflexivity|]. intros [|k] items; discriminate.
  - unfold states at 1. unfold table_state at 1.
    destruct (for_each _ items0 action_table) as [mid|e] eqn:E; cbn [bind]; [|discriminate].
    intros E'. destruct (IH _ _ _ _ E') as [G C]. split; [exact G|].
    intros [|k] items; cbn [nth_error].
    + intros [= <-]. rewrite Z.add_0_r.
      rewrite (@states_before rest i0 b _ _ _ _ E') by lia.
      rewrite (@state_items_get i0 items0 i0 b action_table mid E), eqb_refl. reflexivity.
    + intros Hk. replace (i0 + Z.of_nat (S k))%Z with (Z.succ i0 + Z.of_nat k)%Z by lia.
      rewrite (C k items Hk). f_equal.
      rewrite (@state_items_get i0 items0 _ b action_table mid E).
      destruct (eqb (Z.succ i0 + Z.of_nat k)%Z i0) eqn:Ej; [|reflexivity].
      apply Z.eqb_eq in Ej. lia.
Qed.

Lemma states_ok (item_sets : list (list Item)) :
  Forall (fun items => forallb item_ok items = true) item_sets ->
  forall i0 action_table go,
    exists st, for_each states item_sets (i0, action_table, go) = Ok st.
Proof.
  induction 1 as [|items rest F _ IH]; intros i0 action_table go; cbn [for_each].
  - eexists. reflexivity.
  - unfold states at 1. unfold table_state at 1.
    destruct (@state_items_ok i0 items F action_table) as [mid ->]. cbn [bind].
    apply IH.
Qed.

End TableCells.

Section BuildFacts.

Variable isupper : str -> bool.
Variable grammar : Grammar.
Variable goto_table : GotoTable.
Variable follow_sets : FollowSets.
Hypothesis follow_sets_NoDup : forall lhs F, get follow_sets lhs = Some F -> NoDup F.

Let nonterminals := fst (table_classify isupper grammar).
Let terminals := snd (table_classify isupper grammar).
Let prod_map := number_productions grammar.

(** What the builder returns: each cell of a state is the work of the items
    of that state, one after the other. *)
Lemma build_cells (item_sets : list (list Item)) (action_table : ActionTable)
    (goto_table_out : GotoTable) :
  build_slr_parsing_table isupper grammar item_sets goto_table follow_sets
    = Ok (action_table, goto_table_out) ->
  goto_table_out = gotos_from goto_table nonterminals 0 (length item_sets) []
  /\ forall k items b,
       nth_error item_sets k = Some items ->
       get action_table (Z.of_nat k, b) =
       fold_left (cell_after_item terminals prod_map goto_table follow_sets (Z.of_nat k) b)
                 items None.
Proof.
  unfold build_slr_parsing_table. fold prod_map.
  unfold nonterminals, terminals.
  destruct (table_classify isupper grammar) as [nts ts]. cbn [fst snd].
  match goal with
  | |- context [for_each ?body item_sets ?s0] =>
    destruct (for_each body item_sets s0) as [st|e] eqn:E; cbn [bind]; [|discriminate]
  end.
  destruct (lookup follow_sets (lit "L")); cbn [bind]; [|discriminate].
  intros [= <- <-]. split.
  - apply (@states_get ts prod_map goto_table follow_sets follow_sets_NoDup nts
             item_sets [] 0%Z [] [] st E).
  - intros k items b Hk.
    destruct (@states_get ts prod_map goto_table follow_sets follow_sets_NoDup nts
                item_sets b 0%Z [] [] st E) as [_ C].
    specialize (C k items Hk). rewrite Z.add_0_l in C. exact C.
Qed.

Lemma build_returns (item_sets : list (list Item)) :
  Forall (fun items => forallb (item_ok prod_map follow_sets) items = true) item_sets ->
  get follow_sets (lit "L") <> None ->
  exists action_table goto_table_out,
    build_slr_parsing_table isupper grammar item_sets goto_table follow_sets
    = Ok (action_table, goto_table_out).
Proof.
  intros F L. unfold build_slr_parsing_table. fold prod_map.
  destruct (table_classify isupper grammar) as [nts ts].
  destruct (@states_ok ts prod_map goto_table follow_sets nts item_sets F 0%Z [] [])
    as [st E].
  match goal with
  | |- context [for_each ?body item_sets ?s0] =>
    destruct (for_each body item_sets s0) as [st'|e] eqn:E0; cbn [bind];
      [|exfalso; pose proof (eq_trans (eq_sym E) E0) as X; discriminate X]
  end.
  unfold lookup.
  destruct (get follow_sets (lit "L")); [|contradiction]. cbn [bind].
  eexists. eexists. reflexivity.
Qed.

End BuildFacts.

(* ===================================================================== *)
(** ** Every order in which a set can be met *)
(* ===================================================================== *)

Fixpoint insert_everywhere {A} (x : A) (l : list A) : list (list A) :=
  match l with
  | [] => [[x]]
  | y :: r => (x :: l) :: map (cons y) (insert_everywhere x r)
  end.

Fixpoint all_orders {A} (l : list A) : list (list A) :=
  match l with
  | [] => [[]]
  | x :: r => flat_map (insert_everywhere x) (all_orders r)
  end.

Lemma insert_everywhere_In {A} (x : A) (p1 p2 : list A) :
  In (p1 ++ x :: p2) (insert_everywhere x (p1 ++ p2)).
Proof.
  induction p1 as [|y p1 IH]; cbn [app insert_everywhere].
  - destruct p2; left; reflexivity.
  - right. apply in_map. exact IH.
Qed.

Lemma all_orders_complete {A} (l p : list A) : Permutation l p -> In p (all_orders l).
Proof.
  revert p. induction l as [|x r IH]; intros p P.
  - apply Permutation_nil in P. subst. left; reflexivity.
  - assert (I : In x p) by (eapply Permutation_in; [exact P | left; reflexivity]).
    apply in_split in I as [p1 [p2 ->]].
    apply Permutation_cons_app_inv in P.
    cbn [all_orders]. apply in_flat_map. exists (p1 ++ p2).
    split; [apply IH; exact P | apply insert_everywhere_In].
Qed.

Lemma for_all_orders {A} (f : list A -> bool) (l p : list A) :
  forallb f (all_orders l) = true -> Permutation l p -> f p = true.
Proof.
  intros F P. rewrite forallb_forall in F. apply F. apply all_orders_complete. exact P.
Qed.

Lemma Forall2_nth_error {A B} (R : A -> B -> Prop) (l : list A) (l' : list B) :
  Forall2 R l l' ->
  forall k x, nth_error l k = Some x -> exists y, nth_error l' k = Some y /\ R x y.
Proof.
  induction 1 as [|a b l l' Rab F IH]; intros [|k] x; cbn [nth_error]; try discriminate.
  - intros [= <-]. exists b. auto.
  - apply IH.
Qed.

(* ===================================================================== *)
(** ** The parse driver: its moves *)
(* ===================================================================== *)

Section DriverMoves.

Variable py_int : str -> option Z.
Variable grammar : Grammar.
Variable action_table : ActionTable.
Variable goto_table_out : GotoTable.
Variable input_tokens : list Symbol.

(** The row the driver appends before it acts. *)
Definition row (stack : list entry) (pointer : nat) (action : str) (conflict : bool)
    : Step :=
  {| Stack := join (lit " ") (map entry_str stack);
     Input := join (lit " ") (skipn pointer input_tokens);
     Action := action;
     Conflict := if conflict then lit "Yes" else [] |}.

Definition is_conflict (action : str) : bool :=
  contains (lit "shift") action && contains (lit "reduce") action.

Let run := drive py_int grammar action_table goto_table_out input_tokens.

Section Move.

Variables (budget : nat) (stack : list entry) (pointer : nat) (steps : list Step).
Variables (symbol : Symbol) (n : Z) (below : list entry) (action : str).
Hypothesis next_token : nth_error input_tokens pointer = Some symbol.
Hypothesis top_state : rev stack = State n :: below.
Hypothesis entry_found : get_or action_table (n, symbol) [] = action.

Lemma drive_conflict :
  is_conflict action = true ->
  run (S budget) stack pointer steps = Ok (steps ++ [row stack pointer action true]).
Proof.
  unfold is_conflict, run. intros C. cbn [drive].
  rewrite next_token, top_state, entry_found, C. reflexivity.
Qed.

Lemma drive_shift (next_state : Z) :
  is_conflict action = false ->
  startswith action (lit "shift") = true ->
  action_argument py_int action = Ok next_state ->
  run (S budget) stack pointer steps =
  run budget (stack ++ [Sym symbol; State next_state]) (S pointer)
      (steps ++ [row stack pointer action false]).
Proof.
  unfold is_conflict, run. intros C Sh A. cbn [drive].
  rewrite next_token, top_state, entry_found, C, Sh, A. reflexivity.
Qed.

Lemma drive_reduce (prod_num : Z) (lhs : Symbol) (rhs : list Symbol)
    (stack' below' : list entry) (n' goto_state : Z) :
  is_conflict action = false ->
  startswith action (lit "shift") = false ->
  startswith action (lit "reduce") = true ->
  action_argument py_int action = Ok prod_num ->
  index grammar prod_num = Ok (lhs, rhs) ->
  (if eqb rhs [EPSILON] then Ok stack else pop_n (2 * length rhs) stack) = Ok stack' ->
  rev stack' = State n' :: below' ->
  get goto_table_out (n', lhs) = Some goto_state ->
  run (S budget) stack pointer steps =
  run budget ((stack' ++ [Sym lhs]) ++ [State goto_state]) pointer
      (steps ++ [row stack pointer action false]).
Proof.
  unfold is_conflict, run. intros C Sh Re A I P T G. cbn [drive].
  rewrite next_token, top_state, entry_found, C, Sh, Re, A. cbn [bind].
  rewrite I. cbn [bind]. rewrite P. cbn [bind]. rewrite T, G. reflexivity.
Qed.

Lemma drive_accept :
  is_conflict action = false ->
  startswith action (lit "shift") = false ->
  startswith action (lit "reduce") = false ->
  eqb action (lit "accept") = true ->
  run (S budget) stack pointer steps =
  Ok (clear_conflict (steps ++ [row stack pointer action false])).
Proof.
  unfold is_conflict, run. intros C Sh Re Ac. cbn [drive].
  rewrite next_token, top_state, entry_found, C, Sh, Re, Ac. reflexivity.
Qed.

Lemma drive_error :
  is_conflict action = false ->
  startswith action (lit "shift") = false ->
  startswith action (lit "reduce") = false ->
  eqb action (lit "accept") = false ->
  run (S budget) stack pointer steps =
  Ok (amend_action (steps ++ [row stack pointer action false]) (lit " (Error)")).
Proof.
  unfold is_conflict, run. intros C Sh Re Ac. cbn [drive].
  rewrite next_token, top_state, entry_found, C, Sh, Re, Ac. reflexivity.
Qed.

End Move.

End DriverMoves.

(* ===================================================================== *)
(** ** The application: the fixed grammar and input *)
(* ===================================================================== *)

Definition fixed_tokens : list Symbol := map lit ["id"; "="; "id"; "*"; "id"; "$"]%string.

Definition fixed_first : FirstSets :=
  [(lit "S'", [lit "*"; lit "id"]); (lit "S", [lit "*"; lit "id"]);
   (lit "L", [lit "*"; lit "id"]); (lit "R", [lit "*"; lit "id"])].

Definition fixed_follow : FollowSets :=
  [(lit "S'", [lit "$"]); (lit "S", [lit "$"]);
   (lit "L", [lit "="; lit "$"]); (lit "R", [lit "$"; lit "="])].

(** The item of the [k]-th production of the fixed grammar with the dot at
    [dot_pos]. *)
Definition fixed_item (k dot_pos : nat) : Item :=
  match nth_error fixed_grammar k with
  | Some (lhs, rhs) => (lhs, rhs, dot_pos)
  | None => ([], [], 0)
  end.

(** The ten states, with their items in the order the model computes them:
    I0; I1 = goto(I0, '*'); I2 = goto(I0, L) = {S -> L . = R, R -> L .};
    I3 = goto(I0, R); I4 = goto(I0, S); I5 = goto(I0, id); I6 = goto(I1, L);
    I7 = goto(I1, R); I8 = goto(I2, =); I9 = goto(I8, R). *)
Definition fixed_item_sets : list (list Item) :=
  [ [fixed_item 0 0; fixed_item 1 0; fixed_item 2 0; fixed_item 3 0; fixed_item 4 0;
     fixed_item 5 0];
    [fixed_item 3 1; fixed_item 5 0; fixed_item 3 0; fixed_item 4 0];
    [fixed_item 1 1; fixed_item 5 1];
    [fixed_item 2 1];
    [fixed_item 0 1];
    [fixed_item 4 1];
    [fixed_item 5 1];
    [fixed_item 3 2];
    [fixed_item 1 2; fixed_item 5 0; fixed_item 3 0; fixed_item 4 0];
    [fixed_item 1 3] ].

Definition fixed_goto : GotoTable :=
  [((0, lit "*"), 1); ((0, lit "L"), 2); ((0, lit "R"), 3); ((0, lit "S"), 4);
   ((0, lit "id"), 5); ((1, lit "*"), 1); ((1, lit "L"), 6); ((1, lit "R"), 7);
   ((1, lit "id"), 5); ((2, lit "="), 8); ((8, lit "*"), 1); ((8, lit "L"), 6);
   ((8, lit "R"), 9); ((8, lit "id"), 5)]%Z.

(** Lines 30-35 of the application; the worklist loop is given 100 rounds,
    which it does not use up. *)
Definition app_analysis
    : option (result (Grammar * FirstSets * FollowSets * list (list Item) * GotoTable)) :=
  match parse_grammar fixed_grammar_text with
  | Raise e => Some (Raise e)
  | Ok grammar =>
    match compute_first_sets ascii_isupper grammar with
    | None => None
    | Some first_sets =>
      match compute_follow_sets grammar first_sets (lit "S'") with
      | None => None
      | Some follow_sets =>
        match construct_lr0_item_sets 100 grammar with
        | None => None
        | Some (Raise e) => Some (Raise e)
        | Some (Ok (item_sets, goto_table)) =>
          Some (Ok (grammar, first_sets, follow_sets, item_sets, goto_table))
        end
      end
    end
  end.

Lemma app_analysis_value :
  app_analysis
  = Some (Ok (fixed_grammar, fixed_first, fixed_follow, fixed_item_sets, fixed_goto)).
Proof. vm_compute. reflexivity. Qed.

(** Lines 48 and 151-193: the table and the run of the driver, where [order]
    gives the items of each state in the order in which [for item in
    item_set] meets them. *)
Definition app_parse (order : list (list Item)) : result (list Step) :=
  tables <- build_slr_parsing_table ascii_isupper fixed_grammar order fixed_goto
              fixed_follow ;;
  run_parse dec_int fixed_grammar (fst tables) (snd tables) fixed_tokens.

(** The action of the last row of a trace. *)
Definition final_action (steps : list Step) : option str :=
  match rev steps with
  | [] => None
  | s :: _ => Some (Action s)
  end.

Definition accepted (steps : list Step) : Prop := final_action steps = Some (lit "accept").

Definition trace_row (stack input action conflict : string) : Step :=
  {| Stack := lit stack; Input := lit input; Action := lit action;
     Conflict := lit conflict |}.

(** The run that stops on the conflict of state 2. *)
Definition conflict_trace : list Step :=
  [trace_row "0" "id = id * id $" "shift 5" "";
   trace_row "0 id 5" "= id * id $" "reduce 4" "";
   trace_row "0 L 2" "= id * id $" "shift 8/reduce 5" "Yes"].

(** The run in which state 2 shifts, and which stops on the missing entry
    for '*' in state 5. *)
Definition error_trace : list Step :=
  [trace_row "0" "id = id * id $" "shift 5" "";
   trace_row "0 id 5" "= id * id $" "reduce 4" "";
   trace_row "0 L 2" "= id * id $" "shift 8" "";
   trace_row "0 L 2 = 8" "id * id $" "shift 5" "";
   trace_row "0 L 2 = 8 id 5" "* id $" " (Error)" ""].

(** The states as the model computes them, but with the items of state 2 met
    in the other order: [R -> L .] before [S -> L . = R]. *)
Definition reduce_first_order : list (list Item) :=
  [ [fixed_item 0 0; fixed_item 1 0; fixed_item 2 0; fixed_item 3 0; fixed_item 4 0;
     fixed_item 5 0];
    [fixed_item 3 1; fixed_item 5 0; fixed_item 3 0; fixed_item 4 0];
    [fixed_item 5 1; fixed_item 1 1];
    [fixed_item 2 1];
    [fixed_item 0 1];
    [fixed_item 4 1];
    [fixed_item 5 1];
    [fixed_item 3 2];
    [fixed_item 1 2; fixed_item 5 0; fixed_item 3 0; fixed_item 4 0];
    [fixed_item 1 3] ].

Lemma app_parse_shift_first : app_parse fixed_item_sets = Ok conflict_trace.
Proof. vm_compute. reflexivity. Qed.

Lemma app_parse_reduce_first : app_parse reduce_first_order = Ok error_trace.
Proof. vm_compute. reflexivity. Qed.

(** C2, where the code departs from the specification: in state 2 of the fixed
    grammar both the shift to state 8 and the reduce by production 5 are
    derivable on '='.  When the reduce item is met first, the shift of line
    227 overwrites it and the cell is the plain 'shift 8'; only when the
    shift item is met first does the cell keep both. *)
Theorem shift_overwrites_reduce :
  (exists action_table goto_table_out,
     build_slr_parsing_table ascii_isupper fixed_grammar reduce_first_order
       fixed_goto fixed_follow = Ok (action_table, goto_table_out)
     /\ nth_error reduce_first_order 2
        = Some [(lit "R", [lit "L"], 1); (lit "S", [lit "L"; lit "="; lit "R"], 1)]
     /\ get action_table (2%Z, lit "=") = Some (lit "shift 8"))
  /\ (exists action_table goto_table_out,
        build_slr_parsing_table ascii_isupper fixed_grammar fixed_item_sets
          fixed_goto fixed_follow = Ok (action_table, goto_table_out)
        /\ get action_table (2%Z, lit "=") = Some (lit "shift 8/reduce 5")).
Proof.
  split.
  - eexists. eexists. split; [vm_compute; reflexivity|].
    split; vm_compute; reflexivity.
  - eexists. eexists. split; vm_compute; reflexivity.
Qed.

Fixpoint distinct {A} `{EqDec A} (l : list A) : bool :=
  match l with
  | [] => true
  | x :: r => negb (mem x r) && distinct r
  end.

Lemma distinct_NoDup {A} `{EqDec A} (l : list A) : distinct l = true -> NoDup l.
Proof.
  induction l as [|x r IH]; cbn [distinct]; intros D; constructor;
    apply andb_true_iff in D as [D1 D2].
  - apply mem_false. apply negb_true_iff. assumption.
  - apply IH. assumption.
Qed.

Lemma sets_NoDup (d : dict Symbol (list Symbol)) :
  forallb (fun e => distinct (snd e)) d = true ->
  forall lhs F, get d lhs = Some F -> NoDup F.
Proof.
  intros D lhs F G. apply get_Some_In in G. rewrite forallb_forall in D.
  apply distinct_NoDup. apply (D _ G).
Qed.

Lemma fixed_follow_NoDup (lhs : Symbol) (F : list Symbol) :
  get fixed_follow lhs = Some F -> NoDup F.
Proof. apply sets_NoDup. vm_compute. reflexivity. Qed.

Definition same_cell (c1 c2 : option str) : bool :=
  match c1, c2 with
  | Some a, Some b => eqb a b
  | None, None => true
  | _, _ => false
  end.

Lemma same_cell_eq (c1 c2 : option str) : same_cell c1 c2 = true -> c1 = c2.
Proof.
  destruct c1, c2; cbn [same_cell]; try discriminate; [|reflexivity].
  intros E. apply eqb_eq in E. congruence.
Qed.

(** The cell [(i, b)] of the fixed grammar when the items of state [i] are
    met in the order [items]. *)
Definition fixed_cell (i : Z) (b : Symbol) (items : list Item) : option str :=
  fold_left
    (cell_after_item (snd (table_classify ascii_isupper fixed_grammar))
       (number_productions fixed_grammar) fixed_goto fixed_follow i b)
    items None.

(** The cells the run on [id = id * id $] reads, whatever the order of the
    items: only the cell of state 2 on '=' depends on it. *)
Lemma fixed_tables (order : list (list Item)) (action_table : ActionTable)
    (goto_table_out : GotoTable) :
  Forall2 (@Permutation Item) fixed_item_sets order ->
  build_slr_parsing_table ascii_isupper fixed_grammar order fixed_goto fixed_follow
    = Ok (action_table, goto_table_out) ->
  get goto_table_out (0%Z, lit "L") = Some 2%Z
  /\ get action_table (0%Z, lit "id") = Some (lit "shift 5")
  /\ get action_table (5%Z, lit "=") = Some (lit "reduce 4")
  /\ (get action_table (2%Z, lit "=") = Some (lit "shift 8/reduce 5")
      \/ get action_table (2%Z, lit "=") = Some (lit "shift 8"))
  /\ get action_table (8%Z, lit "id") = Some (lit "shift 5")
  /\ get action_table (5%Z, lit "*") = None.
Proof.
  intros P B.
  destruct (@build_cells ascii_isupper fixed_grammar fixed_goto fixed_follow
              fixed_follow_NoDup order action_table goto_table_out B) as [G C].
  assert (cell : forall k b items0 (test : option str -> bool),
             nth_error fixed_item_sets k = Some items0 ->
             forallb (fun p => test (fixed_cell (Z.of_nat k) b p)) (all_orders items0) = true ->
             test (get action_table (Z.of_nat k, b)) = true).
  { intros k b items0 test Hk T.
    destruct (Forall2_nth_error P k Hk) as [items [Hk' Pk]].
    rewrite (C k items b Hk').
    apply (for_all_orders (fun p => test (fixed_cell (Z.of_nat k) b p)) T Pk). }
  split; [|split; [|split; [|split; [|split]]]].
  - rewrite G. rewrite <- (Forall2_length P). vm_compute. reflexivity.
  - apply same_cell_eq.
    apply (cell 0 (lit "id") _ (fun c => same_cell c (Some (lit "shift 5"))) eq_refl).
    vm_compute. reflexivity.
  - apply same_cell_eq.
    apply (cell 5 (lit "=") _ (fun c => same_cell c (Some (lit "reduce 4"))) eq_refl).
    vm_compute. reflexivity.
  - assert (T : same_cell (get action_table (Z.of_nat 2, lit "="))
                  (Some (lit "shift 8/reduce 5"))
                || same_cell (get action_table (Z.of_nat 2, lit "="))
                     (Some (lit "shift 8")) = true).
    { apply (cell 2 (lit "=") _
               (fun c => same_cell c (Some (lit "shift 8/reduce 5"))
                         || same_cell c (Some (lit "shift 8"))) eq_refl).
      vm_compute. reflexivity. }
    apply orb_true_iff in T as [T|T]; apply same_cell_eq in T; [left | right]; exact T.
  - apply same_cell_eq.
    apply (cell 8 (lit "id") _ (fun c => same_cell c (Some (lit "shift 5"))) eq_refl).
    vm_compute. reflexivity.
  - apply same_cell_eq.
    apply (cell 5 (lit "*") _ (fun c => same_cell c None) eq_refl).
    vm_compute. reflexivity.
Qed.

Lemma fixed_order_ok (order : list (list Item)) :
  Forall2 (@Permutation Item) fixed_item_sets order ->
  Forall (fun items =>
            forallb (item_ok (number_productions fixed_grammar) fixed_follow) items = true)
         order.
Proof.
  assert (F : Forall (fun items =>
                        forallb (item_ok (number_productions fixed_grammar) fixed_follow)
                                items = true) fixed_item_sets).
  { apply Forall_forall. intros items Hi.
    assert (X : forallb (fun items =>
                           forallb (item_ok (number_productions fixed_grammar) fixed_follow)
                                   items) fixed_item_sets = true)
      by (vm_compute; reflexivity).
    rewrite forallb_forall in X. apply X. exact Hi. }
  intros P. induction P as [|a b l l' Pab P IH]; [constructor|].
  inversion F as [|? ? Fa Fl]; subst. constructor; [|apply IH; exact Fl].
  rewrite forallb_forall in *. intros x Hx. apply Fa.
  eapply Permutation_in; [apply Permutation_sym; exact Pab | exact Hx].
Qed.

(** Whatever the order in which the items of the states are met, the run on
    [id = id * id $] is one of the two traces above. *)
Lemma app_parse_outcomes (order : list (list Item)) :
  Forall2 (@Permutation Item) fixed_item_sets order ->
  app_parse order = Ok conflict_trace \/ app_parse order = Ok error_trace.
Proof.
  intros P.
  destruct (@build_returns ascii_isupper fixed_grammar fixed_goto fixed_follow order)
    as [action_table [goto_table_out B]].
  - apply fixed_order_ok. exact P.
  - vm_compute. discriminate.
  - destruct (fixed_tables P B) as [GL [C0 [C5 [C2 [C8 C5s]]]]].
    unfold app_parse. rewrite B. cbn [bind fst snd]. unfold run_parse, max_steps.
    assert (E0 : get_or action_table (0%Z, lit "id") [] = lit "shift 5")
      by (unfold get_or; rewrite C0; reflexivity).
    assert (E5 : get_or action_table (5%Z, lit "=") [] = lit "reduce 4")
      by (unfold get_or; rewrite C5; reflexivity).
    assert (E8 : get_or action_table (8%Z, lit "id") [] = lit "shift 5")
      by (unfold get_or; rewrite C8; reflexivity).
    assert (E5s : get_or action_table (5%Z, lit "*") [] = [])
      by (unfold get_or; rewrite C5s; reflexivity).
    rewrite (@drive_shift dec_int fixed_grammar action_table goto_table_out fixed_tokens
               _ [State 0%Z] 0 _ (lit "id") 0%Z [] (lit "shift 5")
               eq_refl eq_refl E0 5%Z eq_refl eq_refl eq_refl).
    cbn [app].
    rewrite (@drive_reduce dec_int fixed_grammar action_table goto_table_out fixed_tokens
               _ [State 0%Z; Sym (lit "id"); State 5%Z] 1 _ (lit "=") 5%Z
               [Sym (lit "id"); State 0%Z] (lit "reduce 4")
               eq_refl eq_refl E5 4%Z (lit "L") [lit "id"] [State 0%Z] [] 0%Z 2%Z
               eq_refl eq_refl eq_refl eq_refl eq_refl eq_refl eq_refl GL).
    cbn [app].
    destruct C2 as [C2|C2].
    + left.
      assert (E2 : get_or action_table (2%Z, lit "=") [] = lit "shift 8/reduce 5")
        by (unfold get_or; rewrite C2; reflexivity).
      rewrite (@drive_conflict dec_int fixed_grammar action_table goto_table_out
                 fixed_tokens _ [State 0%Z; Sym (lit "L"); State 2%Z] 1 _ (lit "=") 2%Z
                 [Sym (lit "L"); State 0%Z] (lit "shift 8/reduce 5")
                 eq_refl eq_refl E2 eq_refl).
      vm_compute. reflexivity.
    + right.
      assert (E2 : get_or action_table (2%Z, lit "=") [] = lit "shift 8")
        by (unfold get_or; rewrite C2; reflexivity).
      rewrite (@drive_shift dec_int fixed_grammar action_table goto_table_out fixed_tokens
                 _ [State 0%Z; Sym (lit "L"); State 2%Z] 1 _ (lit "=") 2%Z
                 [Sym (lit "L"); State 0%Z] (lit "shift 8")
                 eq_refl eq_refl E2 8%Z eq_refl eq_refl eq_refl).
      cbn [app].
      rewrite (@drive_shift dec_int fixed_grammar action_table goto_table_out fixed_tokens
                 _ [State 0%Z; Sym (lit "L"); State 2%Z; Sym (lit "="); State 8%Z] 2 _
                 (lit "id") 8%Z
                 [Sym (lit "="); State 2%Z; Sym (lit "L"); State 0%Z] (lit "shift 5")
                 eq_refl eq_refl E8 5%Z eq_refl eq_refl eq_refl).
      cbn [app].
      rewrite (@drive_error dec_int fixed_grammar action_table goto_table_out fixed_tokens
                 _ [State 0%Z; Sym (lit "L"); State 2%Z; Sym (lit "="); State 8%Z;
                    Sym (lit "id"); State 5%Z] 3 _
                 (lit "*") 5%Z
                 [Sym (lit "id"); State 8%Z; Sym (lit "="); State 2%Z; Sym (lit "L");
                  State 0%Z] []
                 eq_refl eq_refl E5s eq_refl eq_refl eq_refl eq_refl).
      vm_compute. reflexivity.
Qed.

Lemma traces_not_accepted : ~ accepted conflict_trace /\ ~ accepted error_trace.
Proof. split; intros A; vm_compute in A; discriminate A. Qed.

(** C1 (as the code has it): for the fixed grammar the pipeline gives the ten
    states above, and the run of the driver on [id = id * id $] never ends in
    an accept, whatever order the items of the states are met in: it is the
    run that stops at its third step on the cell 'shift 8/reduce 5' of state
    2 with the conflict flag set, or the run that stops at its fifth step on
    the missing entry for '*' in state 5. *)
Theorem fixed_run_never_accepts (order : list (list Item)) :
  Forall2 (@Permutation Item) fixed_item_sets order ->
  app_analysis
    = Some (Ok (fixed_grammar, fixed_first, fixed_follow, fixed_item_sets, fixed_goto))
  /\ exists steps,
       app_parse order = Ok steps
       /\ (steps = conflict_trace \/ steps = error_trace)
       /\ ~ accepted steps.
Proof.
  intros P. split; [exact app_analysis_value|].
  destruct traces_not_accepted as [N1 N2].
  destruct (app_parse_outcomes P) as [E|E].
  - exists conflict_trace. split; [exact E|]. split; [left; reflexivity | exact N1].
  - exists error_trace. split; [exact E|]. split; [right; reflexivity | exact N2].
Qed.

Lemma reduce_first_order_permuted :
  Forall2 (@Permutation Item) fixed_item_sets reduce_first_order.
Proof.
  unfold fixed_item_sets, reduce_first_order.
  repeat first [ apply Forall2_nil
               | apply Forall2_cons; [first [apply Permutation_refl | apply perm_swap]|] ].
Defined.

Lemma fixed_run_never_accepts_witness :
  Forall2 (@Permutation Item) fixed_item_sets reduce_first_order
  /\ app_analysis
     = Some (Ok (fixed_grammar, fixed_first, fixed_follow, fixed_item_sets, fixed_goto))
  /\ exists steps,
       app_parse reduce_first_order = Ok steps
       /\ (steps = conflict_trace \/ steps = error_trace)
       /\ ~ accepted steps.
Proof.
  split; [exact reduce_first_order_permuted|].
  apply (fixed_run_never_accepts reduce_first_order_permuted).
Defined.

(** C1, against the specification: there is no order of the items in which the run
    on [id = id * id $] ends in an accept. *)
Lemma fixed_run_not_accepted :
  ~ (exists order steps,
       Forall2 (@Permutation Item) fixed_item_sets order
       /\ app_parse order = Ok steps /\ accepted steps).
Proof.
  intros [order [steps [P [E A]]]].
  destruct traces_not_accepted as [N1 N2].
  destruct (app_parse_outcomes P) as [E'|E']; rewrite E' in E; inversion E; subst; auto.
Qed.

(* ===================================================================== *)
(** ** compute_first_sets: what the sets it returns hold *)
(* ===================================================================== *)

(** What a loop returns is the outcome of a pass that left the flag down,
    run on a state that every earlier pass has kept within [Inv]. *)
Lemma while_changed_last {S : Type} (pass : S -> S * bool) (Inv : S -> Prop) :
  (forall s, Inv s -> Inv (fst (pass s))) ->
  forall fuel s r, Inv s -> while_changed pass fuel s = Some r ->
    exists s0, Inv s0 /\ pass s0 = (r, false).
Proof.
  intros P. induction fuel as [|fuel IH]; intros s r I; cbn [while_changed];
    [discriminate|].
  pose proof (P s I) as I'. destruct (pass s) as [s' [|]] eqn:E; cbn [fst] in I'.
  - apply IH. assumption.
  - intros [= <-]. exists s. auto.
Qed.

Section KeysGrow.
Context {K V : Type} `{EqDec K}.

Lemma keys_set_incl (d : dict K V) (k : K) (v : V) : incl (keys d) (keys (set d k v)).
Proof.
  rewrite keys_set. destruct (has d k); [apply incl_refl | apply incl_appl, incl_refl].
Qed.

Lemma keys_set_In (d : dict K V) (k : K) (v : V) : In k (keys (set d k v)).
Proof.
  rewrite keys_set. destruct (has d k) eqn:E; [apply has_In_keys; exact E|].
  apply in_or_app. right. left. reflexivity.
Qed.

Lemma keys_touch_incl (def : V) (d : dict K V) (k : K) :
  incl (keys d) (keys (touch def d k)).
Proof.
  rewrite keys_touch. destruct (has d k); [apply incl_refl | apply incl_appl, incl_refl].
Qed.

Lemma keys_touch_In (def : V) (d : dict K V) (k : K) : In k (keys (touch def d k)).
Proof.
  rewrite keys_touch. destruct (has d k) eqn:E; [apply has_In_keys; exact E|].
  apply in_or_app. right. left. reflexivity.
Qed.

End KeysGrow.

(** [first_of] reads the sets through [get_or] only. *)
Lemma first_of_read (T : list Symbol) (d : FirstSets) (x : Symbol) :
  fst (first_of T d x) = if mem x T then [x] else get_or d x [].
Proof. unfold first_of. destruct (mem x T); reflexivity. Qed.

Lemma first_of_ext (T : list Symbol) (d d' : FirstSets) (x : Symbol) :
  (forall k, get_or d' k [] = get_or d k []) ->
  fst (first_of T d' x) = fst (first_of T d x).
Proof. intros E. rewrite !first_of_read, E. reflexivity. Qed.

Lemma first_of_nullable (T : list Symbol) (d : FirstSets) (x : Symbol) :
  In EPSILON (fst (first_of T d x)) <-> nullable_in T (fun k => get_or d k []) x.
Proof.
  rewrite first_of_read. unfold nullable_in. destruct (mem x T); [|tauto].
  simpl. split; [intros [E|[]]; congruence | intros ->; auto].
Qed.

Section FirstKeys.

Variable T : list Symbol.

Lemma scan_symbol_keys (lhs x : Symbol) (d : FirstSets) :
  incl (keys d) (keys (fst (scan_symbol T lhs d x))).
Proof.
  unfold scan_symbol, first_of. destruct (mem x T); cbn [fst].
  - apply keys_set_incl.
  - eapply incl_tran; [apply keys_touch_incl|].
    eapply incl_tran; [apply keys_set_incl | apply keys_touch_incl].
Qed.

Lemma scan_rhs_keys (lhs : Symbol) (rhs : list Symbol) :
  forall d, incl (keys d) (keys (scan_rhs T lhs rhs d)).
Proof.
  induction rhs as [|x rest IH]; intros d; cbn [scan_rhs].
  - apply keys_set_incl.
  - pose proof (scan_symbol_keys lhs x d) as I.
    destruct (scan_symbol T lhs d x) as [d1 go]. cbn [fst] in I.
    destruct go; cbn [negb]; [|exact I].
    eapply incl_tran; [exact I | apply IH].
Qed.

Lemma first_production_scan (lhs : Symbol) (st : FirstSets * bool) (rhs : list Symbol) :
  fst (first_production T lhs st rhs) = scan_rhs T lhs rhs (touch [] (fst st) lhs).
Proof. unfold first_production. destruct rhs; reflexivity. Qed.

Lemma first_production_keys (lhs : Symbol) (st : FirstSets * bool) (rhs : list Symbol) :
  incl (keys (fst st)) (keys (fst (first_production T lhs st rhs)))
  /\ In lhs (keys (fst (first_production T lhs st rhs))).
Proof.
  rewrite first_production_scan. split.
  - eapply incl_tran; [apply keys_touch_incl | apply scan_rhs_keys].
  - apply scan_rhs_keys. apply keys_touch_In.
Qed.

Lemma first_pass_keys (g : Grammar) (d : FirstSets) (p : Production) :
  In p g -> In (fst p) (keys (fst (first_pass T (group_productions g) d))).
Proof.
  intros I. unfold first_pass. rewrite (fold_nested (first_production T)).
  apply (proj2 (flatten_group_In g p)) in I.
  apply in_split in I as [l1 [l2 ->]].
  rewrite fold_left_app. cbn [fold_left].
  set (s1 := fold_left _ l1 (d, false)). clearbody s1.
  set (step := fun (st : FirstSets * bool) (q : Production) =>
                 first_production T (fst q) st (snd q)).
  assert (R : incl (keys (fst (step s1 p))) (keys (fst (fold_left step l2 (step s1 p))))).
  { refine (@fold_left_rel _ _ (fun s s' => incl (keys (fst s)) (keys (fst s'))) step
                             l2 _ _ _ (step s1 p)).
    - intros s. apply incl_refl.
    - intros a b c. apply incl_tran.
    - intros s q _. apply first_production_keys. }
  apply R. apply first_production_keys.
Qed.

End FirstKeys.

Section FirstMembers.

Variable isupper : str -> bool.
Variable g : Grammar.

Let T := first_terminals isupper g.
Let Ks := grammar_symbols g.
Let U := EPSILON :: first_terminals isupper g.

(** A pass keeps the keys among the symbols of the grammar and the members
    among 'ε' and the terminals. *)
Lemma first_pass_within (d : FirstSets) :
  bounded Ks U d -> bounded Ks U (fst (first_pass T (group_productions g) d)).
Proof.
  intros B. unfold first_pass. rewrite (fold_nested (first_production T)).
  set (step := fun (st : FirstSets * bool) (q : Production) =>
                 first_production T (fst q) st (snd q)).
  assert (R : rising Ks U (d, false)
                (fold_left step (flatten (group_productions g)) (d, false))).
  { apply fold_left_rel; [apply rising_refl | apply rising_trans|].
    intros s p Hp. apply (proj1 (flatten_group_In g p)) in Hp.
    destruct (production_in_bounds g p Hp) as [Hl Hr].
    apply (@first_production_spec T Ks U (or_introl eq_refl)
             (fun x Hx => or_intror Hx) (fst p) (snd p) s Hl Hr). }
  destruct R as [[_ Bd] _]. apply Bd. exact B.
Qed.

End FirstMembers.

(** X1: compute_first_sets returns on every grammar.  The dict it returns has
    a set for every left-hand side, its keys are symbols of the grammar, and
    a member of a set is 'ε' or a symbol that the scan of lines 38-43 has
    entered as a terminal. *)
Theorem first_sets_hold_terminals (isupper : str -> bool) (g : Grammar) :
  exists fs,
    compute_first_sets isupper g = Some fs
    /\ NoDup (keys fs)
    /\ (forall A, In A (map fst g) -> In A (keys fs))
    /\ (forall A, In A (keys fs) -> In A (grammar_symbols g))
    /\ forall A, NoDup (get_or fs A [])
         /\ forall x, In x (get_or fs A []) ->
              x = EPSILON \/ In x (first_terminals isupper g).
Proof.
  destruct (compute_first_sets_spec isupper g) as [fs [E _]].
  exists fs. split; [exact E|].
  unfold compute_first_sets, compute_first_sets_in in E.
  destruct (@while_changed_last FirstSets
              (first_pass (first_terminals isupper g) (group_productions g))
              (bounded (grammar_symbols g) (EPSILON :: first_terminals isupper g))
              (first_pass_within isupper g)
              (first_fuel g) [] fs) as [s0 [B P]].
  - repeat split; [constructor | apply incl_nil_l | constructor].
  - exact E.
  - pose proof (first_pass_within isupper g B) as Bf. rewrite P in Bf. cbn [fst] in Bf.
    destruct Bf as [N [I F]].
    split; [exact N|]. split; [|split; [exact I|]].
    + intros A HA. apply in_map_iff in HA as [p [<- Hp]].
      pose proof (first_pass_keys (first_terminals isupper g) g s0 p Hp) as Hk.
      rewrite P in Hk. exact Hk.
    + intros A.
      destruct (@bounded_get_or _ _ _ (grammar_symbols g)
                  (EPSILON :: first_terminals isupper g) fs A
                  (conj N (conj I F))) as [Nd In_].
      split; [exact Nd|]. intros x Hx. apply In_ in Hx. destruct Hx as [<- | Hx]; auto.
Qed.

(* ===================================================================== *)
(** ** compute_first_sets: the members are first symbols of derivations *)
(* ===================================================================== *)

Section FirstSound.

Variable T : list Symbol.
Variable g : Grammar.

(** [A] derives a string in which [a] comes after symbols that derive the
    empty string. *)
Definition begins (A a : Symbol) : Prop :=
  exists u w, derives g [A] (u ++ a :: w) /\ all_empty g u.

(** Every member of the sets [d] has a derivation behind it. *)
Definition justified (d : FirstSets) : Prop :=
  forall A a, In a (get_or d A []) ->
    (a = EPSILON -> derives_empty g A) /\ (a <> EPSILON -> begins A a).

Lemma begins_production (lhs : Symbol) (pre : list Symbol) (x : Symbol)
    (rest : list Symbol) :
  In (lhs, pre ++ x :: rest) g -> all_empty g pre -> begins lhs x.
Proof.
  intros I E. exists pre, rest. split; [|exact E].
  eapply d_step; [|apply d_refl].
  pose proof (@ds_rewrite g [] lhs [] (pre ++ x :: rest) I) as St.
  cbn [app] in St. rewrite app_nil_r in St. exact St.
Qed.

Lemma begins_through (lhs : Symbol) (pre : list Symbol) (x : Symbol)
    (rest : list Symbol) (a : Symbol) :
  In (lhs, pre ++ x :: rest) g -> all_empty g pre -> begins x a -> begins lhs a.
Proof.
  intros I E [u [w [D Eu]]]. exists (pre ++ u), (w ++ rest). split.
  - eapply d_step.
    + pose proof (@ds_rewrite g [] lhs [] (pre ++ x :: rest) I) as St.
      cbn [app] in St. rewrite app_nil_r in St. exact St.
    + replace ((pre ++ u) ++ a :: w ++ rest) with (pre ++ (u ++ a :: w) ++ rest)
        by (rewrite <- !app_assoc; reflexivity).
      apply derives_app_l.
      apply (@derives_app_r g rest [x] (u ++ a :: w) D).
  - apply all_empty_app. auto.
Qed.

Lemma scan_symbol_justified (lhs : Symbol) (pre : list Symbol) (x : Symbol)
    (rest : list Symbol) (d : FirstSets) :
  In (lhs, pre ++ x :: rest) g -> all_empty g pre -> justified d ->
  justified (fst (scan_symbol T lhs d x))
  /\ (snd (scan_symbol T lhs d x) = true -> all_empty g (pre ++ [x])).
Proof.
  intros I E J. unfold scan_symbol, first_of. destruct (mem x T) eqn:M; cbn [fst snd].
  - split.
    + intros A a. rewrite get_or_set. destruct (eqb A lhs) eqn:EA; [|apply J].
      apply eqb_eq in EA; subst A. rewrite update_In, discard_In.
      intros [Ha|[[<- |[]] Ne]]; [apply J; exact Ha|].
      split; [intros Eq; contradiction|]. intros _.
      eapply begins_production; eassumption.
    + cbn [mem]. rewrite orb_false_r. intros Eq. apply eqb_eq in Eq. subst x.
      apply all_empty_app. split; [exact E | apply ae_marker, ae_nil].
  - assert (J1 : forall A a,
               In a (get_or (set (touch [] d x) lhs
                               (update (get_or (touch [] d x) lhs [])
                                       (discard (get_or d x []) EPSILON))) A []) ->
               (a = EPSILON -> derives_empty g A) /\ (a <> EPSILON -> begins A a)).
    { intros A a. rewrite get_or_set. destruct (eqb A lhs) eqn:EA.
      - apply eqb_eq in EA; subst A. rewrite update_In, discard_In, get_or_touch.
        intros [Ha|[Ha Ne]]; [apply J; exact Ha|].
        split; [intros Eq; contradiction|]. intros _.
        eapply begins_through; [exact I | exact E|]. apply (J x a Ha). exact Ne.
      - rewrite get_or_touch. apply J. }
    split.
    + intros A a. rewrite get_or_touch. apply J1.
    + rewrite mem_In. intros Hx. apply J1 in Hx as [Hx _].
      apply all_empty_app. split; [exact E|].
      apply ae_symbol; [apply Hx; reflexivity | apply ae_nil].
Qed.

Lemma scan_rhs_justified (lhs : Symbol) (rest : list Symbol) :
  forall pre d,
    In (lhs, pre ++ rest) g -> all_empty g pre -> justified d ->
    justified (scan_rhs T lhs rest d).
Proof.
  induction rest as [|x rest IH]; intros pre d I E J; cbn [scan_rhs].
  - rewrite app_nil_r in I.
    intros A a. rewrite get_or_set. destruct (eqb A lhs) eqn:EA; [|apply J].
    apply eqb_eq in EA; subst A. rewrite add_In.
    intros [Ha| ->]; [apply J; exact Ha|].
    split; [|intros Ne; contradiction]. intros _.
    eapply de_production; eassumption.
  - destruct (@scan_symbol_justified lhs pre x rest d I E J) as [J1 G].
    destruct (scan_symbol T lhs d x) as [d1 go]. cbn [fst snd] in *.
    destruct go; cbn [negb]; [|exact J1].
    apply (IH (pre ++ [x]) d1).
    + rewrite <- app_assoc. exact I.
    + apply G. reflexivity.
    + exact J1.
Qed.

Lemma first_production_justified (lhs : Symbol) (rhs : list Symbol)
    (st : FirstSets * bool) :
  In (lhs, rhs) g -> justified (fst st) ->
  justified (fst (first_production T lhs st rhs)).
Proof.
  intros I J. rewrite first_production_scan.
  apply (@scan_rhs_justified lhs rhs [] (touch [] (fst st) lhs)).
  - exact I.
  - apply ae_nil.
  - intros A a. rewrite get_or_touch. apply J.
Qed.

Lemma first_pass_justified (d : FirstSets) :
  justified d -> justified (fst (first_pass T (group_productions g) d)).
Proof.
  unfold first_pass. rewrite (fold_nested (first_production T)).
  refine (@fold_left_rel _ _ (fun s s' => justified (fst s) -> justified (fst s'))
            (fun st p => first_production T (fst p) st (snd p))
            (flatten (group_productions g)) _ _ _ (d, false)); [auto | auto |].
  intros s p Hp. apply (proj1 (flatten_group_In g p)) in Hp.
  apply first_production_justified. destruct p; exact Hp.
Qed.

End FirstSound.

(** X2: the FIRST sets are sound on every grammar.  'ε' is in FIRST(A) only
    if [A] derives the empty string, and another member [a] only if [A]
    derives a string in which [a] comes after symbols that all derive the
    empty string. *)
Theorem first_sets_sound (isupper : str -> bool) (g : Grammar) :
  exists fs,
    compute_first_sets isupper g = Some fs
    /\ forall A a, In a (get_or fs A []) ->
         (a = EPSILON -> derives_empty g A)
         /\ (a <> EPSILON ->
             exists u w, derives g [A] (u ++ a :: w) /\ all_empty g u).
Proof.
  destruct (compute_first_sets_spec isupper g) as [fs [E _]].
  exists fs. split; [exact E|].
  unfold compute_first_sets, compute_first_sets_in in E.
  destruct (@while_changed_last FirstSets
              (first_pass (first_terminals isupper g) (group_productions g))
              (justified g)
              (first_pass_justified (first_terminals isupper g) (g := g))
              (first_fuel g) [] fs) as [s0 [J P]].
  - intros A a [].
  - exact E.
  - pose proof (first_pass_justified (first_terminals isupper g) J) as Jf.
    rewrite P in Jf. exact Jf.
Qed.

(* ===================================================================== *)
(** ** compute_first_sets: the sets are closed under the rules *)
(* ===================================================================== *)

Section FirstClosed.

Variable T : list Symbol.
Variable Ks U : list Symbol.
Hypothesis eps_U : In EPSILON U.
Hypothesis T_U : incl T U.

Lemma scan_symbol_member (lhs x : Symbol) (d : FirstSets) (a : Symbol) :
  In a (fst (first_of T d x)) -> a <> EPSILON ->
  In a (get_or (fst (scan_symbol T lhs d x)) lhs []).
Proof.
  rewrite first_of_read. unfold scan_symbol, first_of.
  destruct (mem x T); cbn [fst]; intros Ha Ne.
  - rewrite get_or_set, eqb_refl, update_In, discard_In. auto.
  - rewrite get_or_touch, get_or_set, eqb_refl, update_In, discard_In. auto.
Qed.

Lemma first_of_grows (d d' : FirstSets) (x : Symbol) :
  grows d d' -> incl (fst (first_of T d x)) (fst (first_of T d' x)).
Proof.
  intros G. rewrite !first_of_read. destruct (mem x T); [apply incl_refl|].
  apply grows_incl. exact G.
Qed.

Lemma scan_rhs_member (lhs : Symbol) (a : Symbol) (pre : list Symbol) :
  In lhs Ks -> a <> EPSILON ->
  forall x post d,
    incl (pre ++ x :: post) Ks ->
    Forall (nullable_in T (fun k => get_or d k [])) pre ->
    In a (fst (first_of T d x)) ->
    In a (get_or (scan_rhs T lhs (pre ++ x :: post) d) lhs []).
Proof.
  intros Hl Ne. induction pre as [|y pre IH]; intros x post d Hr F Ha;
    cbn [app scan_rhs].
  - pose proof (@scan_symbol_member lhs x d a Ha Ne) as M.
    destruct (scan_symbol T lhs d x) as [d1 go]. cbn [fst] in M.
    destruct go; cbn [negb]; [|exact M].
    assert (Hp : incl post Ks) by (intros z Hz; apply Hr; right; exact Hz).
    destruct (@scan_rhs_spec T Ks U eps_U T_U lhs post Hl Hp d1) as [[G _] _].
    apply (grows_incl lhs G). exact M.
  - assert (Hy : In y Ks) by (apply Hr; left; reflexivity).
    assert (Hrest : incl (pre ++ x :: post) Ks)
      by (intros z Hz; apply Hr; right; exact Hz).
    destruct (@scan_symbol_spec T Ks U T_U lhs y d Hl Hy) as [[G _] [_ [Se Go]]].
    inversion F as [|? ? Ny F']; subst.
    destruct (scan_symbol T lhs d y) as [d1 go]. cbn [fst snd] in *.
    apply Go in Ny. subst go. cbn [negb].
    apply IH.
    + exact Hrest.
    + eapply Forall_impl; [|exact F']. intros z Hz.
      eapply nullable_in_ext; [|exact Hz]. intros k. cbv beta. apply Se.
    + apply (first_of_grows x G). exact Ha.
Qed.

Lemma first_production_member (lhs : Symbol) (a : Symbol) (pre : list Symbol)
    (x : Symbol) (post : list Symbol) (st : FirstSets * bool) :
  In lhs Ks -> incl (pre ++ x :: post) Ks -> a <> EPSILON ->
  Forall (nullable_in T (fun k => get_or (fst st) k [])) pre ->
  In a (fst (first_of T (fst st) x)) ->
  In a (get_or (fst (first_production T lhs st (pre ++ x :: post))) lhs []).
Proof.
  intros Hl Hr Ne F Ha. rewrite first_production_scan.
  apply scan_rhs_member; try assumption.
  - eapply Forall_impl; [|exact F]. intros z Hz.
    eapply nullable_in_ext; [|exact Hz]. intros k. cbv beta.
    rewrite get_or_touch. tauto.
  - rewrite (@first_of_ext T (fst st) (touch [] (fst st) lhs) x); [exact Ha|].
    intros k. apply get_or_touch.
Qed.

End FirstClosed.

(** In a pass that leaves the flag down, the sets read before and after the
    work on a production are those the pass started from. *)
Lemma quiet_pass_states (isupper : str -> bool) (g : Grammar) (d r : FirstSets)
    (p : Production) :
  first_pass (first_terminals isupper g) (group_productions g) d = (r, false) ->
  In p g ->
  exists s1,
    (forall k, get_or (fst s1) k [] = get_or d k [])
    /\ forall k,
         get_or (fst (first_production (first_terminals isupper g) (fst p) s1 (snd p))) k []
         = get_or d k [].
Proof.
  unfold first_pass. rewrite (fold_nested (first_production (first_terminals isupper g))).
  set (step := fun (st : FirstSets * bool) (q : Production) =>
                 first_production (first_terminals isupper g) (fst q) st (snd q)).
  intros E I.
  apply (proj2 (flatten_group_In g p)) in I. pose proof I as I'.
  apply in_split in I as [l1 [l2 L]]. rewrite L in E.
  rewrite fold_left_app in E. cbn [fold_left] in E.
  assert (Q : forall l s, incl l (flatten (group_productions g)) ->
                          quiet s (fold_left step l s)).
  { intros l s Hl. apply fold_left_rel; [apply quiet_refl | apply quiet_trans |].
    intros s' x Hx. apply (step_facts isupper g s' x). apply Hl. exact Hx. }
  pose proof (Q l1 (d, false)) as Q1.
  set (s1 := fold_left step l1 (d, false)) in *.
  change (fold_left step l2 (step s1 p) = (r, false)) in E. clearbody s1.
  pose proof (Q l2 (step s1 p)) as Q3. rewrite E in Q3.
  destruct (step_facts isupper g s1 p I') as [_ [Q2 _]].
  destruct Q3 as [C2 _]; [rewrite L; intros x Hx; apply in_or_app; right; right; exact Hx
                         | reflexivity |].
  destruct (Q2 C2) as [C1 G2].
  destruct Q1 as [_ G1]; [rewrite L; intros x Hx; apply in_or_app; left; exact Hx
                         | exact C1 |].
  cbn [fst] in G1. exists s1. split; [exact G1|].
  intros k. unfold step in G2. rewrite G2. apply G1.
Qed.

(** X3: the FIRST sets are closed under the rules the loop applies, on every
    grammar.  For a production [A -> pre x post] in which 'ε' is read for
    every symbol of [pre], what is read for [x], 'ε' apart, is in FIRST(A);
    and when 'ε' is read for every symbol of the right-hand side, 'ε' is in
    FIRST(A). *)
Theorem first_sets_closed (isupper : str -> bool) (g : Grammar) :
  exists fs,
    compute_first_sets isupper g = Some fs
    /\ forall A rhs, In (A, rhs) g ->
         (forall pre x post a,
             rhs = pre ++ x :: post ->
             Forall (fun y => In EPSILON (fst (first_of (first_terminals isupper g) fs y)))
                    pre ->
             In a (fst (first_of (first_terminals isupper g) fs x)) ->
             a <> EPSILON ->
             In a (get_or fs A []))
         /\ (Forall (fun y => In EPSILON (fst (first_of (first_terminals isupper g) fs y)))
                    rhs ->
             In EPSILON (get_or fs A [])).
Proof.
  destruct (compute_first_sets_spec isupper g) as [fs [E [_ C]]].
  exists fs. split; [exact E|]. intros A rhs I. split.
  - intros pre x post a -> F Ha Ne.
    unfold compute_first_sets, compute_first_sets_in in E.
    destruct (@while_changed_last FirstSets
                (first_pass (first_terminals isupper g) (group_productions g))
                (fun _ => True) (fun _ _ => Logic.I) (first_fuel g) [] fs Logic.I E)
      as [s0 [_ P]].
    destruct (first_pass_facts isupper g s0) as [_ [Q _]]. rewrite P in Q.
    destruct (Q eq_refl) as [_ G]. cbn [fst] in G.
    destruct (quiet_pass_states isupper g s0 (A, pre ++ x :: post) P I) as [s1 [G1 G2]].
    cbn [fst snd] in G2.
    destruct (production_in_bounds g (A, pre ++ x :: post) I) as [Hl Hr].
    cbn [fst snd] in Hl, Hr.
    rewrite G, <- G2.
    apply (@first_production_member (first_terminals isupper g) (grammar_symbols g)
             (EPSILON :: grammar_symbols g) (or_introl eq_refl)
             (first_terminals_in_universe isupper g) A a pre x post s1 Hl Hr Ne).
    + eapply Forall_impl; [|exact F]. intros y Hy.
      apply first_of_nullable in Hy.
      eapply nullable_in_ext; [|exact Hy]. intros k. cbv beta. rewrite G1, G. tauto.
    + rewrite first_of_read in *. rewrite G1, <- G. exact Ha.
  - intros F. apply (C (A, rhs) I). cbn [snd].
    eapply Forall_impl; [|exact F]. intros y Hy. apply first_of_nullable. exact Hy.
Qed.
(* ===================================================================== *)
(** ** compute_follow_sets: what the sets it returns hold *)
(* ===================================================================== *)

(** What a loop over [l] has established for each of its elements, when the
    later rounds keep it: [R] relates a state to the later ones. *)
Lemma fold_left_post {S X : Type} (R : S -> S -> Prop) (Q : X -> S -> Prop)
    (f : S -> X -> S) (l : list X) (s0 : S) :
  (forall s, R s s) -> (forall a b c, R a b -> R b c -> R a c) ->
  (forall s x, In x l -> R s (f s x)) ->
  (forall s x, In x l -> R s0 s -> Q x (f s x)) ->
  (forall x s s', Q x s -> R s s' -> Q x s') ->
  forall x, In x l -> Q x (fold_left f l s0).
Proof.
  intros Rr Rt Rf Qf Qk x I. apply in_split in I as [l1 [l2 ->]].
  rewrite fold_left_app. cbn [fold_left].
  apply Qk with (s := f (fold_left f l1 s0) x).
  - apply Qf; [apply in_or_app; right; left; reflexivity|].
    refine (@fold_left_rel _ _ R f l1 Rr Rt _ s0).
    intros s y Hy. apply Rf. apply in_or_app. left. exact Hy.
  - refine (@fold_left_rel _ _ R f l2 Rr Rt _ _).
    intros s y Hy. apply Rf. apply in_or_app. right. right. exact Hy.
Qed.

(** Lines 96-101: what the look-ahead loop adds for [next_symbol], and
    whether it goes on to the symbol after it. *)
Definition trailer (first_sets : FirstSets) (next_symbol : Symbol) : list Symbol :=
  match get first_sets next_symbol with
  | Some f => discard f EPSILON
  | None => [next_symbol]
  end.

Definition epsilon_in (first_sets : FirstSets) (next_symbol : Symbol) : bool :=
  match get first_sets next_symbol with
  | Some f => mem EPSILON f
  | None => false
  end.

Lemma look_ahead_cons (first_sets : FirstSets) (lhs symbol next_symbol : Symbol)
    (rest : list Symbol) (follow : FollowSets) :
  look_ahead first_sets lhs symbol (next_symbol :: rest) follow =
  let follow1 := touch [] follow symbol in
  let follow2 := set follow1 symbol
                     (update (get_or follow1 symbol []) (trailer first_sets next_symbol)) in
  if epsilon_in first_sets next_symbol
  then look_ahead first_sets lhs symbol rest follow2
  else (follow2, length (get_or follow1 symbol [])).
Proof.
  cbn [look_ahead]. unfold trailer, epsilon_in.
  destruct (get first_sets next_symbol) as [f|]; reflexivity.
Qed.

(** The members a FOLLOW set can get: '$' and what the look-ahead loop adds
    for a symbol of a right-hand side. *)
Definition follow_members (g : Grammar) (first_sets : FirstSets) : list Symbol :=
  END_MARKER :: flat_map (trailer first_sets) (concat (map snd g)).

Section FollowMembers.

Variable g : Grammar.
Variable first_sets : FirstSets.
Variable start_symbol : Symbol.

Let Ks := start_symbol :: map fst g.
Let U := follow_members g first_sets.
Let nts := of_list (map fst g).

Lemma look_ahead_within (lhs symbol : Symbol) (rest : list Symbol) :
  In lhs Ks -> In symbol Ks -> incl rest (concat (map snd g)) ->
  forall follow,
    step_ok Ks U follow (fst (look_ahead first_sets lhs symbol rest follow))
    /\ incl (keys follow) (keys (fst (look_ahead first_sets lhs symbol rest follow)))
    /\ In symbol (keys (fst (look_ahead first_sets lhs symbol rest follow))).
Proof.
  intros Hl Hs. induction rest as [|next rest IH]; intros Hr follow.
  - cbn [look_ahead fst].
    set (d1 := touch [] follow symbol). set (d2 := touch [] d1 lhs).
    split; [|split].
    + apply ok_trans with (d2 := d1); [apply ok_touch; exact Hs|].
      apply ok_trans with (d2 := d2); [apply ok_touch; exact Hl|].
      apply ok_update; [exact Hs|]. intros B. apply (bounded_get_or lhs B).
    + eapply incl_tran; [apply (keys_touch_incl [] follow symbol)|].
      eapply incl_tran; [apply (keys_touch_incl [] d1 lhs)|].
      apply keys_set_incl.
    + apply keys_set_In.
  - rewrite look_ahead_cons. cbv zeta.
    assert (Hrest : incl rest (concat (map snd g))).
    { intros y Hy. apply Hr. right; assumption. }
    set (d1 := touch [] follow symbol).
    set (d2 := set d1 symbol (update (get_or d1 symbol []) (trailer first_sets next))).
    assert (O : step_ok Ks U follow d2).
    { apply ok_trans with (d2 := d1); [apply ok_touch; exact Hs|].
      apply ok_update; [exact Hs|]. intros _ x Hx. right.
      apply in_flat_map. exists next. split; [apply Hr; left; reflexivity | exact Hx]. }
    assert (I2 : incl (keys follow) (keys d2)).
    { eapply incl_tran; [apply (keys_touch_incl [] follow symbol) | apply keys_set_incl]. }
    destruct (epsilon_in first_sets next).
    + destruct (IH Hrest d2) as [O' [I' K']]. split; [|split].
      * eapply ok_trans; eassumption.
      * eapply incl_tran; eassumption.
      * exact K'.
    + cbn [fst]. split; [exact O|]. split; [exact I2 | apply keys_set_In].
Qed.

(** The state of a pass: the sets stay within the bounds and no key is
    lost. *)
Definition within_keys (st st' : FollowSets * bool) : Prop :=
  step_ok Ks U (fst st) (fst st') /\ incl (keys (fst st)) (keys (fst st')).

Lemma within_keys_refl (st : FollowSets * bool) : within_keys st st.
Proof. split; [apply ok_refl | apply incl_refl]. Qed.

Lemma within_keys_trans (a b c : FollowSets * bool) :
  within_keys a b -> within_keys b c -> within_keys a c.
Proof.
  intros [O1 I1] [O2 I2]. split; [eapply ok_trans | eapply incl_tran]; eassumption.
Qed.

Lemma follow_rhs_within (lhs : Symbol) (rhs : list Symbol) :
  In lhs Ks -> incl rhs (concat (map snd g)) ->
  forall st,
    within_keys st (follow_rhs nts first_sets lhs rhs st)
    /\ forall B, In B rhs -> In B (map fst g) ->
         In B (keys (fst (follow_rhs nts first_sets lhs rhs st))).
Proof.
  intros Hl. induction rhs as [|symbol rest IH]; intros Hr st; cbn [follow_rhs].
  - split; [apply within_keys_refl | intros B []].
  - assert (Hrest : incl rest (concat (map snd g))).
    { intros y Hy. apply Hr. right; assumption. }
    set (st1 := if mem symbol nts then _ else st).
    assert (W : within_keys st st1
                /\ (In symbol (map fst g) -> In symbol (keys (fst st1)))).
    { unfold st1. destruct (mem symbol nts) eqn:M.
      - apply mem_In in M. unfold nts in M. rewrite of_list_In in M.
        assert (Hs : In symbol Ks) by (right; exact M).
        destruct (@look_ahead_within lhs symbol rest Hl Hs Hrest (fst st)) as [O [I K]].
        destruct (look_ahead first_sets lhs symbol rest (fst st)) as [follow before].
        cbn [fst] in *. split; [split; assumption | intros _; exact K].
      - split; [apply within_keys_refl|]. intros I. exfalso.
        apply mem_false in M. apply M. unfold nts. apply of_list_In. exact I. }
    destruct W as [W1 K1]. clearbody st1.
    destruct (IH Hrest st1) as [W2 K2]. split.
    + eapply within_keys_trans; eassumption.
    + intros B [<- |HB] HB2; [|apply K2; assumption].
      apply W2. apply K1. exact HB2.
Qed.

Lemma follow_pass_within (follow : FollowSets) :
  within_keys (follow, false) (follow_pass nts first_sets (group_productions g) follow)
  /\ forall B, rhs_symbol g B -> In B (map fst g) ->
       In B (keys (fst (follow_pass nts first_sets (group_productions g) follow))).
Proof.
  unfold follow_pass.
  rewrite (fold_nested (fun lhs st rhs => follow_rhs nts first_sets lhs rhs st)).
  set (step := fun (st : FollowSets * bool) (p : Production) =>
                 follow_rhs nts first_sets (fst p) (snd p) st).
  assert (St : forall s p, In p (flatten (group_productions g)) ->
                 within_keys s (step s p)
                 /\ forall B, In B (snd p) -> In B (map fst g) ->
                      In B (keys (fst (step s p)))).
  { intros s p Hp. apply (proj1 (flatten_group_In g p)) in Hp.
    apply follow_rhs_within.
    - right. apply in_map. exact Hp.
    - intros x Hx. apply in_concat. exists (snd p). split; [apply in_map|]; assumption. }
  split.
  - apply fold_left_rel; [apply within_keys_refl | apply within_keys_trans|].
    intros s p Hp. apply St. exact Hp.
  - intros B [p [Hp HB]] HB2.
    apply (proj2 (flatten_group_In g p)) in Hp.
    refine (@fold_left_post _ _ within_keys
              (fun p s => In B (snd p) -> In B (keys (fst s))) step
              (flatten (group_productions g)) (follow, false)
              within_keys_refl within_keys_trans _ _ _ p Hp HB).
    + intros s x Hx. apply St. exact Hx.
    + intros s x Hx _ Hb. apply (St s x Hx). exact Hb. exact HB2.
    + intros x s s' Q [_ I] Hb. apply I. apply Q. exact Hb.
Qed.

End FollowMembers.

(** X4: compute_follow_sets returns on every grammar, every dict of FIRST
    sets and every start symbol.  The keys of what it returns are the start
    symbol and left-hand sides, among them every left-hand side that occurs
    in a right-hand side; '$' is in the set of the start symbol; and a member
    of a set is '$' or what lines 96-101 give for a symbol of a right-hand
    side: the members of its FIRST set other than 'ε', or the symbol itself
    when the FIRST sets have no key for it. *)
Theorem follow_sets_hold_trailers (g : Grammar) (first_sets : FirstSets)
    (start_symbol : Symbol) :
  exists fs,
    compute_follow_sets g first_sets start_symbol = Some fs
    /\ NoDup (keys fs)
    /\ In start_symbol (keys fs)
    /\ (forall A, In A (keys fs) -> A = start_symbol \/ In A (map fst g))
    /\ (forall A, In A (map fst g) -> rhs_symbol g A -> In A (keys fs))
    /\ In END_MARKER (get_or fs start_symbol [])
    /\ forall A, NoDup (get_or fs A [])
         /\ forall a, In a (get_or fs A []) ->
              a = END_MARKER
              \/ exists x, rhs_symbol g x /\ In a (trailer first_sets x).
Proof.
  destruct (compute_follow_sets_returns g first_sets start_symbol) as [fs [E [_ D]]].
  exists fs. split; [exact E|].
  unfold compute_follow_sets, compute_follow_sets_in in E.
  set (init := [(start_symbol, [END_MARKER])] : FollowSets) in E.
  set (Ks := start_symbol :: map fst g).
  set (U := follow_members g first_sets).
  destruct (@while_changed_last FollowSets
              (follow_pass (of_list (map fst g)) first_sets (group_productions g))
              (fun d => bounded Ks U d /\ In start_symbol (keys d)))
    with (fuel := follow_fuel g first_sets) (s := init) (r := fs) as [s0 [[B K] P]].
  - intros s [B K].
    destruct (follow_pass_within g first_sets start_symbol s) as [[[_ O] I] _].
    split; [apply O; exact B | apply I; exact K].
  - split; [|left; reflexivity]. split; [|split].
    + repeat constructor. simpl. tauto.
    + intros x [<- |[]]. left; reflexivity.
    + constructor; [|constructor]. cbn [snd]. split.
      * repeat constructor. simpl. tauto.
      * intros x [<- |[]]. left; reflexivity.
  - exact E.
  - destruct (follow_pass_within g first_sets start_symbol s0) as [[[_ O] I] Kr].
    rewrite P in O, I, Kr. cbn [fst] in O, I, Kr. specialize (O B).
    pose proof O as [N [Ik F]].
    split; [exact N|]. split; [apply I; exact K|].
    split; [intros A HA; apply Ik in HA; destruct HA; auto|].
    split; [intros A H1 H2; apply Kr; assumption|].
    split; [exact D|]. intros A.
    destruct (@bounded_get_or _ _ _ Ks U fs A O) as [Nd In_].
    split; [exact Nd|]. intros a Ha. apply In_ in Ha. destruct Ha as [<- |Ha]; [auto|].
    right. apply in_flat_map in Ha as [x [Hx Ha]]. exists x. split; [|exact Ha].
    apply in_concat in Hx as [rhs [Hr Hx]]. apply in_map_iff in Hr as [p [<- Hp]].
    exists p. auto.
Qed.

(* ===================================================================== *)
(** ** compute_follow_sets: closed sets on an augmented grammar *)
(* ===================================================================== *)

Section FollowClosed.

Variable g : Grammar.
Variable first_sets : FirstSets.

Let nts := of_list (map fst g).

(** The first rule at the occurrence of [B] before [rest]: the sets hold what
    the look-ahead loop adds for each symbol it reaches. *)
Definition trailers_in (rest : list Symbol) (B : Symbol) (d : FollowSets) : Prop :=
  forall mid next_symbol rest',
    rest = mid ++ next_symbol :: rest' ->
    forallb (epsilon_in first_sets) mid = true ->
    incl (trailer first_sets next_symbol) (get_or d B []).

(** The first rule at every occurrence of a left-hand side. *)
Definition trailers_done (d : FollowSets) : Prop :=
  forall A pre B post,
    In (A, pre ++ B :: post) g -> In B (map fst g) -> trailers_in post B d.

Lemma trailers_in_ext (rest : list Symbol) (B : Symbol) (d d' : FollowSets) :
  incl (get_or d B []) (get_or d' B []) -> trailers_in rest B d -> trailers_in rest B d'.
Proof.
  intros I Tr mid next rest' E F. eapply incl_tran; [eapply Tr; eassumption | exact I].
Qed.

Lemma trailers_done_grows (d d' : FollowSets) :
  grows d d' -> trailers_done d -> trailers_done d'.
Proof.
  intros G Td A pre B post I HB. eapply trailers_in_ext; [|eapply Td; eassumption].
  apply grows_incl. exact G.
Qed.

Lemma grows_update (d : FollowSets) (k : Symbol) (t : list Symbol) :
  grows d (set d k (update (get_or d k []) t)).
Proof. destruct (update_extends t (get_or d k [])) as [e [-> _]]. apply grows_set. Qed.

Lemma look_ahead_grows (lhs symbol : Symbol) (rest : list Symbol) :
  forall d, grows d (fst (look_ahead first_sets lhs symbol rest d)).
Proof.
  induction rest as [|next rest IH]; intros d.
  - cbn [look_ahead fst].
    eapply grows_trans; [apply (grows_touch d symbol)|].
    eapply grows_trans; [apply (grows_touch _ lhs)|]. apply grows_update.
  - rewrite look_ahead_cons. cbv zeta.
    assert (G : grows d (set (touch [] d symbol) symbol
                           (update (get_or (touch [] d symbol) symbol [])
                                   (trailer first_sets next)))).
    { eapply grows_trans; [apply (grows_touch d symbol) | apply grows_update]. }
    destruct (epsilon_in first_sets next); [|exact G].
    eapply grows_trans; [exact G | apply IH].
Qed.

(** What the look-ahead loop leaves behind: the first rule at its
    occurrence, and the second when it has run to the end. *)
Lemma look_ahead_post (lhs symbol : Symbol) (rest : list Symbol) :
  forall d,
    trailers_in rest symbol (fst (look_ahead first_sets lhs symbol rest d))
    /\ (forallb (epsilon_in first_sets) rest = true ->
        incl (get_or d lhs []) (get_or (fst (look_ahead first_sets lhs symbol rest d))
                                       symbol [])).
Proof.
  induction rest as [|next rest IH]; intros d.
  - cbn [look_ahead fst]. split.
    + intros mid n r E. destruct mid; discriminate E.
    + intros _ x Hx. rewrite get_or_set, eqb_refl, update_In. right.
      rewrite !get_or_touch. exact Hx.
  - rewrite look_ahead_cons. cbv zeta.
    set (d1 := touch [] d symbol).
    set (d2 := set d1 symbol (update (get_or d1 symbol []) (trailer first_sets next))).
    assert (G : grows d d2).
    { eapply grows_trans; [apply (grows_touch d symbol) | apply grows_update]. }
    assert (I2 : incl (trailer first_sets next) (get_or d2 symbol [])).
    { intros x Hx. unfold d2. rewrite get_or_set, eqb_refl, update_In. auto. }
    cbn [forallb].
    destruct (epsilon_in first_sets next) eqn:Ep; cbn [andb].
    + destruct (IH d2) as [Tr En]. pose proof (look_ahead_grows lhs symbol rest d2) as G'.
      split.
      * intros [|m mid] n r E F.
        -- cbn [app] in E. inversion E; subst n r.
           eapply incl_tran; [exact I2 | apply grows_incl; exact G'].
        -- cbn [app] in E. inversion E; subst m rest.
           cbn [forallb] in F. apply andb_true_iff in F as [_ F].
           eapply Tr; [reflexivity | exact F].
      * intros F. eapply incl_tran; [apply (grows_incl lhs G) | apply En; exact F].
    + cbn [fst]. split; [|discriminate].
      intros [|m mid] n r E F.
      * cbn [app] in E. inversion E; subst n r. exact I2.
      * cbn [app] in E. inversion E; subst m rest.
        cbn [forallb] in F. rewrite Ep in F. discriminate F.
Qed.

(** Where the first rule already holds, the loop changes a set only by its
    last update, and then it leaves a set larger than [before]. *)
Lemma look_ahead_quiet (lhs symbol : Symbol) (rest : list Symbol) :
  forall d,
    trailers_in rest symbol d ->
    size_at (fst (look_ahead first_sets lhs symbol rest d)) symbol
      <= snd (look_ahead first_sets lhs symbol rest d) ->
    forall k, get_or (fst (look_ahead first_sets lhs symbol rest d)) k [] = get_or d k [].
Proof.
  induction rest as [|next rest IH]; intros d Tr.
  - cbn [look_ahead fst snd]. unfold size_at.
    rewrite get_or_set, eqb_refl, !get_or_touch. intros L k.
    apply update_same_length in L.
    rewrite get_or_set. destruct (eqb k symbol) eqn:E.
    + apply eqb_eq in E; subst k. exact L.
    + rewrite !get_or_touch. reflexivity.
  - rewrite look_ahead_cons. cbv zeta.
    set (d1 := touch [] d symbol).
    set (d2 := set d1 symbol (update (get_or d1 symbol []) (trailer first_sets next))).
    assert (E2 : forall k, get_or d2 k [] = get_or d k []).
    { intros k. unfold d2. rewrite get_or_set. destruct (eqb k symbol) eqn:E.
      - apply eqb_eq in E; subst k. unfold d1. rewrite get_or_touch.
        apply update_incl_id. apply (Tr [] next rest); reflexivity.
      - unfold d1. apply get_or_touch. }
    destruct (epsilon_in first_sets next) eqn:Ep.
    + intros L k. rewrite (IH d2); [apply E2 | | exact L].
      intros mid n r E F. rewrite E2. apply (Tr (next :: mid) n r).
      * cbn [app]. rewrite E. reflexivity.
      * cbn [forallb]. rewrite Ep. exact F.
    + cbn [fst snd]. intros _. exact E2.
Qed.

Lemma follow_rhs_grows (lhs : Symbol) (rhs : list Symbol) :
  forall st, grows (fst st) (fst (follow_rhs nts first_sets lhs rhs st)).
Proof.
  induction rhs as [|symbol rest IH]; intros [d c]; cbn [follow_rhs]; [apply grows_refl|].
  eapply grows_trans; [|apply IH].
  destruct (mem symbol nts); [|apply grows_refl]. cbn [fst snd].
  pose proof (look_ahead_grows lhs symbol rest d) as G.
  destruct (look_ahead first_sets lhs symbol rest d). exact G.
Qed.

(** A raised flag stays raised. *)
Lemma follow_rhs_flag (lhs : Symbol) (rhs : list Symbol) :
  forall st, snd st = true -> snd (follow_rhs nts first_sets lhs rhs st) = true.
Proof.
  induction rhs as [|symbol rest IH]; intros [d c] C; cbn [follow_rhs]; [exact C|].
  apply IH. destruct (mem symbol nts); [|exact C]. cbn [fst snd] in *.
  destruct (look_ahead first_sets lhs symbol rest d). cbn [snd].
  rewrite C. reflexivity.
Qed.

(** What the work on a right-hand side leaves behind, for each occurrence of
    a left-hand side in it. *)
Lemma follow_rhs_post (lhs : Symbol) (rhs : list Symbol) :
  forall st pre B post,
    rhs = pre ++ B :: post -> In B (map fst g) ->
    trailers_in post B (fst (follow_rhs nts first_sets lhs rhs st))
    /\ (forallb (epsilon_in first_sets) post = true ->
        incl (get_or (fst st) lhs [])
             (get_or (fst (follow_rhs nts first_sets lhs rhs st)) B [])).
Proof.
  induction rhs as [|symbol rest IH]; intros [d c] pre B post E HB.
  - destruct pre; discriminate E.
  - cbn [follow_rhs]. set (st1 := if mem symbol nts then _ else (d, c)).
    cbn [fst snd] in *.
    assert (G1 : grows d (fst st1)).
    { unfold st1. destruct (mem symbol nts); [|apply grows_refl].
      pose proof (look_ahead_grows lhs symbol rest d) as G.
      destruct (look_ahead first_sets lhs symbol rest d). exact G. }
    destruct pre as [|s pre]; cbn [app] in E; inversion E; subst.
    + assert (M : mem B nts = true).
      { apply mem_In. unfold nts. apply of_list_In. exact HB. }
      assert (P1 : trailers_in post B (fst st1)
                   /\ (forallb (epsilon_in first_sets) post = true ->
                       incl (get_or d lhs []) (get_or (fst st1) B []))).
      { unfold st1. rewrite M.
        pose proof (look_ahead_post lhs B post d) as P.
        destruct (look_ahead first_sets lhs B post d). exact P. }
      clearbody st1. destruct P1 as [Tr En].
      pose proof (follow_rhs_grows lhs post st1) as G2. split.
      * eapply trailers_in_ext; [apply grows_incl; exact G2 | exact Tr].
      * intros F. eapply incl_tran; [apply En; exact F | apply grows_incl; exact G2].
    + clearbody st1. destruct (IH st1 pre B post eq_refl HB) as [Tr En].
      split; [exact Tr|]. intros F.
      eapply incl_tran; [apply (grows_incl lhs G1) | apply En; exact F].
Qed.

(** A flag that is down after the work on a right-hand side, where the first
    rule already held: no set has changed. *)
Lemma follow_rhs_quiet (lhs : Symbol) (rhs : list Symbol) :
  forall pre st,
    In (lhs, pre ++ rhs) g -> trailers_done (fst st) ->
    quiet st (follow_rhs nts first_sets lhs rhs st).
Proof.
  induction rhs as [|symbol rest IH]; intros pre [d c] I Td; cbn [follow_rhs].
  - apply quiet_refl.
  - set (st1 := if mem symbol nts then _ else (d, c)). cbn [fst snd] in *.
    assert (Q1 : quiet (d, c) st1 /\ grows d (fst st1)).
    { unfold st1. destruct (mem symbol nts) eqn:M;
        [|split; [apply quiet_refl | apply grows_refl]].
      apply mem_In in M. unfold nts in M. rewrite of_list_In in M.
      pose proof (@look_ahead_quiet lhs symbol rest d (Td lhs pre symbol rest I M))
        as Q.
      pose proof (look_ahead_grows lhs symbol rest d) as G.
      destruct (look_ahead first_sets lhs symbol rest d) as [follow before].
      cbn [fst snd] in *. split; [|exact G].
      intros C. cbn [fst snd] in *. apply orb_false_iff in C as [C1 C2].
      split; [exact C1|]. apply Q. apply Nat.ltb_ge in C2. exact C2. }
    destruct Q1 as [Q1 G1]. clearbody st1.
    eapply quiet_trans; [exact Q1|].
    apply (IH (pre ++ [symbol])).
    + rewrite <- app_assoc. exact I.
    + eapply trailers_done_grows; eassumption.
Qed.

Let step := fun (st : FollowSets * bool) (p : Production) =>
              follow_rhs nts first_sets (fst p) (snd p) st.

Lemma follow_pass_flat (d : FollowSets) :
  follow_pass nts first_sets (group_productions g) d =
  fold_left step (flatten (group_productions g)) (d, false).
Proof.
  unfold follow_pass, step.
  apply (fold_nested (fun lhs st rhs => follow_rhs nts first_sets lhs rhs st)).
Qed.

Lemma follow_steps_grow (l : list Production) (s : FollowSets * bool) :
  grows (fst s) (fst (fold_left step l s)).
Proof.
  refine (@fold_left_rel _ _ (fun s s' => grows (fst s) (fst s')) step l _ _ _ s).
  - intros a. apply grows_refl.
  - intros a b c. apply grows_trans.
  - intros a p _. apply follow_rhs_grows.
Qed.

(** After a pass, the first rule holds at every occurrence of a left-hand
    side, and the set of the occurrence holds what the set of the left-hand
    side of its production held before the pass, when the symbols after the
    occurrence all have 'ε' in their FIRST sets. *)
Lemma follow_pass_post (d : FollowSets) :
  trailers_done (fst (follow_pass nts first_sets (group_productions g) d))
  /\ forall A pre B post,
       In (A, pre ++ B :: post) g -> In B (map fst g) ->
       forallb (epsilon_in first_sets) post = true ->
       incl (get_or d A [])
            (get_or (fst (follow_pass nts first_sets (group_productions g) d)) B []).
Proof.
  rewrite follow_pass_flat.
  assert (X : forall A pre B post,
             In (A, pre ++ B :: post) g -> In B (map fst g) ->
             trailers_in post B (fst (fold_left step (flatten (group_productions g))
                                                (d, false)))
             /\ (forallb (epsilon_in first_sets) post = true ->
                 incl (get_or d A [])
                      (get_or (fst (fold_left step (flatten (group_productions g))
                                              (d, false))) B []))).
  { intros A pre B post I HB.
    apply (proj2 (flatten_group_In g (A, pre ++ B :: post))) in I.
    apply (@fold_left_post _ _ (fun s s' => grows (fst s) (fst s'))
             (fun p s =>
                p = (A, pre ++ B :: post) ->
                trailers_in post B (fst s)
                /\ (forallb (epsilon_in first_sets) post = true ->
                    incl (get_or d A []) (get_or (fst s) B [])))
             step (flatten (group_productions g)) (d, false)) with (x := (A, pre ++ B :: post)).
    - intros a. apply grows_refl.
    - intros a b c. apply grows_trans.
    - intros s p _. apply follow_rhs_grows.
    - intros s p _ G ->. unfold step. cbn [fst snd].
      destruct (@follow_rhs_post A (pre ++ B :: post) s pre B post eq_refl HB) as [Tr En].
      split; [exact Tr|]. intros F.
      eapply incl_tran; [apply (grows_incl A G) | apply En; exact F].
    - intros p s s' Q G Ep. destruct (Q Ep) as [Tr En]. split.
      + eapply trailers_in_ext; [apply grows_incl; exact G | exact Tr].
      + intros F. eapply incl_tran; [apply En; exact F | apply grows_incl; exact G].
    - exact I.
    - reflexivity. }
  split.
  - intros A pre B post I HB. apply (X A pre B post I HB).
  - intros A pre B post I HB. apply (X A pre B post I HB).
Qed.

(** A pass that starts where the first rule holds and leaves the flag down
    has changed no set. *)
Lemma follow_pass_quiet (d : FollowSets) :
  trailers_done d ->
  snd (follow_pass nts first_sets (group_productions g) d) = false ->
  forall k, get_or (fst (follow_pass nts first_sets (group_productions g) d)) k []
            = get_or d k [].
Proof.
  rewrite follow_pass_flat. intros Td C.
  assert (Q : quiet (d, false) (fold_left step (flatten (group_productions g)) (d, false))).
  { refine (proj2 (@fold_left_rel _ _
              (fun s s' => grows (fst s) (fst s')
                           /\ (trailers_done (fst s) -> quiet s s'))
              step (flatten (group_productions g)) _ _ _ (d, false)) Td).
    - intros a. split; [apply grows_refl | intros _; apply quiet_refl].
    - intros a b c [G1 Q1] [G2 Q2]. split; [eapply grows_trans; eassumption|].
      intros Ta. eapply quiet_trans; [apply Q1; exact Ta|].
      apply Q2. eapply trailers_done_grows; eassumption.
    - intros s p Hp. split; [apply follow_rhs_grows|]. intros Ts.
      apply (proj1 (flatten_group_In g p)) in Hp. unfold step.
      apply (@follow_rhs_quiet (fst p) (snd p) [] s); [destruct p; exact Hp | exact Ts]. }
  apply Q. exact C.
Qed.

End FollowClosed.

(** The productions of the first left-hand side come first in a pass, the
    first production before the others. *)
Lemma group_fold_head (g : Grammar) (k : Symbol) (v : list Symbol)
    (vs : list (list Symbol)) (rest : dict Symbol (list (list Symbol))) :
  exists vs' rest',
    fold_left (fun P p => append_production P (fst p) (snd p)) g ((k, v :: vs) :: rest)
    = (k, v :: vs') :: rest'.
Proof.
  revert vs rest. induction g as [|[l r] g IH]; intros vs rest; cbn [fold_left fst snd].
  - exists vs, rest. reflexivity.
  - unfold append_production at 2. unfold get_or. cbn [set get].
    destruct (eqb l k) eqn:E.
    + cbn [app]. apply IH.
    + apply IH.
Qed.

Lemma flatten_group_head (p : Production) (g : Grammar) :
  exists l, flatten (group_productions (p :: g)) = p :: l.
Proof.
  destruct p as [lhs rhs]. unfold group_productions. cbn [fold_left fst snd].
  unfold append_production at 2. cbn [get_or get set app].
  destruct (group_fold_head g lhs rhs [] []) as [vs' [rest' ->]].
  unfold flatten. cbn [flat_map map fst snd app]. eexists. reflexivity.
Qed.

(** X5: on a grammar whose first production is [start -> S], with [S] a
    left-hand side other than the start symbol, the FOLLOW sets returned are
    closed under both rules.  At an occurrence of a left-hand side [B] in a
    production [A -> pre B post], FOLLOW(B) holds what lines 96-101 give for
    every symbol of [post] that the look-ahead loop reaches, and it holds
    FOLLOW(A) when every symbol of [post] has 'ε' in its FIRST set. *)
Theorem follow_sets_closed_when_augmented (g : Grammar) (first_sets : FirstSets)
    (start_symbol goal_symbol : Symbol) (others : Grammar) :
  g = (start_symbol, [goal_symbol]) :: others ->
  In goal_symbol (map fst g) ->
  goal_symbol <> start_symbol ->
  exists fs,
    compute_follow_sets g first_sets start_symbol = Some fs
    /\ forall A pre B post,
         In (A, pre ++ B :: post) g -> In B (map fst g) ->
         (forall mid next_symbol rest,
             post = mid ++ next_symbol :: rest ->
             forallb (epsilon_in first_sets) mid = true ->
             incl (trailer first_sets next_symbol) (get_or fs B []))
         /\ (forallb (epsilon_in first_sets) post = true ->
             incl (get_or fs A []) (get_or fs B [])).
Proof.
  intros Eg HS Ne.
  destruct (compute_follow_sets_returns g first_sets start_symbol) as [fs [E _]].
  exists fs. split; [exact E|].
  unfold compute_follow_sets, compute_follow_sets_in, follow_fuel in E.
  cbn [while_changed] in E.
  set (init := [(start_symbol, [END_MARKER])] : FollowSets) in E.
  set (pass := follow_pass (of_list (map fst g)) first_sets (group_productions g)) in *.
  assert (C1 : snd (pass init) = true).
  { unfold pass. rewrite follow_pass_flat.
    destruct (flatten_group_head (start_symbol, [goal_symbol]) others) as [l L].
    assert (L' : flatten (group_productions g) = (start_symbol, [goal_symbol]) :: l)
      by (rewrite Eg; exact L).
    rewrite L'. cbn [fold_left fst snd].
    assert (C : snd (follow_rhs (of_list (map fst g)) first_sets start_symbol [goal_symbol]
                                (init, false)) = true).
    { cbn [follow_rhs].
      assert (M : mem goal_symbol (of_list (map fst g)) = true).
      { apply mem_In. apply of_list_In. exact HS. }
      rewrite M. cbn [look_ahead fst snd].
      rewrite get_or_set, eqb_refl, !get_or_touch.
      assert (G0 : get_or init goal_symbol [] = []).
      { unfold init, get_or. cbn [get]. apply eqb_neq in Ne. rewrite Ne. reflexivity. }
      assert (G1 : get_or init start_symbol [] = [END_MARKER]).
      { unfold init, get_or. cbn [get]. rewrite eqb_refl. reflexivity. }
      rewrite G0, G1. reflexivity. }
    set (s1 := follow_rhs _ _ _ _ _) in *. clearbody s1. clear L L'.
    revert s1 C. induction l as [|p l IH]; intros s1 C; cbn [fold_left]; [exact C|].
    apply IH. apply follow_rhs_flag. exact C. }
  destruct (pass init) as [d1 c1] eqn:P1. cbn [snd] in C1. subst c1.
  destruct (@while_changed_last FollowSets pass (trailers_done g first_sets))
    with (fuel := S (length g) * length (follow_universe g first_sets))
         (s := d1) (r := fs) as [s0 [Td P]].
  - intros s _. apply follow_pass_post.
  - pose proof (follow_pass_post g first_sets init) as [Td _].
    fold pass in Td. rewrite P1 in Td. exact Td.
  - exact E.
  - pose proof (follow_pass_post g first_sets s0) as [Tr En].
    pose proof (@follow_pass_quiet g first_sets s0 Td) as Q.
    fold pass in Tr, En, Q. rewrite P in Tr, En, Q. cbn [fst snd] in Tr, En, Q.
    specialize (Q eq_refl).
    intros A pre B post I HB. split.
    + apply (Tr A pre B post I HB).
    + intros F. rewrite (Q A). apply (En A pre B post I HB F).
Qed.

Lemma follow_sets_closed_when_augmented_witness :
  fixed_grammar = (lit "S'", [lit "S"]) :: tl fixed_grammar
  /\ In (lit "S") (map fst fixed_grammar)
  /\ lit "S" <> lit "S'"
  /\ exists fs,
       compute_follow_sets fixed_grammar fixed_first (lit "S'") = Some fs
       /\ forall A pre B post,
            In (A, pre ++ B :: post) fixed_grammar -> In B (map fst fixed_grammar) ->
            (forall mid next_symbol rest,
                post = mid ++ next_symbol :: rest ->
                forallb (epsilon_in fixed_first) mid = true ->
                incl (trailer fixed_first next_symbol) (get_or fs B []))
            /\ (forallb (epsilon_in fixed_first) post = true ->
                incl (get_or fs A []) (get_or fs B [])).
Proof.
  assert (H1 : fixed_grammar = (lit "S'", [lit "S"]) :: tl fixed_grammar) by reflexivity.
  assert (H2 : In (lit "S") (map fst fixed_grammar)) by (right; left; reflexivity).
  assert (H3 : lit "S" <> lit "S'") by discriminate.
  split; [exact H1|]. split; [exact H2|]. split; [exact H3|].
  apply (follow_sets_closed_when_augmented fixed_first H1 H2 H3).
Defined.
(* ===================================================================== *)
(** ** closure and goto: the sets they return *)
(* ===================================================================== *)

Lemma group_productions_get (g : Grammar) (A : Symbol) (rhs : list Symbol) :
  In (A, rhs) g ->
  exists alternatives, get (group_productions g) A = Some alternatives /\ In rhs alternatives.
Proof.
  intros I. pose proof (group_fold_get_or g [] A) as E.
  fold (group_productions g) in E. cbn [get_or get app] in E.
  assert (Hr : In rhs (get_or (group_productions g) A [])).
  { rewrite E. apply in_map_iff. exists (A, rhs). split; [reflexivity|].
    apply filter_In. split; [assumption | apply eqb_refl]. }
  unfold get_or in Hr. destruct (get (group_productions g) A) as [rhss|] eqn:G;
    [|destruct Hr].
  exists rhss. auto.
Qed.

(** A set of items holds, for every item with the dot before a symbol, the
    items of the productions of that symbol with the dot in front. *)
Definition closed_under (G : Grammar) (C : list Item) : Prop :=
  forall lhs rhs dot_pos symbol prod_rhs,
    In (lhs, rhs, dot_pos) C -> nth_error rhs dot_pos = Some symbol ->
    In (symbol, prod_rhs) G -> In (symbol, prod_rhs, 0) C.

Lemma closed_under_calls (G : Grammar) (C : list Item) :
  closed_under G C <->
  (forall item it, In item C -> calls_for (group_productions G) item it -> In it C).
Proof.
  split.
  - intros Cl [[lhs rhs] dot] it Hi [symbol [alts [r [E1 [E2 [E3 ->]]]]]].
    cbn [fst snd] in E1. eapply Cl; [exact Hi | exact E1|].
    eapply group_productions_In; eassumption.
  - intros Cl lhs rhs dot symbol r Hi E I.
    destruct (group_productions_get G symbol r I) as [alts [G1 G2]].
    apply (Cl (lhs, rhs, dot)); [exact Hi|]. exists symbol, alts, r. auto.
Qed.

Lemma closure_loop_least (G : Grammar) (D : list Item) :
  closed_under G D ->
  forall fuel cs C,
    closure_loop fuel (group_productions G) cs = Some C -> incl cs D -> incl C D.
Proof.
  intros Cl0. pose proof (proj1 (closed_under_calls G D) Cl0) as Cl. clear Cl0.
  induction fuel as [|fuel IH]; intros cs C E I; [discriminate|].
  cbn [closure_loop] in E.
  destruct (closure_sweep (group_productions G) cs) as [|x rest] eqn:Sw.
  - inversion E; subst. exact I.
  - apply (IH _ _ E). intros y Hy. apply update_In in Hy as [Hy|Hy]; [apply I; exact Hy|].
    rewrite <- Sw in Hy. apply closure_sweep_In in Hy as [[item [Hi Hc]] _].
    eapply Cl; [apply I; exact Hi | exact Hc].
Qed.

Lemma closed_with_initial (G : Grammar) (S0 : list Item) :
  closed_under G (S0 ++ initial_items G).
Proof.
  intros lhs rhs dot symbol r _ _ I. apply in_or_app. right.
  unfold initial_items. apply in_map_iff. exists (symbol, r). auto.
Qed.

Lemma closure_least (G : Grammar) (S0 C D : list Item) :
  closure S0 G = Some C -> incl S0 D -> closed_under G D -> incl C D.
Proof.
  unfold closure. intros E ID Cl.
  apply (@closure_loop_least G D Cl _ _ _ E).
  intros y Hy. apply ID. apply of_list_In. exact Hy.
Qed.

Lemma closure_is_closed (G : Grammar) (S0 C : list Item) :
  closure S0 G = Some C -> closed_under G C.
Proof.
  intros E. apply (proj2 (closed_under_calls G C)). intros item it Hi Hc.
  eapply closure_closed; eassumption.
Qed.

Lemma closure_shape (G : Grammar) (S0 C : list Item) (it : Item) :
  closure S0 G = Some C -> In it C ->
  In it S0 \/ exists A rhs, In (A, rhs) G /\ it = (A, rhs, 0).
Proof.
  intros E Hi.
  apply (@closure_least G S0 C (S0 ++ initial_items G) E) in Hi;
    [|apply incl_appl, incl_refl | apply closed_with_initial].
  apply in_app_iff in Hi as [Hi|Hi]; [left; exact Hi | right].
  unfold initial_items in Hi. apply in_map_iff in Hi as [[A rhs] [<- Hp]].
  exists A, rhs. auto.
Qed.

(** X6: closure returns the least set of items that holds the items given
    and is closed: a set without repetitions in which every item is one of
    those given or a production of the grammar with the dot in front. *)
Theorem closure_least_closed (G : Grammar) (S0 : list Item) :
  exists C,
    closure S0 G = Some C
    /\ NoDup C
    /\ incl S0 C
    /\ closed_under G C
    /\ (forall D, incl S0 D -> closed_under G D -> incl C D)
    /\ forall it, In it C ->
         In it S0 \/ exists A rhs, In (A, rhs) G /\ it = (A, rhs, 0).
Proof.
  destruct (closure_returns G S0) as [C [E [_ [I N]]]].
  exists C. split; [exact E|]. split; [exact N|]. split; [exact I|].
  split; [eapply closure_is_closed; exact E|].
  split.
  - intros D. apply closure_least. exact E.
  - intros it. apply closure_shape. exact E.
Qed.

(** The items that [goto] moves the dot of. *)
Definition moves (items : list Item) (symbol : Symbol) (it : Item) : Prop :=
  exists lhs rhs dot_pos,
    In (lhs, rhs, dot_pos) items /\ nth_error rhs dot_pos = Some symbol
    /\ it = (lhs, rhs, dot_pos + 1).

Lemma moved_items_In (symbol : Symbol) (items : list Item) :
  forall moved it,
    In it (fold_left
             (fun moved (it : Item) =>
                let '(lhs, rhs, dot_pos) := it in
                match nth_error rhs dot_pos with
                | Some x => if eqb x symbol then add moved (lhs, rhs, dot_pos + 1) else moved
                | None => moved
                end) items moved)
    <-> In it moved \/ moves items symbol it.
Proof.
  unfold moves. induction items as [|[[l r] d] items IH]; intros moved it; cbn [fold_left].
  - split; [auto|]. intros [H|[? [? [? [[] _]]]]]. exact H.
  - rewrite IH. clear IH. split.
    + intros [H|[lhs [rhs [dot [H1 [H2 H3]]]]]].
      * destruct (nth_error r d) as [x|] eqn:E; [|auto].
        destruct (eqb x symbol) eqn:Ex; [|auto].
        apply eqb_eq in Ex; subst x. apply add_In in H as [H| ->]; [auto|].
        right. exists l, r, d. simpl. auto.
      * right. exists lhs, rhs, dot. simpl. auto.
    + intros [H|[lhs [rhs [dot [[H1|H1] [H2 H3]]]]]].
      * left. destruct (nth_error r d) as [x|]; [|exact H].
        destruct (eqb x symbol); [apply add_In; auto | exact H].
      * inversion H1; subst. left. rewrite H2, eqb_refl. apply add_In. auto.
      * right. exists lhs, rhs, dot. auto.
Qed.

(** X7: goto returns on every input.  What it returns is empty when no item
    has the dot before the symbol; otherwise it is a closed set without
    repetitions that holds every item with the dot moved over the symbol,
    and in which every item is such an item or a production of the grammar
    with the dot in front. *)
Theorem goto_moves_and_closes (items : list Item) (symbol : Symbol) (G : Grammar) :
  exists J,
    goto items symbol G = Some J
    /\ NoDup J
    /\ (forall it, moves items symbol it -> In it J)
    /\ closed_under G J
    /\ (forall it, In it J ->
          moves items symbol it \/ exists A rhs, In (A, rhs) G /\ it = (A, rhs, 0))
    /\ (J = [] <-> forall it, ~ moves items symbol it).
Proof.
  unfold goto.
  match goal with
  | |- context [fold_left ?f items []] =>
    remember (fold_left f items []) as moved eqn:Em
  end.
  assert (M : forall it, In it moved <-> moves items symbol it).
  { intros it. rewrite Em, moved_items_In. simpl. tauto. }
  clear Em. destruct moved as [|m rest].
  - exists []. split; [reflexivity|]. split; [constructor|].
    split; [intros it Hm; apply M in Hm; destruct Hm|].
    split; [intros ? ? ? ? ? []|].
    split; [intros it []|].
    split; [intros _ it Hm; apply M in Hm; destruct Hm | reflexivity].
  - destruct (closure_returns G (m :: rest)) as [J [E [_ [I N]]]].
    exists J. split; [exact E|]. split; [exact N|].
    split; [intros it Hm; apply I, M; exact Hm|].
    split; [eapply closure_is_closed; exact E|].
    split; [intros it Hi; apply (@closure_shape G (m :: rest) J it E) in Hi as [Hi|Hi];
            [left; apply M; exact Hi | auto]|].
    split.
    + intros ->. exfalso. apply (I m). left; reflexivity.
    + intros Hn. exfalso. apply (Hn m). apply M. left; reflexivity.
Qed.
(* ===================================================================== *)
(** ** construct_lr0_item_sets: the canonical collection *)
(* ===================================================================== *)

(** Either no item has the dot before the symbol and goto returns the empty
    set, or goto returns the closure of the items with the dot moved. *)
Lemma goto_cases (items : list Item) (symbol : Symbol) (G : Grammar) :
  (goto items symbol G = Some [] /\ forall it, ~ moves items symbol it)
  \/ exists moved,
       moved <> [] /\ goto items symbol G = closure moved G
       /\ forall it, In it moved <-> moves items symbol it.
Proof.
  unfold goto.
  match goal with
  | |- context [fold_left ?f items []] =>
    remember (fold_left f items []) as moved eqn:Em
  end.
  assert (M : forall it, In it moved <-> moves items symbol it).
  { intros it. rewrite Em, moved_items_In. simpl. tauto. }
  clear Em. destruct moved as [|m rest].
  - left. split; [reflexivity|]. intros it Hm. apply M in Hm. destruct Hm.
  - right. exists (m :: rest). split; [discriminate|]. split; [reflexivity | exact M].
Qed.

Lemma goto_returns (items : list Item) (symbol : Symbol) (G : Grammar) :
  exists J, goto items symbol G = Some J.
Proof.
  destruct (goto_cases items symbol G) as [[E _]|[moved [_ [E _]]]].
  - exists []. exact E.
  - destruct (closure_returns G moved) as [J [EJ _]]. exists J. rewrite E. exact EJ.
Qed.

Lemma goto_nonempty (items : list Item) (symbol : Symbol) (G : Grammar) (J : list Item) :
  goto items symbol G = Some J -> J <> [] -> exists it, moves items symbol it.
Proof.
  intros E N. destruct (goto_cases items symbol G) as [[E' _]|[moved [Nm [_ M]]]].
  - rewrite E in E'. inversion E'. contradiction.
  - destruct moved as [|m rest]; [contradiction|]. exists m. apply M. left; reflexivity.
Qed.

(** Every item a state can hold: a production with the dot somewhere in its
    right-hand side or behind it. *)
Definition all_items (g : Grammar) : list Item :=
  flat_map (fun p => map (fun d => (fst p, snd p, d)) (seq 0 (S (length (snd p))))) g.

Lemma all_items_In (g : Grammar) (lhs : Symbol) (rhs : list Symbol) (dot_pos : nat) :
  In (lhs, rhs, dot_pos) (all_items g) <-> In (lhs, rhs) g /\ dot_pos <= length rhs.
Proof.
  unfold all_items. rewrite in_flat_map. split.
  - intros [[l r] [Hp Hi]]. cbn [fst snd] in Hi. apply in_map_iff in Hi as [d [E Hd]].
    inversion E; subst. apply in_seq in Hd. split; [exact Hp | lia].
  - intros [Hp Hd]. exists (lhs, rhs). split; [exact Hp|]. cbn [fst snd].
    apply in_map_iff. exists dot_pos. split; [reflexivity|]. apply in_seq. lia.
Qed.

Lemma closure_valid (g : Grammar) (S0 C : list Item) :
  incl S0 (all_items g) -> closure S0 g = Some C -> incl C (all_items g).
Proof.
  intros V E it Hi. apply (@closure_shape g S0 C it E) in Hi as [Hi|[A [rhs [Hp ->]]]].
  - apply V. exact Hi.
  - apply all_items_In. split; [exact Hp | lia].
Qed.

Lemma goto_valid (g : Grammar) (items : list Item) (symbol : Symbol) (J : list Item) :
  incl items (all_items g) -> goto items symbol g = Some J -> incl J (all_items g).
Proof.
  intros V E. destruct (goto_cases items symbol g) as [[E' _]|[moved [_ [E' M]]]].
  - rewrite E in E'. inversion E'. intros it [].
  - rewrite E in E'. symmetry in E'. apply (@closure_valid g moved J); [|exact E'].
    intros it Hi. apply M in Hi as [lhs [rhs [dot [Hi [Hn ->]]]]].
    apply V in Hi. apply all_items_In in Hi as [Hp _]. apply all_items_In.
    split; [exact Hp|].
    assert (L : dot < length rhs) by (apply nth_error_Some; congruence). lia.
Qed.

(** A symbol with a non-empty goto from a state is a symbol of the
    grammar. *)
Lemma goto_symbol (g : Grammar) (items : list Item) (symbol : Symbol) (J : list Item) :
  incl items (all_items g) -> goto items symbol g = Some J -> J <> [] ->
  In symbol (grammar_symbols g).
Proof.
  intros V E N. destruct (@goto_nonempty items symbol g J E N) as [it [lhs [rhs [dot [Hi [Hn _]]]]]].
  apply V in Hi. apply all_items_In in Hi as [Hp _].
  apply grammar_symbols_In. right. exists (lhs, rhs). split; [exact Hp|].
  cbn [snd]. eapply nth_error_In. exact Hn.
Qed.

Lemma insert_sorted_In (x y : str) (l : list str) :
  In y (insert_sorted x l) <-> y = x \/ In y l.
Proof.
  induction l as [|z l IH]; cbn [insert_sorted].
  - simpl. intuition.
  - destruct (str_ltb z x); simpl; rewrite ?IH; intuition.
Qed.

Lemma sorted_In (y : str) (l : list str) : In y (sorted l) <-> In y l.
Proof.
  induction l as [|x l IH]; cbn [sorted fold_right]; [tauto|].
  fold (sorted l). rewrite insert_sorted_In, IH. simpl. intuition.
Qed.

(** *** The index of a state *)

Lemma set_eqb_refl {A} `{EqDec A} (s : list A) : set_eqb s s = true.
Proof. apply set_eqb_iff. tauto. Qed.

(** [item_set_indices] when every state has its position as index. *)
Definition indexed_from (a : nat) (l : list (list Item)) : list (list Item * Z) :=
  combine l (map Z.of_nat (seq a (length l))).

Lemma indexed_from_cons (a : nat) (x : list Item) (l : list (list Item)) :
  indexed_from a (x :: l) = (x, Z.of_nat a) :: indexed_from (S a) l.
Proof. reflexivity. Qed.

Lemma indexed_from_app (l : list (list Item)) (x : list Item) :
  forall a, indexed_from a (l ++ [x]) = indexed_from a l ++ [(x, Z.of_nat (a + length l))].
Proof.
  induction l as [|y l IH]; intros a.
  - cbn. rewrite Nat.add_0_r. reflexivity.
  - cbn [app]. rewrite !indexed_from_cons, IH. cbn [app length].
    rewrite Nat.add_succ_r. reflexivity.
Qed.

Lemma index_of_indexed_Some (l : list (list Item)) (s : list Item) (j : Z) :
  forall a,
    index_of (indexed_from a l) s = Some j ->
    exists m k, j = Z.of_nat (a + m) /\ nth_error l m = Some k /\ set_eqb k s = true.
Proof.
  induction l as [|y l IH]; intros a; [discriminate|].
  rewrite indexed_from_cons. cbn [index_of]. destruct (set_eqb y s) eqn:E.
  - intros [= <-]. exists 0, y. rewrite Nat.add_0_r. auto.
  - intros H. apply IH in H as [m [k [-> [Hn Hk]]]]. exists (S m), k.
    split; [f_equal; lia | auto].
Qed.

Lemma index_of_indexed_None (l : list (list Item)) (s : list Item) :
  forall a,
    index_of (indexed_from a l) s = None -> forall k, In k l -> set_eqb k s = false.
Proof.
  induction l as [|y l IH]; intros a H k Hk; [destruct Hk|].
  rewrite indexed_from_cons in H. cbn [index_of] in H.
  destruct (set_eqb y s) eqn:E; [discriminate|].
  destruct Hk as [<- |Hk]; [exact E | eapply IH; eassumption].
Qed.

Lemma index_of_app_Some (ind extra : list (list Item * Z)) (s : list Item) (j : Z) :
  index_of ind s = Some j -> index_of (ind ++ extra) s = Some j.
Proof.
  induction ind as [|[k v] ind IH]; [discriminate|]. cbn [app index_of].
  destruct (set_eqb k s); auto.
Qed.

Lemma index_of_app_None (ind : list (list Item * Z)) (s k : list Item) (v : Z) :
  index_of ind s = None ->
  index_of (ind ++ [(k, v)]) s = if set_eqb k s then Some v else None.
Proof.
  induction ind as [|[k' v'] ind IH]; [reflexivity|]. cbn [app index_of].
  destruct (set_eqb k' s); [discriminate | auto].
Qed.

(** No two states are equal as sets. *)
Definition distinct_states (l : list (list Item)) : Prop :=
  forall i j I_ J,
    nth_error l i = Some I_ -> nth_error l j = Some J -> set_eqb I_ J = true -> i = j.

Lemma distinct_index (l : list (list Item)) (n : nat) (s : list Item) :
  distinct_states l -> nth_error l n = Some s ->
  index_of (indexed_from 0 l) s = Some (Z.of_nat n).
Proof.
  intros D Hn. destruct (index_of (indexed_from 0 l) s) as [j|] eqn:E.
  - apply index_of_indexed_Some in E as [m [k [-> [Hm Hk]]]].
    rewrite (D m n k s Hm Hn Hk). reflexivity.
  - pose proof (@index_of_indexed_None l s 0 E s (nth_error_In _ _ Hn)) as X.
    rewrite set_eqb_refl in X. discriminate X.
Qed.

Lemma set_eqb_sym {A} `{EqDec A} (s t : list A) : set_eqb s t = set_eqb t s.
Proof. unfold set_eqb. apply andb_comm. Qed.

Lemma distinct_app (l : list (list Item)) (s : list Item) :
  distinct_states l -> (forall k, In k l -> set_eqb k s = false) ->
  distinct_states (l ++ [s]).
Proof.
  intros D N i j I_ J Hi Hj E.
  destruct (Nat.lt_ge_cases i (length l)) as [Li|Li];
    destruct (Nat.lt_ge_cases j (length l)) as [Lj|Lj].
  - rewrite nth_error_app1 in Hi, Hj by assumption. eapply D; eassumption.
  - rewrite nth_error_app1 in Hi by assumption. rewrite nth_error_app2 in Hj by assumption.
    destruct (j - length l) as [|r] eqn:Er; [|destruct r; discriminate Hj].
    cbn in Hj. inversion Hj; subst J.
    rewrite (N I_ (nth_error_In _ _ Hi)) in E. discriminate E.
  - rewrite nth_error_app1 in Hj by assumption. rewrite nth_error_app2 in Hi by assumption.
    destruct (i - length l) as [|r] eqn:Er; [|destruct r; discriminate Hi].
    cbn in Hi. inversion Hi; subst I_. rewrite set_eqb_sym in E.
    rewrite (N J (nth_error_In _ _ Hj)) in E. discriminate E.
  - rewrite nth_error_app2 in Hi, Hj by assumption.
    destruct (i - length l) as [|r] eqn:Er; [|destruct r; discriminate Hi].
    destruct (j - length l) as [|r'] eqn:Er'; [|destruct r'; discriminate Hj].
    lia.
Qed.

(** *** How many states there can be *)

Fixpoint all_vectors (n : nat) : list (list bool) :=
  match n with
  | O => [[]]
  | S n' => map (cons true) (all_vectors n') ++ map (cons false) (all_vectors n')
  end.

Lemma all_vectors_length (n : nat) : length (all_vectors n) = 2 ^ n.
Proof.
  induction n as [|n IH]; [reflexivity|].
  cbn [all_vectors]. rewrite length_app, !length_map, IH. cbn [Nat.pow]. lia.
Qed.

Lemma all_vectors_In (v : list bool) : In v (all_vectors (length v)).
Proof.
  induction v as [|b v IH]; [left; reflexivity|].
  cbn [length all_vectors]. apply in_or_app.
  destruct b; [left | right]; apply in_map; exact IH.
Qed.

(** Which of the items [U] a state holds. *)
Definition membership (U s : list Item) : list bool := map (fun u => mem u s) U.

Lemma membership_inj (U s t : list Item) :
  incl s U -> incl t U -> membership U s = membership U t -> set_eqb s t = true.
Proof.
  intros Is It E. apply set_eqb_iff. intros x.
  assert (M : forall u, In u U -> mem u s = mem u t).
  { apply map_ext_in_iff. exact E. }
  split; intros Hx.
  - apply mem_In. rewrite <- M by (apply Is; exact Hx). apply mem_In. exact Hx.
  - apply mem_In. rewrite M by (apply It; exact Hx). apply mem_In. exact Hx.
Qed.

Lemma distinct_bound (U : list Item) (l : list (list Item)) :
  distinct_states l -> (forall s, In s l -> incl s U) -> length l <= 2 ^ length U.
Proof.
  intros D V. rewrite <- all_vectors_length, <- (length_map (membership U) l).
  apply NoDup_incl_length.
  - apply NoDup_nth_error. intros i j Li E. rewrite length_map in Li.
    rewrite !nth_error_map in E.
    destruct (nth_error l i) as [s|] eqn:Hi; [|apply nth_error_None in Hi; lia].
    destruct (nth_error l j) as [t|] eqn:Hj; [|discriminate E].
    cbn [option_map] in E. inversion E as [E'].
    apply (D i j s t Hi Hj).
    apply (@membership_inj U s t); [apply V | apply V | exact E'];
      eapply nth_error_In; eassumption.
  - intros v Hv. apply in_map_iff in Hv as [s [<- _]].
    pose proof (all_vectors_In (membership U s)) as X.
    unfold membership in X at 2. rewrite length_map in X. exact X.
Qed.

(** *** The invariant of the worklist loop *)

(** Writing the value a key has changes nothing; writing an absent key
    appends it. *)
Lemma set_present {K V : Type} `{EqDec K} (d : dict K V) (k : K) (v : V) :
  get d k = Some v -> set d k v = d.
Proof.
  induction d as [|[k0 v0] r IH]; cbn [get set]; [discriminate|].
  destruct (eqb k k0) eqn:E.
  - intros [= ->]. reflexivity.
  - intros G. rewrite (IH G). reflexivity.
Qed.

Lemma set_absent_end {K V : Type} `{EqDec K} (d : dict K V) (k : K) (v : V) :
  get d k = None -> set d k v = d ++ [(k, v)].
Proof.
  induction d as [|[k0 v0] r IH]; cbn [get set app]; [reflexivity|].
  destruct (eqb k k0) eqn:E; [discriminate|].
  intros G. rewrite (IH G). reflexivity.
Qed.

(** The first transition recorded to a state other than state 0 leaves a
    state of smaller index. *)
Definition first_from_earlier (gt : GotoTable) : Prop :=
  forall l1 i X j l2,
    gt = l1 ++ ((i, X), j) :: l2 -> ~ In j (map snd l1) -> j <> 0%Z -> (i < j)%Z.

Lemma first_from_earlier_set (gt : GotoTable) (k : Z * Symbol) (v : Z) :
  first_from_earlier gt ->
  (forall v', get gt k = Some v' -> v' = v) ->
  v = 0%Z \/ In v (map snd gt) \/ (fst k < v)%Z ->
  first_from_earlier (set gt k v).
Proof.
  intros F Same New. destruct (get gt k) as [v'|] eqn:G.
  - rewrite (Same v' eq_refl) in G. rewrite (set_present _ _ G). exact F.
  - rewrite (set_absent_end _ _ v G). intros l1 i X j l2 E N0 Nj.
    destruct l2 as [|x l2] using rev_ind.
    + apply app_inj_tail in E as [<- E]. inversion E; subst.
      destruct New as [N|[N|N]]; [contradiction | contradiction | exact N].
    + clear IHl2. rewrite app_comm_cons, app_assoc in E.
      apply app_inj_tail in E as [E _]. apply (F l1 i X j l2 E N0 Nj).
Qed.

Section Worklist.

Variable g : Grammar.
Variable symbols : list Symbol.
Variable initial : list Item.

(** Every transition recorded leads from a state to the state that is, as a
    set, the non-empty goto of the first on the symbol. *)
Definition table_ok (its : list (list Item)) (gt : GotoTable) : Prop :=
  forall i X j,
    get gt (i, X) = Some j ->
    exists n I_ J,
      i = Z.of_nat n /\ nth_error its n = Some I_
      /\ goto I_ X g = Some J /\ J <> []
      /\ index_of (indexed_from 0 its) J = Some j.

(** The states [1 .. bound-1] are the target of a transition. *)
Definition covered_upto (bound : nat) (gt : GotoTable) : Prop :=
  forall m, 0 < m < bound -> exists i X, get gt (i, X) = Some (Z.of_nat m).

(** The non-empty gotos of state [n] on the symbols [handled] are
    recorded. *)
Definition processed (its : list (list Item)) (gt : GotoTable) (n : nat)
    (handled : list Symbol) : Prop :=
  forall I_ X J,
    nth_error its n = Some I_ -> In X handled ->
    goto I_ X g = Some J -> J <> [] -> get gt (Z.of_nat n, X) <> None.

Record good (aut : Automaton) (done queue : list (list Item)) : Prop := {
  good_sets : item_sets aut = done ++ queue;
  good_first : nth_error (item_sets aut) 0 = Some initial;
  good_indices : item_set_indices aut = indexed_from 0 (item_sets aut);
  good_distinct : distinct_states (item_sets aut);
  good_valid : forall s, In s (item_sets aut) -> incl s (all_items g);
  good_table : table_ok (item_sets aut) (goto_table aut);
  good_covered : covered_upto (length (item_sets aut)) (goto_table aut);
  good_done : forall n, n < length done ->
                processed (item_sets aut) (goto_table aut) n symbols;
  good_keys : NoDup (keys (goto_table aut));
  good_forward : first_from_earlier (goto_table aut)
}.

Lemma table_ok_app (its : list (list Item)) (gt : GotoTable) (s : list Item) :
  table_ok its gt -> table_ok (its ++ [s]) gt.
Proof.
  intros T i X j H. destruct (T i X j H) as [n [I_ [J [E [Hn [Hg [Ne Hi]]]]]]].
  exists n, I_, J. split; [exact E|]. split.
  - rewrite nth_error_app1; [exact Hn|]. apply nth_error_Some. congruence.
  - split; [exact Hg|]. split; [exact Ne|].
    rewrite indexed_from_app. apply index_of_app_Some. exact Hi.
Qed.

Lemma table_ok_set (its : list (list Item)) (gt : GotoTable) (n : nat)
    (I_ : list Item) (X : Symbol) (J : list Item) (j : Z) :
  table_ok its gt -> nth_error its n = Some I_ -> goto I_ X g = Some J -> J <> [] ->
  index_of (indexed_from 0 its) J = Some j ->
  table_ok its (set gt (Z.of_nat n, X) j).
Proof.
  intros T Hn Hg Ne Hi i' X' j'. rewrite get_set.
  destruct (eqb (i', X') (Z.of_nat n, X)) eqn:E; [|apply T].
  apply eqb_eq in E. inversion E; subst. intros [= <-].
  exists n, I_, J. auto.
Qed.

(** A transition written again gets the value it had. *)
Lemma table_set_keeps (its : list (list Item)) (gt : GotoTable) (n : nat)
    (I_ : list Item) (X : Symbol) (J : list Item) (j : Z) (k : Z * Symbol) (v : Z) :
  table_ok its gt -> nth_error its n = Some I_ -> goto I_ X g = Some J ->
  index_of (indexed_from 0 its) J = Some j ->
  get gt k = Some v -> get (set gt (Z.of_nat n, X) j) k = Some v.
Proof.
  intros T Hn Hg Hi Hk. rewrite get_set.
  destruct (eqb k (Z.of_nat n, X)) eqn:E; [|exact Hk].
  apply eqb_eq in E. subst k.
  destruct (T _ _ _ Hk) as [n' [I' [J' [En [Hn' [Hg' [_ Hi']]]]]]].
  apply Nat2Z.inj in En. subst n'. rewrite Hn in Hn'. inversion Hn'; subst I'.
  rewrite Hg in Hg'. inversion Hg'; subst J'. rewrite Hi in Hi'. exact Hi'.
Qed.

(** A transition that is recorded has the index of the goto as value. *)
Lemma table_value_same (its : list (list Item)) (gt : GotoTable) (n : nat)
    (I_ : list Item) (X : Symbol) (J : list Item) (j v : Z) :
  table_ok its gt -> nth_error its n = Some I_ -> goto I_ X g = Some J ->
  index_of (indexed_from 0 its) J = Some j ->
  get gt (Z.of_nat n, X) = Some v -> v = j.
Proof.
  intros T Hn Hg Hi Hk.
  destruct (T _ _ _ Hk) as [n' [I' [J' [En [Hn' [Hg' [_ Hi']]]]]]].
  apply Nat2Z.inj in En. subst n'. rewrite Hn in Hn'. inversion Hn'; subst I'.
  rewrite Hg in Hg'. inversion Hg'; subst J'. rewrite Hi in Hi'.
  inversion Hi'. reflexivity.
Qed.

Lemma get_In_values (gt : GotoTable) (k : Z * Symbol) (v : Z) :
  get gt k = Some v -> In v (map snd gt).
Proof.
  intros G. apply get_Some_In in G. apply in_map_iff. exists (k, v). auto.
Qed.

Lemma covered_upto_set (its : list (list Item)) (gt : GotoTable) (bound n : nat)
    (I_ : list Item) (X : Symbol) (J : list Item) (j : Z) :
  table_ok its gt -> covered_upto bound gt ->
  nth_error its n = Some I_ -> goto I_ X g = Some J ->
  index_of (indexed_from 0 its) J = Some j ->
  covered_upto bound (set gt (Z.of_nat n, X) j).
Proof.
  intros T C Hn Hg Hi m Hm. destruct (C m Hm) as [i [X' Hk]].
  exists i, X'. eapply table_set_keeps; eassumption.
Qed.

Lemma processed_set (its : list (list Item)) (gt : GotoTable) (n : nat)
    (handled : list Symbol) (k : Z * Symbol) (v : Z) :
  processed its gt n handled -> processed its (set gt k v) n handled.
Proof.
  intros P I_ X J Hn HX Hg Ne. rewrite get_set.
  destruct (eqb (Z.of_nat n, X) k); [discriminate|]. eapply P; eassumption.
Qed.

Lemma processed_app (its : list (list Item)) (gt : GotoTable) (n : nat)
    (handled : list Symbol) (s : list Item) :
  n < length its -> processed its gt n handled -> processed (its ++ [s]) gt n handled.
Proof.
  intros L P I_ X J Hn. rewrite nth_error_app1 in Hn by exact L. apply P. exact Hn.
Qed.

Lemma processed_more (its : list (list Item)) (gt : GotoTable) (n : nat)
    (handled : list Symbol) (X : Symbol) :
  processed its gt n handled ->
  (forall I_ J, nth_error its n = Some I_ -> goto I_ X g = Some J -> J <> [] ->
                get gt (Z.of_nat n, X) <> None) ->
  processed its gt n (handled ++ [X]).
Proof.
  intros P Q I_ X' J Hn HX Hg Ne. apply in_app_iff in HX as [HX|[<- |[]]].
  - eapply P; eassumption.
  - eapply Q; eassumption.
Qed.

(** Lines 179-187 for one symbol keep the invariant. *)
Lemma explore_symbol_good (aut : Automaton) (done queue : list (list Item))
    (I_ : list Item) (handled : list Symbol) (symbol : Symbol) :
  good aut done (I_ :: queue) ->
  processed (item_sets aut) (goto_table aut) (length done) handled ->
  exists aut' queue',
    explore_symbol g I_ (Z.of_nat (length done)) (Some (aut, queue)) symbol
      = Some (aut', queue')
    /\ good aut' done (I_ :: queue')
    /\ processed (item_sets aut') (goto_table aut') (length done) (handled ++ [symbol]).
Proof.
  intros G P. destruct G as [Gs Gf Gi Gd Gv Gt Gc Gp Gk Gw].
  assert (Hn : nth_error (item_sets aut) (length done) = Some I_).
  { rewrite Gs, nth_error_app2, Nat.sub_diag by lia. reflexivity. }
  assert (Ld : length done < length (item_sets aut)).
  { apply nth_error_Some. congruence. }
  cbn [explore_symbol].
  destruct (goto_returns I_ symbol g) as [J Hg]. rewrite Hg.
  destruct J as [|x r].
  - exists aut, queue. split; [reflexivity|]. split; [constructor; assumption|].
    apply processed_more; [exact P|]. intros I' J' Hn' Hg' Ne.
    rewrite Hn in Hn'. inversion Hn'; subst I'. rewrite Hg in Hg'. inversion Hg'; subst J'.
    contradiction.
  - set (J := x :: r) in *.
    assert (NJ : J <> []) by discriminate.
    assert (VJ : incl J (all_items g)).
    { apply (@goto_valid g I_ symbol J); [|exact Hg].
      apply Gv. eapply nth_error_In. exact Hn. }
    rewrite Gi.
    destruct (index_of (indexed_from 0 (item_sets aut)) J) as [j|] eqn:Ei.
    + cbn [item_set_indices]. rewrite Gi, Ei.
      eexists. eexists. split; [reflexivity|]. cbn [item_sets goto_table]. split.
      * constructor; cbn [item_sets item_set_indices goto_table]; try assumption;
          try reflexivity.
        -- eapply table_ok_set; eassumption.
        -- eapply covered_upto_set; eassumption.
        -- intros n Ln. apply processed_set. apply Gp. exact Ln.
        -- apply keys_NoDup_set. exact Gk.
        -- apply first_from_earlier_set; [exact Gw | |].
           ++ intros v' Hv. apply (@table_value_same (item_sets aut) (goto_table aut)
                                     (length done) I_ symbol J j v' Gt Hn Hg Ei Hv).
           ++ destruct (index_of_indexed_Some _ _ _ Ei) as [m [k [Ej [Hm _]]]].
              cbn [Nat.add] in Ej. destruct m as [|m]; [left; exact Ej|].
              right; left.
              destruct (Gc (S m)) as [i' [X' Hk]].
              { split; [lia|]. apply nth_error_Some. congruence. }
              rewrite Ej. apply (get_In_values _ _ Hk).
      * apply processed_more; [apply processed_set; exact P|].
        intros I' J' _ _ _. rewrite get_set, eqb_refl. discriminate.
    + cbn [item_set_indices item_sets goto_table].
      assert (Ei' : index_of (indexed_from 0 (item_sets aut)
                                ++ [(J, Z.of_nat (length (item_sets aut)))]) J
                    = Some (Z.of_nat (length (item_sets aut)))).
      { rewrite (@index_of_app_None _ J J _ Ei), set_eqb_refl. reflexivity. }
      rewrite Ei'.
      assert (Ei2 : index_of (indexed_from 0 (item_sets aut ++ [J])) J
                    = Some (Z.of_nat (length (item_sets aut)))).
      { rewrite indexed_from_app. exact Ei'. }
      assert (Hn2 : nth_error (item_sets aut ++ [J]) (length done) = Some I_).
      { rewrite nth_error_app1 by exact Ld. exact Hn. }
      pose proof (table_ok_app J Gt) as Gt2.
      eexists. eexists. split; [reflexivity|]. cbn [item_sets goto_table]. split.
      * constructor; cbn [item_sets item_set_indices goto_table].
        -- rewrite Gs, <- app_assoc. reflexivity.
        -- rewrite nth_error_app1 by lia. exact Gf.
        -- rewrite indexed_from_app. reflexivity.
        -- apply distinct_app; [exact Gd|].
           eapply index_of_indexed_None. exact Ei.
        -- intros s Hs. apply in_app_iff in Hs as [Hs|[<- |[]]]; [apply Gv; exact Hs | exact VJ].
        -- eapply table_ok_set; eassumption.
        -- rewrite length_app. cbn [length]. rewrite Nat.add_1_r.
           intros m Hm. destruct (Nat.eq_dec m (length (item_sets aut))) as [-> |Nm].
           ++ exists (Z.of_nat (length done)), symbol. rewrite get_set, eqb_refl. reflexivity.
           ++ apply (@covered_upto_set (item_sets aut ++ [J]) (goto_table aut)
                       (length (item_sets aut)) (length done) I_ symbol J
                       (Z.of_nat (length (item_sets aut))) Gt2 Gc Hn2 Hg Ei2).
              lia.
        -- intros n Ln. apply processed_set. apply processed_app; [lia|].
           apply Gp. exact Ln.
        -- apply keys_NoDup_set. exact Gk.
        -- apply first_from_earlier_set; [exact Gw | |].
           ++ intros v' Hv. apply (@table_value_same (item_sets aut ++ [J]) (goto_table aut)
                                     (length done) I_ symbol J _ v' Gt2 Hn2 Hg Ei2 Hv).
           ++ right; right. cbn [fst]. lia.
      * apply processed_more.
        -- apply processed_set. apply processed_app; [exact Ld | exact P].
        -- intros I' J' _ _ _. rewrite get_set, eqb_refl. discriminate.
Qed.

(** The loop over the symbols keeps the invariant. *)
Lemma explore_symbols_good (done : list (list Item)) (I_ : list Item)
    (l : list Symbol) :
  forall aut queue handled,
    good aut done (I_ :: queue) ->
    processed (item_sets aut) (goto_table aut) (length done) handled ->
    exists aut' queue',
      fold_left (explore_symbol g I_ (Z.of_nat (length done))) l (Some (aut, queue))
        = Some (aut', queue')
      /\ good aut' done (I_ :: queue')
      /\ processed (item_sets aut') (goto_table aut') (length done) (handled ++ l).
Proof.
  induction l as [|symbol l IH]; intros aut queue handled G P; cbn [fold_left].
  - exists aut, queue. rewrite app_nil_r. auto.
  - destruct (@explore_symbol_good aut done queue I_ handled symbol G P)
      as [aut1 [queue1 [E [G1 P1]]]].
    rewrite E. destruct (IH aut1 queue1 (handled ++ [symbol]) G1 P1)
      as [aut2 [queue2 [E2 [G2 P2]]]].
    exists aut2, queue2. rewrite <- app_assoc in P2. auto.
Qed.

(** The loop returns once its fuel exceeds the number of states that can
    still be taken from the queue. *)
Lemma explore_good (fuel : nat) :
  forall aut done queue,
    good aut done queue ->
    2 ^ length (all_items g) - length done < fuel ->
    exists aut',
      explore fuel g symbols aut queue = Some aut'
      /\ good aut' (item_sets aut') [].
Proof.
  induction fuel as [|fuel IH]; intros aut done queue G L; [lia|].
  cbn [explore]. destruct queue as [|I_ queue].
  - exists aut. split; [reflexivity|].
    destruct G as [Gs Gf Gi Gd Gv Gt Gc Gp Gk Gw]. rewrite app_nil_r in Gs.
    constructor; try assumption; [rewrite app_nil_r; reflexivity|].
    intros n Ln. apply Gp. rewrite <- Gs. exact Ln.
  - pose proof G as [Gs Gf Gi Gd Gv Gt Gc Gp Gk Gw].
    assert (Hn : nth_error (item_sets aut) (length done) = Some I_).
    { rewrite Gs, nth_error_app2, Nat.sub_diag by lia. reflexivity. }
    rewrite Gi, (@distinct_index (item_sets aut) (length done) I_ Gd Hn).
    destruct (@explore_symbols_good done I_ symbols aut queue [] G)
      as [aut1 [queue1 [E [G1 P1]]]].
    { intros ? ? ? _ []. }
    rewrite E. cbn [app] in P1.
    destruct G1 as [Gs1 Gf1 Gi1 Gd1 Gv1 Gt1 Gc1 Gp1 Gk1 Gw1].
    assert (B : length (item_sets aut1) <= 2 ^ length (all_items g)).
    { apply distinct_bound; assumption. }
    assert (Ld : length done < length (item_sets aut1)).
    { rewrite Gs1, length_app. cbn [length]. lia. }
    apply (IH aut1 (done ++ [I_]) queue1).
    + constructor; try assumption.
      * rewrite Gs1, <- app_assoc. reflexivity.
      * intros n Ln. rewrite length_app in Ln. cbn [length] in Ln.
        destruct (Nat.eq_dec n (length done)) as [-> |Nn]; [exact P1|].
        apply Gp1. lia.
    + rewrite length_app. cbn [length]. lia.
Qed.

Lemma explore_more_fuel (fuel : nat) :
  forall fuel' aut queue r,
    explore fuel g symbols aut queue = Some r -> fuel <= fuel' ->
    explore fuel' g symbols aut queue = Some r.
Proof.
  induction fuel as [|fuel IH]; intros fuel' aut queue r E L; [discriminate|].
  destruct fuel' as [|fuel']; [lia|]. cbn [explore] in *.
  destruct queue as [|I_ queue]; [exact E|].
  destruct (index_of (item_set_indices aut) I_); [|discriminate].
  destruct (fold_left _ symbols _) as [[aut1 queue1]|]; [|discriminate].
  apply IH; [exact E | lia].
Qed.

End Worklist.

Lemma construct_more_fuel (g : Grammar) (fuel fuel' : nat)
    (r : result (list (list Item) * GotoTable)) :
  construct_lr0_item_sets fuel g = Some r -> fuel <= fuel' ->
  construct_lr0_item_sets fuel' g = Some r.
Proof.
  unfold construct_lr0_item_sets. destruct g as [|[lhs0 rhs0] rest]; [auto|].
  destruct (closure _ _) as [initial|]; [|discriminate].
  destruct (explore fuel _ _ _ _) as [aut|] eqn:E; [|discriminate].
  intros H L. rewrite (@explore_more_fuel _ _ fuel fuel' _ _ aut E L). exact H.
Qed.

(** The collection that is returned on a grammar with a first production,
    with the invariant of the worklist loop. *)
Lemma lr0_collection_good (lhs0 : Symbol) (rhs0 : list Symbol) (rest : Grammar) :
  let g := (lhs0, rhs0) :: rest in
  exists aut initial,
    (forall fuel,
        2 ^ length (all_items g) < fuel ->
        construct_lr0_item_sets fuel g = Some (Ok (item_sets aut, goto_table aut)))
    /\ closure [(lhs0, rhs0, 0)] g = Some initial
    /\ good g (sorted (grammar_symbols g)) initial aut (item_sets aut) [].
Proof.
  intros g.
  destruct (closure_returns g [(lhs0, rhs0, 0)]) as [initial [Ec [_ [Ic _]]]].
  set (symbols := sorted (grammar_symbols g)).
  set (aut0 := {| item_sets := [initial]; item_set_indices := [(initial, 0%Z)];
                  goto_table := [] |}).
  assert (G0 : good g symbols initial aut0 [] [initial]).
  { unfold aut0. constructor; cbn [item_sets item_set_indices goto_table app length].
    - reflexivity.
    - reflexivity.
    - reflexivity.
    - intros [|i] [|j] I_ J Hi Hj _; try reflexivity.
      + destruct j; discriminate Hj.
      + destruct i; discriminate Hi.
      + destruct i; discriminate Hi.
    - intros s [<- |[]]. apply (@closure_valid g [(lhs0, rhs0, 0)] initial); [|exact Ec].
      intros it [<- |[]]. apply all_items_In. split; [left; reflexivity | lia].
    - intros i X j H. discriminate H.
    - intros m Hm. lia.
    - intros n Hn. lia.
    - constructor.
    - intros [|e l1] i X j l2 E; discriminate E. }
  destruct (@explore_good g symbols initial (S (2 ^ length (all_items g))) aut0 []
              [initial] G0) as [aut [E G]].
  { cbn [length]. lia. }
  exists aut, initial. split; [|split; [exact Ec | exact G]].
  intros fuel L. unfold construct_lr0_item_sets. unfold g at 1. cbv beta iota.
  rewrite Ec. fold symbols. fold aut0.
  rewrite (@explore_more_fuel g symbols (S (2 ^ length (all_items g))) fuel aut0
             [initial] aut E) by lia.
  reflexivity.
Qed.

(** X8: on a grammar with at least one production, construct_lr0_item_sets
    returns as soon as its worklist loop is given more rounds than there are
    sets of items.  The first state is the closure of the item of the first
    production; no two states are equal as sets; every transition recorded
    leads from a state to the state that is, as a set, the non-empty goto of
    the first on the symbol; every non-empty goto of a state is recorded; and
    every state but the first is the target of a transition. *)
Theorem lr0_collection_complete (lhs0 : Symbol) (rhs0 : list Symbol) (rest : Grammar) :
  let g := (lhs0, rhs0) :: rest in
  exists item_sets goto_table initial others,
    (forall fuel,
        2 ^ length (all_items g) < fuel ->
        construct_lr0_item_sets fuel g = Some (Ok (item_sets, goto_table)))
    /\ closure [(lhs0, rhs0, 0)] g = Some initial
    /\ item_sets = initial :: others
    /\ (forall i j I_ J,
          nth_error item_sets i = Some I_ -> nth_error item_sets j = Some J ->
          set_eqb I_ J = true -> i = j)
    /\ (forall i X j,
          get goto_table (i, X) = Some j ->
          exists n m I_ J J',
            i = Z.of_nat n /\ j = Z.of_nat m
            /\ nth_error item_sets n = Some I_ /\ nth_error item_sets m = Some J
            /\ goto I_ X g = Some J' /\ J' <> [] /\ set_eqb J J' = true)
    /\ (forall n I_ X J',
          nth_error item_sets n = Some I_ -> goto I_ X g = Some J' -> J' <> [] ->
          get goto_table (Z.of_nat n, X) <> None)
    /\ (forall m, 0 < m < length item_sets ->
          exists i X, get goto_table (i, X) = Some (Z.of_nat m)).
Proof.
  intros g.
  destruct (lr0_collection_good lhs0 rhs0 rest) as [aut [initial [R [Ec G]]]].
  fold g in R, Ec, G.
  destruct G as [Gs Gf Gi Gd Gv Gt Gc Gp Gk Gw].
  destruct (item_sets aut) as [|first others] eqn:Es; [discriminate Gf|].
  cbn [nth_error] in Gf. inversion Gf; subst first.
  exists (initial :: others), (goto_table aut), initial, others.
  split; [exact R|]. split; [exact Ec|]. split; [reflexivity|]. split; [exact Gd|].
  split; [|split].
  - intros i X j H. destruct (Gt i X j H) as [n [I_ [J' [En [Hn [Hg [Ne Hi]]]]]]].
    apply index_of_indexed_Some in Hi as [m [J [Ej [Hm Hk]]]].
    exists n, m, I_, J, J'. cbn [Nat.add] in Ej. auto 10.
  - intros n I_ X J' Hn Hg Ne.
    assert (Ln : n < length (initial :: others)) by (apply nth_error_Some; congruence).
    apply (Gp n Ln I_ X J' Hn); [|exact Hg | exact Ne].
    apply sorted_In. apply (@goto_symbol g I_ X J'); [|exact Hg | exact Ne].
    apply Gv. eapply nth_error_In. exact Hn.
  - exact Gc.
Qed.
(* ===================================================================== *)
(** ** build_slr_parsing_table: the GOTO part *)
(* ===================================================================== *)

Section GotoPart.

Variable nonterminals : list Symbol.
Variable goto_table : GotoTable.

Lemma table_gotos_get (i : Z) (nts : list Symbol) :
  forall out i' A,
    get (table_gotos nts goto_table i out) (i', A) =
    if eqb i' i && mem A nts
    then match get goto_table (i, A) with
         | Some j => Some j
         | None => get out (i', A)
         end
    else get out (i', A).
Proof.
  unfold table_gotos. induction nts as [|x nts IH]; intros out i' A; cbn [fold_left mem].
  - rewrite andb_false_r. reflexivity.
  - rewrite IH. destruct (eqb i' i) eqn:Ei; cbn [andb].
    + apply eqb_eq in Ei; subst i'. destruct (eqb A x) eqn:Ex; cbn [orb].
      * apply eqb_eq in Ex; subst x. destruct (get goto_table (i, A)) as [j|] eqn:G.
        -- destruct (mem A nts); [reflexivity|]. rewrite get_set, eqb_refl. reflexivity.
        -- destruct (mem A nts); reflexivity.
      * assert (K : forall j, get (set out (i, x) j) (i, A) = get out (i, A)).
        { intros j. rewrite get_set, cell_key_eqb, Ex, andb_false_r. reflexivity. }
        destruct (mem A nts).
        -- destruct (get goto_table (i, A)); [reflexivity|].
           destruct (get goto_table (i, x)); [apply K | reflexivity].
        -- destruct (get goto_table (i, x)); [apply K | reflexivity].
    + destruct (get goto_table (i, x)); [|reflexivity].
      rewrite get_set, cell_key_eqb, Ei. reflexivity.
Qed.

Lemma gotos_from_get (n : nat) :
  forall i0 go i A,
    get (gotos_from goto_table nonterminals i0 n go) (i, A) =
    if (i0 <=? i)%Z && (i <? i0 + Z.of_nat n)%Z && mem A nonterminals
    then match get goto_table (i, A) with
         | Some j => Some j
         | None => get go (i, A)
         end
    else get go (i, A).
Proof.
  induction n as [|n IH]; intros i0 go i A; cbn [gotos_from].
  - replace ((i0 <=? i)%Z && (i <? i0 + Z.of_nat 0)%Z) with false; [reflexivity|].
    symmetry. apply andb_false_iff.
    destruct (Z.leb_spec i0 i); [right; apply Z.ltb_ge; lia | left; reflexivity].
  - rewrite IH, table_gotos_get. change (eqb i i0) with (Z.eqb i i0).
    destruct (Z.eqb_spec i i0) as [-> |Ne].
    + replace ((Z.succ i0 <=? i0)%Z) with false by (symmetry; apply Z.leb_gt; lia).
      replace ((i0 <=? i0)%Z) with true by (symmetry; apply Z.leb_le; lia).
      replace ((i0 <? i0 + Z.of_nat (S n))%Z) with true by (symmetry; apply Z.ltb_lt; lia).
      reflexivity.
    + cbn [andb].
      replace ((Z.succ i0 <=? i)%Z) with ((i0 <=? i)%Z).
      2:{ destruct (Z.leb_spec i0 i); symmetry; [apply Z.leb_le | apply Z.leb_gt]; lia. }
      replace ((i <? Z.succ i0 + Z.of_nat n)%Z) with ((i <? i0 + Z.of_nat (S n))%Z).
      2:{ destruct (Z.ltb_spec i (i0 + Z.of_nat (S n))); symmetry;
            [apply Z.ltb_lt | apply Z.ltb_ge]; lia. }
      reflexivity.
Qed.

Lemma states_gotos (terminals : list Symbol) (prod_map : dict (Symbol * list Symbol) Z)
    (follow_sets : FollowSets) (item_sets : list (list Item)) :
  forall i0 action_table go st,
    for_each (table_state nonterminals terminals prod_map goto_table follow_sets)
             item_sets (i0, action_table, go) = Ok st ->
    snd st = gotos_from goto_table nonterminals i0 (length item_sets) go.
Proof.
  induction item_sets as [|items rest IH]; intros i0 action_table go st; cbn [for_each].
  - intros [= <-]. reflexivity.
  - unfold table_state at 1.
    destruct (for_each _ items action_table) as [mid|e]; cbn [bind]; [|discriminate].
    intros E. apply IH in E. exact E.
Qed.

End GotoPart.

(** X9: the GOTO table that build_slr_parsing_table returns is the table of
    transitions restricted to the states there are and to the left-hand
    sides of the grammar. *)
Theorem build_goto_projection (isupper : str -> bool) (grammar : Grammar)
    (item_sets : list (list Item)) (goto_table : GotoTable) (follow_sets : FollowSets)
    (action_table : ActionTable) (goto_table_out : GotoTable) :
  build_slr_parsing_table isupper grammar item_sets goto_table follow_sets
    = Ok (action_table, goto_table_out) ->
  forall i A j,
    get goto_table_out (i, A) = Some j <->
    (0 <= i < Z.of_nat (length item_sets))%Z
    /\ In A (map fst grammar)
    /\ get goto_table (i, A) = Some j.
Proof.
  unfold build_slr_parsing_table. rewrite table_classify_eq.
  match goal with
  | |- context [for_each ?body item_sets ?s0] =>
    destruct (for_each body item_sets s0) as [st|e] eqn:E; cbn [bind]; [|discriminate]
  end.
  destruct (lookup follow_sets (lit "L")); cbn [bind]; [|discriminate].
  intros [= _ <-] i A j.
  apply states_gotos in E. rewrite E, gotos_from_get. cbn [get].
  rewrite <- (mem_In A (map fst grammar)).
  assert (M : mem A (of_list (map fst grammar)) = mem A (map fst grammar)).
  { destruct (mem A (map fst grammar)) eqn:M1.
    - apply mem_In. apply of_list_In. apply mem_In. exact M1.
    - apply mem_false. rewrite of_list_In. apply mem_false. exact M1. }
  rewrite M.
  destruct (Z.leb_spec 0 i); destruct (Z.ltb_spec i (0 + Z.of_nat (length item_sets)));
    cbn [andb]; destruct (mem A (map fst grammar)); cbn [andb];
    try (split; [discriminate | intros [? [? ?]]; try discriminate; lia]).
  destruct (get goto_table (i, A)); split; try discriminate; try tauto.
Qed.

Lemma build_goto_projection_witness :
  exists action_table goto_table_out,
    build_slr_parsing_table ascii_isupper fixed_grammar fixed_item_sets fixed_goto
      fixed_follow = Ok (action_table, goto_table_out)
    /\ forall i A j,
         get goto_table_out (i, A) = Some j <->
         (0 <= i < Z.of_nat (length fixed_item_sets))%Z
         /\ In A (map fst fixed_grammar)
         /\ get fixed_goto (i, A) = Some j.
Proof.
  eexists. eexists. split; [vm_compute; reflexivity|].
  eapply (@build_goto_projection ascii_isupper fixed_grammar fixed_item_sets fixed_goto
            fixed_follow).
  vm_compute. reflexivity.
Defined.

(* ===================================================================== *)
(** ** build_slr_parsing_table: when it returns *)
(* ===================================================================== *)

Lemma number_productions_fold (p : Symbol * list Symbol) (g : Grammar) :
  forall a d,
    (get (snd (fold_left (fun st q => (Z.succ (fst st), set (snd st) q (fst st)))
                         g (Z.of_nat a, d))) p <> None
     <-> get d p <> None \/ In p g)
    /\ forall n,
         get (snd (fold_left (fun st q => (Z.succ (fst st), set (snd st) q (fst st)))
                             g (Z.of_nat a, d))) p = Some n ->
         get d p = Some n
         \/ exists k, n = Z.of_nat (a + k) /\ nth_error g k = Some p.
Proof.
  induction g as [|q g IH]; intros a d; cbn [fold_left fst snd].
  - split; [simpl; tauto | auto].
  - rewrite <- Nat2Z.inj_succ. destruct (IH (S a) (set d q (Z.of_nat a))) as [H1 H2].
    split.
    + rewrite H1, get_set.
      match goal with |- context [if ?c then _ else _] => destruct c eqn:E end.
      * apply eqb_eq in E. subst q. split; [intros _; right; left; reflexivity|].
        intros _. left. discriminate.
      * apply eqb_neq in E. simpl. split; intros [H|H]; auto.
        destruct H as [H|H]; [congruence | auto].
    + intros n Hn. apply H2 in Hn as [Hn|[k [-> Hk]]].
      * rewrite get_set in Hn.
        match type of Hn with context [if ?c then _ else _] => destruct c eqn:E end;
          [|auto].
        apply eqb_eq in E. subst q. inversion Hn. right. exists 0.
        rewrite Nat.add_0_r. auto.
      * right. exists (S k). split; [f_equal; lia | exact Hk].
Qed.

(** The number of a production is an index at which the grammar has it. *)
Lemma number_productions_spec (g : Grammar) (p : Symbol * list Symbol) :
  (has (number_productions g) p = true <-> In p g)
  /\ forall n, get (number_productions g) p = Some n ->
       exists k, n = Z.of_nat k /\ nth_error g k = Some p.
Proof.
  unfold number_productions. destruct (number_productions_fold p g 0 []) as [H1 H2].
  cbn [Z.of_nat] in H1, H2. split.
  - rewrite has_In_keys, <- get_In_keys, H1. simpl. intuition congruence.
  - intros n Hn. apply H2 in Hn as [Hn|Hn]; [discriminate Hn | exact Hn].
Qed.

Section ReturnsIff.

Variable terminals : list Symbol.
Variable prod_map : dict (Symbol * list Symbol) Z.
Variable goto_table : GotoTable.
Variable follow_sets : FollowSets.

Lemma table_item_returned (i : Z) (action_table action_table' : ActionTable)
    (item : Item) :
  table_item terminals prod_map goto_table follow_sets i action_table item
    = Ok action_table' ->
  item_ok prod_map follow_sets item = true.
Proof.
  unfold table_item, item_ok, lookup, has. destruct item as [[lhs rhs] dot_pos].
  destruct (nth_error rhs dot_pos); [reflexivity|].
  destruct (eqb lhs (lit "S'")); [reflexivity|]. cbn [orb].
  destruct (get prod_map (lhs, rhs)); cbn [bind]; [|discriminate].
  destruct (get follow_sets lhs); cbn [bind]; [reflexivity | discriminate].
Qed.

Lemma state_items_returned (i : Z) (items : list Item) :
  forall action_table action_table',
    for_each (table_item terminals prod_map goto_table follow_sets i) items action_table
      = Ok action_table' ->
    forallb (item_ok prod_map follow_sets) items = true.
Proof.
  induction items as [|item items IH]; intros action_table action_table';
    cbn [for_each forallb]; [reflexivity|].
  destruct (table_item _ _ _ _ i action_table item) as [mid|e] eqn:E; cbn [bind];
    [|discriminate].
  intros E'. rewrite (table_item_returned _ _ _ E), (IH _ _ E'). reflexivity.
Qed.

Lemma states_returned (nonterminals : list Symbol) (item_sets : list (list Item)) :
  forall st st',
    for_each (table_state nonterminals terminals prod_map goto_table follow_sets)
             item_sets st = Ok st' ->
    Forall (fun items => forallb (item_ok prod_map follow_sets) items = true) item_sets.
Proof.
  induction item_sets as [|items rest IH]; intros [[i0 action_table] go] st';
    cbn [for_each]; [constructor|].
  unfold table_state at 1.
  destruct (for_each _ items action_table) as [mid|e] eqn:E; cbn [bind]; [|discriminate].
  intros E'. constructor; [eapply state_items_returned; exact E | eapply IH; exact E'].
Qed.

End ReturnsIff.

(** The items line 233 and line 234 find their keys for. *)
Definition item_ready (grammar : Grammar) (follow_sets : FollowSets) (item : Item)
    : Prop :=
  let '(lhs, rhs, dot_pos) := item in
  nth_error rhs dot_pos = None -> lhs <> lit "S'" ->
  In (lhs, rhs) grammar /\ In lhs (keys follow_sets).

Lemma item_ok_ready (grammar : Grammar) (follow_sets : FollowSets) (item : Item) :
  item_ok (number_productions grammar) follow_sets item = true
  <-> item_ready grammar follow_sets item.
Proof.
  unfold item_ok, item_ready. destruct item as [[lhs rhs] dot_pos].
  destruct (nth_error rhs dot_pos).
  - split; [intros _ H; discriminate H | reflexivity].
  - destruct (eqb lhs (lit "S'")) eqn:E; cbn [orb].
    + apply eqb_eq in E. split; [intros _ _ N; contradiction | reflexivity].
    + apply eqb_neq in E. rewrite andb_true_iff.
      rewrite (proj1 (number_productions_spec grammar (lhs, rhs))), has_In_keys.
      split; [intros H _ _; exact H | intros H; apply H; [reflexivity | exact E]].
Qed.

(** X10: build_slr_parsing_table returns exactly when every item with the
    dot at the end, other than those of S', is a production of the grammar
    whose left-hand side has a FOLLOW set, and 'L' has a FOLLOW set;
    otherwise it raises KeyError. *)
Theorem build_returns_iff (isupper : str -> bool) (grammar : Grammar)
    (item_sets : list (list Item)) (goto_table : GotoTable) (follow_sets : FollowSets) :
  ((exists tables,
       build_slr_parsing_table isupper grammar item_sets goto_table follow_sets
       = Ok tables)
   <-> (forall items item, In items item_sets -> In item items ->
          item_ready grammar follow_sets item)
       /\ In (lit "L") (keys follow_sets))
  /\ forall e,
       build_slr_parsing_table isupper grammar item_sets goto_table follow_sets
       = Raise e -> e = KeyError.
Proof.
  split; [split|].
  - intros [tables B]. unfold build_slr_parsing_table in B.
    destruct (table_classify isupper grammar) as [nts ts].
    match type of B with
    | context [for_each ?body item_sets ?s0] =>
      destruct (for_each body item_sets s0) as [st|e] eqn:E; cbn [bind] in B;
        [|discriminate]
    end.
    apply states_returned in E. rewrite Forall_forall in E. split.
    + intros items item Hs Hi. apply item_ok_ready.
      specialize (E items Hs). rewrite forallb_forall in E. apply E. exact Hi.
    + unfold lookup in B. apply get_In_keys. intros X.
      match type of B with
      | context [match ?c with Some _ => _ | None => _ end] =>
        assert (Y : c = None) by exact X; rewrite Y in B
      end.
      discriminate B.
  - intros [R L].
    destruct (@build_returns isupper grammar goto_table follow_sets item_sets)
      as [action_table [goto_table_out B]].
    + apply Forall_forall. intros items Hs. apply forallb_forall. intros item Hi.
      apply item_ok_ready. apply (R items item Hs Hi).
    + apply get_In_keys. exact L.
    + exists (action_table, goto_table_out). exact B.
  - intros e. unfold build_slr_parsing_table.
    destruct (table_classify isupper grammar) as [nts ts].
    match goal with
    | |- context [for_each ?body item_sets ?s0] =>
      destruct (for_each body item_sets s0) as [st|e'] eqn:E; cbn [bind]
    end.
    + destruct (lookup follow_sets (lit "L")) eqn:EL; cbn [bind]; [discriminate|].
      intros [= <-]. revert EL. apply lookup_raises.
    + intros [= <-]. revert E. apply (for_each_raises (fun e => e = KeyError)).
      intros s x e0. apply table_state_raises.
Qed.

(* ===================================================================== *)
(** ** build_slr_parsing_table: which cells of ACTION are written *)
(* ===================================================================== *)

Section ActionCells.

Variable terminals : list Symbol.
Variable prod_map : dict (Symbol * list Symbol) Z.
Variable goto_table : GotoTable.
Variable follow_sets : FollowSets.
Hypothesis follow_sets_NoDup : forall lhs F, get follow_sets lhs = Some F -> NoDup F.

(** The items that write into the cell [(i, b)]: a shift over the terminal
    [b] that has a transition, the accept on '$', or a reduce on a member of
    the FOLLOW set. *)
Definition shifts_on (i : Z) (b : Symbol) (item : Item) : Prop :=
  let '(lhs, rhs, dot_pos) := item in
  nth_error rhs dot_pos = Some b /\ In b terminals /\ get goto_table (i, b) <> None.

Definition accepts_on (b : Symbol) (item : Item) : Prop :=
  let '(lhs, rhs, dot_pos) := item in
  nth_error rhs dot_pos = None /\ lhs = lit "S'" /\ b = END_MARKER.

Definition reduces_on (b : Symbol) (item : Item) : Prop :=
  let '(lhs, rhs, dot_pos) := item in
  nth_error rhs dot_pos = None /\ lhs <> lit "S'"
  /\ get prod_map (lhs, rhs) <> None
  /\ exists F, get follow_sets lhs = Some F /\ In b F.

Definition acts_on (i : Z) (b : Symbol) (item : Item) : Prop :=
  shifts_on i b item \/ accepts_on b item \/ reduces_on b item.

Lemma cell_after_item_acts (i : Z) (b : Symbol) (old : option str) (item : Item) :
  cell_after_item terminals prod_map goto_table follow_sets i b old item <> None
  <-> old <> None \/ acts_on i b item.
Proof.
  unfold cell_after_item, acts_on, shifts_on, accepts_on, reduces_on.
  destruct item as [[lhs rhs] dot_pos].
  destruct (nth_error rhs dot_pos) as [a|].
  - destruct (mem a terminals) eqn:M.
    + apply mem_In in M. destruct (get goto_table (i, a)) as [j|] eqn:G.
      * destruct (eqb b a) eqn:E.
        -- apply eqb_eq in E. subst a. split; [intros _; right; left|discriminate].
           rewrite G. repeat split; [exact M | discriminate].
        -- apply eqb_neq in E. split; [auto|].
           intros [H|[[H _]|[[H _]|[H _]]]]; try discriminate; [exact H|].
           inversion H. congruence.
      * split; [auto|].
        intros [H|[[H [_ X]]|[[H _]|[H _]]]]; try discriminate; [exact H|].
        inversion H; subst a. contradiction.
    + apply mem_false in M. split; [auto|].
      intros [H|[[H [X _]]|[[H _]|[H _]]]]; try discriminate; [exact H|].
      inversion H; subst a. contradiction.
  - destruct (eqb lhs (lit "S'")) eqn:E.
    + apply eqb_eq in E. destruct (eqb b END_MARKER) eqn:Eb.
      * apply eqb_eq in Eb. split; [intros _; right; right; left; auto | discriminate].
      * apply eqb_neq in Eb. split; [auto|].
        intros [H|[[H _]|[[_ [_ H]]|[_ [H _]]]]]; try discriminate;
          [exact H | contradiction | contradiction].
    + apply eqb_neq in E.
      destruct (get prod_map (lhs, rhs)) as [n|] eqn:Gp.
      * destruct (get follow_sets lhs) as [F|] eqn:Gf.
        -- destruct (mem b F) eqn:M.
           ++ apply mem_In in M. split; [|destruct old; discriminate].
              intros _. right. right. right.
              repeat split; [exact E | discriminate | exists F; auto].
           ++ apply mem_false in M. split; [auto|].
              intros [H|[[H _]|[[_ [H _]]|[_ [_ [_ [F' [H1 H2]]]]]]]];
                try discriminate; [exact H | contradiction|].
              inversion H1; subst F'. contradiction.
        -- split; [auto|].
           intros [H|[[H _]|[[_ [H _]]|[_ [_ [_ [F' [H1 H2]]]]]]]];
             try discriminate; [exact H | contradiction].
      * split; [auto|].
        intros [H|[[H _]|[[_ [H _]]|[_ [_ [H _]]]]]];
          try discriminate; [exact H | contradiction | contradiction].
Qed.

Lemma cell_fold_acts (i : Z) (b : Symbol) (items : list Item) :
  forall old,
    fold_left (cell_after_item terminals prod_map goto_table follow_sets i b) items old
      <> None
    <-> old <> None \/ exists item, In item items /\ acts_on i b item.
Proof.
  induction items as [|item items IH]; intros old; cbn [fold_left].
  - split; [auto|]. intros [H|[item [[] _]]]. exact H.
  - rewrite IH, cell_after_item_acts. split.
    + intros [[H|H]|[it [Hi Ha]]]; [auto | |].
      * right. exists item. simpl. auto.
      * right. exists it. simpl. auto.
    + intros [H|[it [[<- |Hi] Ha]]]; [auto | auto |].
      right. exists it. auto.
Qed.

Lemma states_after (nonterminals : list Symbol) (item_sets : list (list Item))
    (j : Z) (b : Symbol) :
  forall i0 action_table go st,
    for_each (table_state nonterminals terminals prod_map goto_table follow_sets)
             item_sets (i0, action_table, go) = Ok st ->
    (i0 + Z.of_nat (length item_sets) <= j)%Z ->
    get (snd (fst st)) (j, b) = get action_table (j, b).
Proof.
  induction item_sets as [|items rest IH]; intros i0 action_table go st;
    cbn [for_each].
  - intros [= <-] _. reflexivity.
  - unfold table_state at 1.
    destruct (for_each _ items action_table) as [mid|e] eqn:E; cbn [bind]; [|discriminate].
    intros E' L. cbn [length] in L. rewrite (IH _ _ _ _ E') by lia.
    rewrite (@state_items_get terminals prod_map goto_table follow_sets
               follow_sets_NoDup i0 items j b action_table mid E).
    change (eqb j i0) with (Z.eqb j i0).
    destruct (Z.eqb_spec j i0); [lia | reflexivity].
Qed.

End ActionCells.

(** X11: which cells of the ACTION table are written does not depend on the
    order of the items.  The cell of state [k] on [b] holds an action exactly
    when an item of the state writes into it: an item with the dot before
    the terminal [b] and a transition on [b], an item of S' with the dot at
    the end for '$', or another item with the dot at the end for a member
    [b] of the FOLLOW set of its left-hand side.  There are no cells for
    other states. *)
Theorem action_cell_written_iff (isupper : str -> bool) (grammar : Grammar)
    (item_sets : list (list Item)) (goto_table : GotoTable) (follow_sets : FollowSets)
    (action_table : ActionTable) (goto_table_out : GotoTable) :
  (forall lhs F, get follow_sets lhs = Some F -> NoDup F) ->
  build_slr_parsing_table isupper grammar item_sets goto_table follow_sets
    = Ok (action_table, goto_table_out) ->
  (forall k items b,
      nth_error item_sets k = Some items ->
      (get action_table (Z.of_nat k, b) <> None <->
       exists item,
         In item items
         /\ acts_on (snd (table_classify isupper grammar)) (number_productions grammar)
                    goto_table follow_sets (Z.of_nat k) b item))
  /\ forall i b,
       get action_table (i, b) <> None -> (0 <= i < Z.of_nat (length item_sets))%Z.
Proof.
  intros N B.
  destruct (@build_cells isupper grammar goto_table follow_sets N item_sets
              action_table goto_table_out B) as [_ C].
  split.
  - intros k items b Hk. rewrite (C k items b Hk), cell_fold_acts.
    split; [intros [H|H]; [contradiction | exact H] | auto].
  - intros i b H.
    unfold build_slr_parsing_table in B.
    destruct (table_classify isupper grammar) as [nts ts].
    match type of B with
    | context [for_each ?body item_sets ?s0] =>
      destruct (for_each body item_sets s0) as [st|e] eqn:E; cbn [bind] in B;
        [|discriminate]
    end.
    destruct (lookup follow_sets (lit "L")); cbn [bind] in B; [|discriminate].
    inversion B; subst action_table goto_table_out.
    destruct (Z.lt_ge_cases i 0) as [L|L].
    + rewrite (@states_before ts (number_productions grammar) goto_table follow_sets N
                 nts item_sets i b 0%Z [] [] st E L) in H.
      contradiction.
    + destruct (Z.lt_ge_cases i (Z.of_nat (length item_sets))) as [L'|L']; [lia|].
      rewrite (@states_after ts (number_productions grammar) goto_table follow_sets N
                 nts item_sets i b 0%Z [] [] st E) in H by lia.
      contradiction.
Qed.

Lemma action_cell_written_iff_witness :
  (forall lhs F, get fixed_follow lhs = Some F -> NoDup F)
  /\ exists action_table goto_table_out,
       build_slr_parsing_table ascii_isupper fixed_grammar fixed_item_sets fixed_goto
         fixed_follow = Ok (action_table, goto_table_out)
       /\ (forall k items b,
              nth_error fixed_item_sets k = Some items ->
              (get action_table (Z.of_nat k, b) <> None <->
               exists item,
                 In item items
                 /\ acts_on (snd (table_classify ascii_isupper fixed_grammar))
                            (number_productions fixed_grammar)
                            fixed_goto fixed_follow (Z.of_nat k) b item))
       /\ forall i b,
            get action_table (i, b) <> None ->
            (0 <= i < Z.of_nat (length fixed_item_sets))%Z.
Proof.
  split; [exact fixed_follow_NoDup|].
  eexists. eexists. split; [vm_compute; reflexivity|].
  eapply (@action_cell_written_iff ascii_isupper fixed_grammar fixed_item_sets fixed_goto
            fixed_follow); [exact fixed_follow_NoDup | vm_compute; reflexivity].
Defined.
(* ===================================================================== *)
(** ** The texts of the actions *)
(* ===================================================================== *)

(** The code points of [str(n)]: decimal digits and the sign '-'. *)
Definition number_char (c : char) : bool :=
  ((48 <=? c) && (c <=? 57) || (c =? 45))%N.

Lemma number_char_range (c : char) :
  number_char c = true <-> (48 <= c <= 57 \/ c = 45)%N.
Proof.
  unfold number_char. rewrite orb_true_iff, andb_true_iff, !N.leb_le, N.eqb_eq. tauto.
Qed.

Lemma isspace_range (c : char) :
  isspace c = true ->
  (9 <= c <= 13 \/ 28 <= c <= 32 \/ c = 133 \/ c = 160 \/ 5760 <= c)%N.
Proof.
  unfold isspace. rewrite !orb_true_iff, !andb_true_iff, !N.leb_le, !N.eqb_eq. lia.
Qed.

Lemma number_char_nonspace (c : char) : number_char c = true -> isspace c = false.
Proof.
  intros H. apply number_char_range in H. apply not_true_is_false. intros S.
  apply isspace_range in S. lia.
Qed.

Lemma utf8_decode_ascii (bs : list N) :
  Forall (fun b => (b < 128)%N) bs -> utf8_decode bs = bs.
Proof.
  induction 1 as [|b bs Hb _ IH]; [reflexivity|]. cbn [utf8_decode].
  apply N.ltb_lt in Hb. rewrite Hb, IH. reflexivity.
Qed.

Lemma uint_chars (d : Decimal.uint) :
  Forall (fun c => number_char c = true)
         (map N_of_ascii (list_ascii_of_string (NilEmpty.string_of_uint d))).
Proof.
  induction d; cbn [NilEmpty.string_of_uint list_ascii_of_string map]; constructor;
    try assumption; reflexivity.
Qed.

Lemma int_chars (d : Decimal.signed_int) :
  Forall (fun c => number_char c = true)
         (map N_of_ascii (list_ascii_of_string (NilZero.string_of_int d)))
  /\ list_ascii_of_string (NilZero.string_of_int d) <> [].
Proof.
  assert (U : forall u,
             Forall (fun c => number_char c = true)
                    (map N_of_ascii (list_ascii_of_string (NilZero.string_of_uint u)))
             /\ list_ascii_of_string (NilZero.string_of_uint u) <> []).
  { intros u. split.
    - destruct u; try apply uint_chars. repeat constructor.
    - destruct u; discriminate. }
  destruct d as [u|u]; cbn [NilZero.string_of_int list_ascii_of_string map].
  - apply U.
  - split; [constructor; [reflexivity | apply U] | discriminate].
Qed.

(** [str(n)] is not empty and made of digits and '-'. *)
Lemma str_of_int_chars (n : Z) :
  Forall (fun c => number_char c = true) (str_of_int n) /\ str_of_int n <> [].
Proof.
  unfold str_of_int, lit. destruct (int_chars (Z.to_int n)) as [F Ne].
  rewrite utf8_decode_ascii.
  - split; [exact F|]. intros E. apply Ne. apply map_eq_nil in E. exact E.
  - eapply Forall_impl; [|exact F]. intros c Hc. apply number_char_range in Hc. lia.
Qed.

Lemma contains_In (c : char) (p s : str) : contains (c :: p) s = true -> In c s.
Proof.
  induction s as [|x s IH]; cbn [contains startswith]; [discriminate|].
  intros H. apply orb_true_iff in H as [H|H].
  - apply andb_true_iff in H as [H _]. apply N.eqb_eq in H. left. congruence.
  - right. apply IH. exact H.
Qed.

Lemma startswith_app (a b : str) :
  forall p,
    startswith (a ++ b) p = true ->
    startswith a p = true
    \/ exists c p2, In c p /\ startswith b (c :: p2) = true.
Proof.
  induction a as [|x a IH]; intros p H.
  - destruct p as [|c p]; [left; reflexivity|]. right. exists c, p.
    split; [left; reflexivity | exact H].
  - destruct p as [|c p]; [left; reflexivity|]. cbn [app startswith] in *.
    apply andb_true_iff in H as [H1 H2]. apply IH in H2 as [H2|[c' [p2 [I H2]]]].
    + left. rewrite H1, H2. reflexivity.
    + right. exists c', p2. split; [right; exact I | exact H2].
Qed.

(** An occurrence of [p] in [a ++ c :: b], where [c] is no code point of
    [p], lies in [a] or in [b]. *)
Lemma contains_apart (p a b : str) (c : char) :
  ~ In c p -> p <> [] ->
  contains p (a ++ c :: b) = true -> contains p a = true \/ contains p b = true.
Proof.
  intros N Ne. induction a as [|x a IH]; cbn [app].
  - cbn [contains]. intros H. apply orb_true_iff in H as [H|H]; [|auto].
    destruct p as [|c' p]; [contradiction|]. cbn [startswith] in H.
    apply andb_true_iff in H as [H _]. apply N.eqb_eq in H. subst c'.
    exfalso. apply N. left; reflexivity.
  - intros H. cbn [contains] in H. apply orb_true_iff in H as [H|H].
    + change (x :: a ++ c :: b) with ((x :: a) ++ c :: b) in H.
      apply startswith_app in H as [H|[c' [p2 [I H]]]].
      * left. cbn [contains]. rewrite H. reflexivity.
      * cbn [startswith] in H. apply andb_true_iff in H as [H _].
        apply N.eqb_eq in H. subst c'. contradiction.
    + apply IH in H as [H|H]; [left | right; exact H].
      cbn [contains]. rewrite H. apply orb_true_r.
Qed.

Lemma contains_number (c : char) (p : str) (n : Z) (pre : str) :
  number_char c = false -> ~ In c pre -> contains (c :: p) (pre ++ str_of_int n) = false.
Proof.
  intros Hc Hp. apply not_true_is_false. intros H. apply contains_In in H.
  apply in_app_iff in H as [H|H]; [contradiction|].
  destruct (str_of_int_chars n) as [F _]. rewrite Forall_forall in F.
  apply F in H. congruence.
Qed.

(** A shift text has no 'reduce' in it, and a reduce text no 'shift'. *)
Lemma shift_text_plain (j : Z) :
  contains (lit "reduce") (lit "shift " ++ str_of_int j) = false.
Proof.
  apply (@contains_number 114%N (lit "educe") j (lit "shift ")); [reflexivity|].
  apply mem_false. reflexivity.
Qed.

Lemma reduce_text_plain (n : Z) :
  contains (lit "shift") (lit "reduce " ++ str_of_int n) = false.
Proof.
  apply (@contains_number 115%N (lit "hift") n (lit "reduce ")); [reflexivity|].
  apply mem_false. reflexivity.
Qed.

Lemma reduce_appended_shift (v : str) (n : Z) :
  contains (lit "shift") (v ++ lit "/reduce " ++ str_of_int n) = true ->
  contains (lit "shift") v = true.
Proof.
  intros H.
  change (lit "/reduce " ++ str_of_int n)
    with (47%N :: (lit "reduce " ++ str_of_int n)) in H.
  apply contains_apart in H as [H|H].
  - exact H.
  - rewrite reduce_text_plain in H. discriminate H.
  - apply mem_false. reflexivity.
  - discriminate.
Qed.

Lemma reduce_appended_reduce (v : str) (n : Z) :
  contains (lit "reduce") (v ++ lit "/reduce " ++ str_of_int n) = true.
Proof. apply contains_app_r. reflexivity. Qed.

(** *** The words of a text *)

Lemma split_ws_word (w : str) :
  Forall (fun c => isspace c = false) w ->
  forall cur rest, split_ws_from cur (w ++ rest) = split_ws_from (rev w ++ cur) rest.
Proof.
  induction 1 as [|c w Hc _ IH]; intros cur rest; [reflexivity|].
  cbn [app split_ws_from]. rewrite Hc, IH. cbn [rev]. rewrite <- app_assoc. reflexivity.
Qed.

Lemma split_ws_first (w rest : str) (c : char) :
  Forall (fun c => isspace c = false) w -> w <> [] -> isspace c = true ->
  split_ws_from [] (w ++ c :: rest) = w :: split_ws_from [] rest.
Proof.
  intros F Ne Hc. rewrite (split_ws_word F). rewrite app_nil_r.
  cbn [split_ws_from]. rewrite Hc.
  destruct (rev w) as [|x r] eqn:E.
  - exfalso. apply Ne. rewrite <- (rev_involutive w), E. reflexivity.
  - rewrite <- E, rev_involutive. reflexivity.
Qed.

Lemma split_ws_last (w : str) :
  Forall (fun c => isspace c = false) w -> w <> [] -> split_ws_from [] w = [w].
Proof.
  intros F Ne. rewrite <- (app_nil_r w) at 1. rewrite (split_ws_word F), app_nil_r.
  cbn [split_ws_from].
  destruct (rev w) as [|x r] eqn:E.
  - exfalso. apply Ne. rewrite <- (rev_involutive w), E. reflexivity.
  - rewrite <- E, rev_involutive. reflexivity.
Qed.

Lemma number_nonspace (n : Z) : Forall (fun c => isspace c = false) (str_of_int n).
Proof.
  destruct (str_of_int_chars n) as [F _]. eapply Forall_impl; [|exact F].
  intros c. apply number_char_nonspace.
Qed.

(** *** The driver on the texts the builder writes *)

Section DriverTexts.

Variable py_int : str -> option Z.
Variable grammar : Grammar.
Variable action_table : ActionTable.
Variable goto_table_out : GotoTable.
Variable input_tokens : list Symbol.

Lemma shift_argument (j : Z) :
  py_int (str_of_int j) = Some j ->
  action_argument py_int (lit "shift " ++ str_of_int j) = Ok j.
Proof.
  intros P. unfold action_argument, split_ws.
  change (lit "shift " ++ str_of_int j) with (lit "shift" ++ 32%N :: str_of_int j).
  rewrite split_ws_first; [|repeat constructor | discriminate | reflexivity].
  rewrite split_ws_last; [|apply number_nonspace | apply str_of_int_chars].
  cbn [nth_error]. rewrite P. reflexivity.
Qed.

Lemma reduce_reduce_argument (m m' : Z) :
  py_int (str_of_int m ++ lit "/reduce") = None ->
  action_argument py_int
    (lit "reduce " ++ str_of_int m ++ lit "/reduce " ++ str_of_int m')
  = Raise ValueError.
Proof.
  intros P. unfold action_argument, split_ws.
  change (lit "reduce " ++ str_of_int m ++ lit "/reduce " ++ str_of_int m')
    with (lit "reduce" ++ 32%N :: (str_of_int m ++ lit "/reduce " ++ str_of_int m')).
  rewrite split_ws_first; [|repeat constructor | discriminate | reflexivity].
  replace (str_of_int m ++ lit "/reduce " ++ str_of_int m')
    with ((str_of_int m ++ lit "/reduce") ++ 32%N :: str_of_int m')
    by (rewrite <- app_assoc; reflexivity).
  rewrite split_ws_first.
  - cbn [nth_error]. rewrite P. reflexivity.
  - apply Forall_app. split; [apply number_nonspace | repeat constructor].
  - destruct (str_of_int m); discriminate.
  - reflexivity.
Qed.

End DriverTexts.

(** X12: what the driver does with the texts the builder writes.  On a cell
    'shift j' it pushes the symbol and the state [j] and moves to the next
    token; on a cell 'shift j/reduce m' it sets the conflict flag and stops;
    on a cell 'reduce m/reduce m'' it sets no flag and fails with the
    ValueError of [int('m/reduce')]. *)
Theorem driver_on_builder_texts (py_int : str -> option Z) (grammar : Grammar)
    (action_table : ActionTable) (goto_table_out : GotoTable)
    (input_tokens : list Symbol) (budget : nat) (stack : list entry) (pointer : nat)
    (steps : list Step) (symbol : Symbol) (n : Z) (below : list entry) (action : str) :
  nth_error input_tokens pointer = Some symbol ->
  rev stack = State n :: below ->
  get action_table (n, symbol) = Some action ->
  (forall j,
      action = lit "shift " ++ str_of_int j -> py_int (str_of_int j) = Some j ->
      drive py_int grammar action_table goto_table_out input_tokens
            (S budget) stack pointer steps
      = drive py_int grammar action_table goto_table_out input_tokens
              budget (stack ++ [Sym symbol; State j]) (S pointer)
              (steps ++ [row input_tokens stack pointer action false]))
  /\ (forall j m,
         action = lit "shift " ++ str_of_int j ++ lit "/reduce " ++ str_of_int m ->
         drive py_int grammar action_table goto_table_out input_tokens
               (S budget) stack pointer steps
         = Ok (steps ++ [row input_tokens stack pointer action true]))
  /\ (forall m m',
         action = lit "reduce " ++ str_of_int m ++ lit "/reduce " ++ str_of_int m' ->
         py_int (str_of_int m ++ lit "/reduce") = None ->
         is_conflict action = false
         /\ drive py_int grammar action_table goto_table_out input_tokens
                  (S budget) stack pointer steps
            = Raise ValueError).
Proof.
  intros Tok Top Cell.
  assert (Entry : get_or action_table (n, symbol) [] = action).
  { unfold get_or. rewrite Cell. reflexivity. }
  split; [|split].
  - intros j -> P.
    apply (@drive_shift py_int grammar action_table goto_table_out input_tokens
             budget stack pointer steps symbol n below _ Tok Top Entry j).
    + unfold is_conflict. rewrite shift_text_plain. apply andb_false_r.
    + reflexivity.
    + apply shift_argument. exact P.
  - intros j m ->.
    apply (@drive_conflict py_int grammar action_table goto_table_out input_tokens
             budget stack pointer steps symbol n below _ Tok Top Entry).
    unfold is_conflict. rewrite app_assoc, reduce_appended_reduce. reflexivity.
  - intros m m' -> P.
    assert (C : is_conflict (lit "reduce " ++ str_of_int m ++ lit "/reduce "
                               ++ str_of_int m') = false).
    { unfold is_conflict. apply andb_false_iff. left. apply not_true_is_false.
      intros H. rewrite app_assoc in H. apply reduce_appended_shift in H.
      rewrite reduce_text_plain in H. discriminate H. }
    split; [exact C|].
    cbn [drive]. rewrite Tok, Top, Entry. unfold is_conflict in C. rewrite C.
    cbn [startswith lit utf8_decode map list_ascii_of_string N_of_ascii app].
    replace (startswith _ _) with false by reflexivity.
    replace (startswith _ _) with true by reflexivity.
    rewrite (reduce_reduce_argument _ _ _ P). reflexivity.
Qed.
Definition tiny_action : ActionTable := [((0%Z, lit "a"), lit "shift 1")].

Lemma driver_on_builder_texts_witness :
  nth_error [lit "a"] 0 = Some (lit "a")
  /\ rev [State 0%Z] = State 0%Z :: []
  /\ get tiny_action (0%Z, lit "a") = Some (lit "shift 1")
  /\ (forall j,
         lit "shift 1" = lit "shift " ++ str_of_int j -> dec_int (str_of_int j) = Some j ->
         drive dec_int [] tiny_action [] [lit "a"] 1 [State 0%Z] 0 []
         = drive dec_int [] tiny_action [] [lit "a"] 0
                 ([State 0%Z] ++ [Sym (lit "a"); State j]) 1
                 ([] ++ [row [lit "a"] [State 0%Z] 0 (lit "shift 1") false]))
  /\ (forall j m,
         lit "shift 1" = lit "shift " ++ str_of_int j ++ lit "/reduce " ++ str_of_int m ->
         drive dec_int [] tiny_action [] [lit "a"] 1 [State 0%Z] 0 []
         = Ok ([] ++ [row [lit "a"] [State 0%Z] 0 (lit "shift 1") true]))
  /\ (forall m m',
         lit "shift 1" = lit "reduce " ++ str_of_int m ++ lit "/reduce " ++ str_of_int m' ->
         dec_int (str_of_int m ++ lit "/reduce") = None ->
         is_conflict (lit "shift 1") = false
         /\ drive dec_int [] tiny_action [] [lit "a"] 1 [State 0%Z] 0 []
            = Raise ValueError).
Proof.
  split; [reflexivity|]. split; [reflexivity|]. split; [reflexivity|].
  apply (@driver_on_builder_texts dec_int [] tiny_action [] [lit "a"] 0 [State 0%Z] 0 []
           (lit "a") 0%Z [] (lit "shift 1")); reflexivity.
Defined.

(* ===================================================================== *)
(** ** The parse driver: the rows of the trace *)
(* ===================================================================== *)

(** A row after which the loop goes on: a shift or a reduce, without the
    conflict flag. *)
Definition plain_row (s : Step) : Prop :=
  Conflict s = []
  /\ is_conflict (Action s) = false
  /\ (startswith (Action s) (lit "shift") = true
      \/ startswith (Action s) (lit "reduce") = true).

Lemma Forall_removelast {A} (P : A -> Prop) (l : list A) :
  Forall P l -> Forall P (removelast l).
Proof.
  induction 1 as [|x l Hx F IH]; [constructor|]. cbn [removelast].
  destruct l; [constructor | constructor; assumption].
Qed.

Lemma amend_action_last (steps : list Step) (s : Step) (suffix : str) :
  removelast (amend_action (steps ++ [s]) suffix) = steps.
Proof.
  unfold amend_action. rewrite rev_app_distr. cbn [rev app].
  rewrite rev_involutive. apply removelast_last.
Qed.

Lemma clear_conflict_last (steps : list Step) (s : Step) :
  removelast (clear_conflict (steps ++ [s])) = steps.
Proof.
  unfold clear_conflict. rewrite rev_app_distr. cbn [rev app].
  rewrite rev_involutive. apply removelast_last.
Qed.

Section DriverRows.

Variable py_int : str -> option Z.
Variable grammar : Grammar.
Variable action_table : ActionTable.
Variable goto_table_out : GotoTable.
Variable input_tokens : list Symbol.

Lemma drive_rows (budget : nat) :
  forall stack pointer steps out,
    Forall plain_row steps ->
    drive py_int grammar action_table goto_table_out input_tokens
          budget stack pointer steps = Ok out ->
    Forall plain_row (removelast out).
Proof.
  induction budget as [|budget IH]; intros stack pointer steps out F; cbn [drive].
  - intros [= <-]. apply Forall_removelast. exact F.
  - destruct (nth_error input_tokens pointer) as [symbol|];
      [|intros [= <-]; apply Forall_removelast; exact F].
    destruct (rev stack) as [|state rest]; [discriminate|].
    set (action := match state with
                   | State n => get_or action_table (n, symbol) []
                   | Sym _ => []
                   end).
    fold (is_conflict action).
    destruct (is_conflict action) eqn:C.
    { intros [= <-]. rewrite removelast_last. exact F. }
    match goal with
    | |- context [steps ++ [?r]] => set (r0 := r)
    end.
    destruct (startswith action (lit "shift")) eqn:Sh.
    { destruct (action_argument py_int action) as [n|e]; cbn [bind]; [|discriminate].
      apply IH. apply Forall_app. split; [exact F|]. constructor; [|constructor].
      unfold plain_row, r0. cbn [Conflict Action]. auto. }
    destruct (startswith action (lit "reduce")) eqn:Re.
    { destruct (action_argument py_int action) as [n|e]; cbn [bind]; [|discriminate].
      destruct (index grammar n) as [[lhs rhs]|e]; cbn [bind]; [|discriminate].
      destruct (if eqb rhs [EPSILON] then Ok stack else pop_n (2 * length rhs) stack)
        as [stack'|e]; cbn [bind]; [|discriminate].
      destruct (rev stack') as [|state' rest']; [discriminate|].
      destruct (match state' with
                | State n0 => get goto_table_out (n0, lhs)
                | Sym _ => None
                end) as [g|].
      - apply IH. apply Forall_app. split; [exact F|]. constructor; [|constructor].
        unfold plain_row, r0. cbn [Conflict Action]. auto.
      - intros [= <-]. rewrite amend_action_last. exact F. }
    destruct (eqb action (lit "accept")).
    { intros [= <-]. rewrite clear_conflict_last. exact F. }
    intros [= <-]. rewrite amend_action_last. exact F.
Qed.

End DriverRows.

(** X13: in the trace that the driver returns, every row but the last is a
    plain shift or reduce: its conflict flag is empty and its action starts
    with 'shift' or 'reduce' without holding both words.  A conflict, an
    accept, an error and a goto error can only be in the last row. *)
Theorem trace_stops_at_first_halt (py_int : str -> option Z) (grammar : Grammar)
    (action_table : ActionTable) (goto_table_out : GotoTable)
    (input_tokens : list Symbol) (out : list Step) :
  run_parse py_int grammar action_table goto_table_out input_tokens = Ok out ->
  Forall plain_row (removelast out).
Proof.
  unfold run_parse. apply drive_rows. constructor.
Qed.

Lemma trace_stops_at_first_halt_witness :
  exists out,
    run_parse dec_int [] tiny_action [] [lit "a"; lit "b"] = Ok out
    /\ Forall plain_row (removelast out).
Proof.
  eexists. split; [vm_compute; reflexivity|].
  eapply (@trace_stops_at_first_halt dec_int [] tiny_action [] [lit "a"; lit "b"]).
  vm_compute. reflexivity.
Defined.

(* ===================================================================== *)
(** ** The conflicts that are shown *)
(* ===================================================================== *)

(** app.py, lines 140-143: the style of a cell of the table. *)
Definition highlight_conflicts (val : str) : str :=
  if contains (lit "shift") val && contains (lit "reduce") val
  then lit "background-color: #ffcccc; color: red; font-weight: bold"
  else [].

Section ConflictCells.

Variable terminals : list Symbol.
Variable prod_map : dict (Symbol * list Symbol) Z.
Variable goto_table : GotoTable.
Variable follow_sets : FollowSets.

Lemma cell_step_words (i : Z) (b : Symbol) (old : option str) (item : Item) (t : str) :
  cell_after_item terminals prod_map goto_table follow_sets i b old item = Some t ->
  (contains (lit "shift") t = true ->
   (exists t0, old = Some t0 /\ contains (lit "shift") t0 = true)
   \/ shifts_on terminals goto_table i b item)
  /\ (contains (lit "reduce") t = true ->
      (exists t0, old = Some t0 /\ contains (lit "reduce") t0 = true)
      \/ reduces_on prod_map follow_sets b item).
Proof.
  destruct item as [[lhs rhs] dot_pos].
  assert (Keep : old = Some t ->
            (contains (lit "shift") t = true ->
             (exists t0, old = Some t0 /\ contains (lit "shift") t0 = true)
             \/ shifts_on terminals goto_table i b (lhs, rhs, dot_pos))
            /\ (contains (lit "reduce") t = true ->
                (exists t0, old = Some t0 /\ contains (lit "reduce") t0 = true)
                \/ reduces_on prod_map follow_sets b (lhs, rhs, dot_pos))).
  { intros ->. split; intros H; left; exists t; auto. }
  unfold cell_after_item.
  destruct (nth_error rhs dot_pos) as [a|] eqn:En.
  - destruct (mem a terminals) eqn:M; [|exact Keep].
    apply mem_In in M. destruct (get goto_table (i, a)) as [j|] eqn:G; [|exact Keep].
    destruct (eqb b a) eqn:E; [|exact Keep].
    apply eqb_eq in E. subst a. intros [= <-]. split.
    + intros _. right. unfold shifts_on. rewrite En, G.
      repeat split; [exact M | discriminate].
    + intros H. exfalso. apply (eq_true_false_abs _ H). apply shift_text_plain.
  - destruct (eqb lhs (lit "S'")) eqn:E.
    + destruct (eqb b END_MARKER); [|exact Keep].
      intros [= <-]. split; intros H; discriminate H.
    + apply eqb_neq in E.
      destruct (get prod_map (lhs, rhs)) as [n|] eqn:Gp; [|exact Keep].
      destruct (get follow_sets lhs) as [F|] eqn:Gf; [|exact Keep].
      destruct (mem b F) eqn:M; [|exact Keep].
      apply mem_In in M. intros [= <-].
      assert (R : reduces_on prod_map follow_sets b (lhs, rhs, dot_pos)).
      { unfold reduces_on. rewrite En, Gp.
        repeat split; [exact E | discriminate | exists F; auto]. }
      split; [|intros _; right; exact R].
      destruct old as [v|]; cbn [reduce_text]; intros H.
      * left. exists v. split; [reflexivity|]. eapply reduce_appended_shift. exact H.
      * exfalso. apply (eq_true_false_abs _ H). apply reduce_text_plain.
Qed.

Lemma cell_fold_words (i : Z) (b : Symbol) (items : list Item) :
  forall old t,
    fold_left (cell_after_item terminals prod_map goto_table follow_sets i b) items old
      = Some t ->
    (contains (lit "shift") t = true ->
     (exists t0, old = Some t0 /\ contains (lit "shift") t0 = true)
     \/ exists item, In item items /\ shifts_on terminals goto_table i b item)
    /\ (contains (lit "reduce") t = true ->
        (exists t0, old = Some t0 /\ contains (lit "reduce") t0 = true)
        \/ exists item, In item items /\ reduces_on prod_map follow_sets b item).
Proof.
  induction items as [|item items IH]; intros old t; cbn [fold_left].
  - intros ->. split; intros H; left; exists t; auto.
  - intros E. destruct (IH _ _ E) as [S R]. split; intros H.
    + destruct (S H) as [[t0 [E0 H0]]|[it [Hi Hs]]].
      * destruct (cell_step_words _ _ _ _ E0) as [S0 _].
        destruct (S0 H0) as [X|X]; [left; exact X | right; exists item; simpl; auto].
      * right. exists it. simpl. auto.
    + destruct (R H) as [[t0 [E0 H0]]|[it [Hi Hs]]].
      * destruct (cell_step_words _ _ _ _ E0) as [_ R0].
        destruct (R0 H0) as [X|X]; [left; exact X | right; exists item; simpl; auto].
      * right. exists it. simpl. auto.
Qed.

End ConflictCells.

(** X14: a cell of the ACTION table that highlight_conflicts marks, which is
    a cell on which the driver sets its conflict flag, is a shift/reduce
    conflict of its state: one item of the state shifts over the symbol and
    another reduces on it. *)
Theorem marked_cell_is_conflict (isupper : str -> bool) (grammar : Grammar)
    (item_sets : list (list Item)) (goto_table : GotoTable) (follow_sets : FollowSets)
    (action_table : ActionTable) (goto_table_out : GotoTable)
    (k : nat) (items : list Item) (b : Symbol) (t : str) :
  (forall lhs F, get follow_sets lhs = Some F -> NoDup F) ->
  build_slr_parsing_table isupper grammar item_sets goto_table follow_sets
    = Ok (action_table, goto_table_out) ->
  nth_error item_sets k = Some items ->
  get action_table (Z.of_nat k, b) = Some t ->
  highlight_conflicts t <> [] ->
  is_conflict t = true
  /\ (exists item,
         In item items
         /\ shifts_on (snd (table_classify isupper grammar)) goto_table (Z.of_nat k) b item)
  /\ (exists item,
         In item items
         /\ reduces_on (number_productions grammar) follow_sets b item).
Proof.
  intros N B Hk Ht Hh.
  assert (C : is_conflict t = true).
  { unfold highlight_conflicts in Hh. unfold is_conflict.
    destruct (contains (lit "shift") t && contains (lit "reduce") t);
      [reflexivity | contradiction]. }
  split; [exact C|].
  unfold is_conflict in C. apply andb_true_iff in C as [C1 C2].
  destruct (@build_cells isupper grammar goto_table follow_sets N item_sets
              action_table goto_table_out B) as [_ Cells].
  rewrite (Cells k items b Hk) in Ht.
  destruct (cell_fold_words _ _ _ _ _ _ _ _ Ht) as [S R]. split.
  - destruct (S C1) as [[t0 [E0 _]]|X]; [discriminate E0 | exact X].
  - destruct (R C2) as [[t0 [E0 _]]|X]; [discriminate E0 | exact X].
Qed.

Lemma marked_cell_is_conflict_witness :
  (forall lhs F, get fixed_follow lhs = Some F -> NoDup F)
  /\ exists action_table goto_table_out,
       build_slr_parsing_table ascii_isupper fixed_grammar fixed_item_sets fixed_goto
         fixed_follow = Ok (action_table, goto_table_out)
       /\ nth_error fixed_item_sets 2 = Some [fixed_item 1 1; fixed_item 5 1]
       /\ get action_table (Z.of_nat 2, lit "=") = Some (lit "shift 8/reduce 5")
       /\ highlight_conflicts (lit "shift 8/reduce 5") <> []
       /\ is_conflict (lit "shift 8/reduce 5") = true
       /\ (exists item,
              In item [fixed_item 1 1; fixed_item 5 1]
              /\ shifts_on (snd (table_classify ascii_isupper fixed_grammar)) fixed_goto
                           (Z.of_nat 2) (lit "=") item)
       /\ (exists item,
              In item [fixed_item 1 1; fixed_item 5 1]
              /\ reduces_on (number_productions fixed_grammar) fixed_follow (lit "=") item).
Proof.
  split; [exact fixed_follow_NoDup|].
  assert (H : highlight_conflicts (lit "shift 8/reduce 5") <> []) by discriminate.
  eexists. eexists. split; [vm_compute; reflexivity|].
  split; [reflexivity|]. split; [vm_compute; reflexivity|]. split; [exact H|].
  eapply (@marked_cell_is_conflict ascii_isupper fixed_grammar fixed_item_sets fixed_goto
            fixed_follow _ _ 2 _ (lit "=") (lit "shift 8/reduce 5") fixed_follow_NoDup);
    [vm_compute; reflexivity | reflexivity | vm_compute; reflexivity | exact H].
Defined.
(* ===================================================================== *)
(** ** parse_grammar: the productions it returns *)
(* ===================================================================== *)

Definition VBAR : char := 124%N.

Lemma Forall_lstrip (P : char -> Prop) (s : str) : Forall P s -> Forall P (lstrip s).
Proof.
  induction 1 as [|c s Hc F IH]; [constructor|]. cbn [lstrip].
  destruct (isspace c); [exact IH | constructor; assumption].
Qed.

Lemma Forall_strip (P : char -> Prop) (s : str) : Forall P s -> Forall P (strip s).
Proof.
  intros F. unfold strip, rstrip. apply Forall_rev. apply Forall_lstrip.
  apply Forall_rev. apply Forall_lstrip. exact F.
Qed.

Lemma lstrip_head (s : str) :
  lstrip s = [] \/ exists c r, lstrip s = c :: r /\ isspace c = false.
Proof.
  induction s as [|c s IH]; [left; reflexivity|]. cbn [lstrip].
  destruct (isspace c) eqn:E; [exact IH | right; exists c, s; auto].
Qed.

Lemma rstrip_cons (c : char) (r : str) : isspace c = false -> rstrip (c :: r) = c :: rstrip r.
Proof.
  intros Hc. induction r as [|x r IH] using rev_ind.
  - apply (@rstrip_nonspace_end [] c Hc).
  - destruct (isspace x) eqn:Ex.
    + rewrite app_comm_cons, !rstrip_space_end by exact Ex. exact IH.
    + rewrite app_comm_cons, !rstrip_nonspace_end by exact Ex. reflexivity.
Qed.

Lemma rstrip_idem (s : str) : rstrip (rstrip s) = rstrip s.
Proof.
  induction s as [|x s IH] using rev_ind; [reflexivity|].
  destruct (isspace x) eqn:Ex.
  - rewrite rstrip_space_end by exact Ex. exact IH.
  - rewrite !rstrip_nonspace_end by exact Ex. reflexivity.
Qed.

(** [strip] leaves nothing for a second [strip] to remove. *)
Lemma strip_idem (s : str) : strip (strip s) = strip s.
Proof.
  unfold strip. destruct (lstrip_head s) as [-> |[c [r [-> Hc]]]]; [reflexivity|].
  rewrite (@rstrip_cons c r Hc). rewrite lstrip_nonspace by exact Hc.
  rewrite <- (@rstrip_cons c r Hc). apply rstrip_idem.
Qed.

Lemma split_char_pieces (x : char) (s : str) :
  forall cur, Forall (fun c => c <> x) cur ->
    Forall (Forall (fun c => c <> x)) (split_from [x] 0 cur s).
Proof.
  induction s as [|c s IH]; intros cur F; cbn [split_from startswith length Nat.sub].
  - constructor; [apply Forall_rev; exact F | constructor].
  - destruct (N.eqb_spec x c) as [E|E]; cbn [andb].
    + constructor; [apply Forall_rev; exact F | apply IH; constructor].
    + apply IH. constructor; [congruence | exact F].
Qed.

Lemma split_ws_pieces (P : char -> Prop) (s : str) :
  forall cur,
    Forall (fun c => isspace c = false /\ P c) cur -> Forall P s ->
    Forall (fun w => w <> [] /\ Forall (fun c => isspace c = false /\ P c) w)
           (split_ws_from cur s).
Proof.
  induction s as [|c s IH]; intros cur Fc Fs; cbn [split_ws_from].
  - destruct cur as [|x cur]; [constructor|]. constructor; [|constructor].
    split; [|apply Forall_rev; exact Fc].
    intros E. apply (f_equal (@length char)) in E. rewrite length_rev in E. discriminate E.
  - inversion Fs as [|? ? Pc Fs']; subst. destruct (isspace c) eqn:Ec.
    + destruct cur as [|x cur]; [apply IH; [constructor | exact Fs']|].
      constructor; [|apply IH; [constructor | exact Fs']].
      split; [|apply Forall_rev; exact Fc].
      intros E. apply (f_equal (@length char)) in E. rewrite length_rev in E.
      discriminate E.
    + apply IH; [constructor; auto | exact Fs'].
Qed.

Lemma for_each_invariant {X S : Type} (P : S -> Prop) (body : S -> X -> result S)
    (l : list X) :
  (forall s x s', P s -> body s x = Ok s' -> P s') ->
  forall s s', P s -> for_each body l s = Ok s' -> P s'.
Proof.
  intros Hb. induction l as [|x l IH]; intros s s' Ps; cbn [for_each].
  - intros [= <-]. exact Ps.
  - destruct (body s x) as [s1|e] eqn:E; cbn [bind]; [|discriminate].
    apply IH. eapply Hb; eassumption.
Qed.

(** A production as parse_grammar can return one: a left-hand side without
    whitespace at its ends, and symbols that are not empty and hold neither
    whitespace nor '|'. *)
Definition read_production (p : Production) : Prop :=
  strip (fst p) = fst p
  /\ Forall (fun x => x <> [] /\ Forall (fun c => isspace c = false /\ c <> VBAR) x)
            (snd p).

Lemma parse_line_reads (grammar grammar' : Grammar) (line : str) :
  Forall read_production grammar -> parse_line grammar line = Ok grammar' ->
  Forall read_production grammar'.
Proof.
  intros F. unfold parse_line. destruct (negb (contains (lit "->") line)).
  - intros [= <-]. exact F.
  - destruct (split line (lit "->")) as [|lhs [|rhs [|x r]]]; try discriminate.
    intros [= <-]. apply Forall_app. split; [exact F|].
    apply Forall_forall. intros p Hp. apply in_map_iff in Hp as [alt [<- Ha]].
    split; cbn [fst snd]; [apply strip_idem|].
    unfold split_ws. apply split_ws_pieces; [constructor|].
    apply Forall_strip.
    pose proof (@split_char_pieces VBAR (strip rhs) [] (Forall_nil _)) as Pc.
    rewrite Forall_forall in Pc. apply Pc. exact Ha.
Qed.

(** X15: in every production that parse_grammar returns, the left-hand side
    has no whitespace at its ends, and every symbol of the right-hand side
    is non-empty and holds neither whitespace nor '|'. *)
Theorem parsed_symbols_are_words (text : str) (g : Grammar) :
  parse_grammar text = Ok g ->
  forall A rhs, In (A, rhs) g ->
    strip A = A
    /\ forall x, In x rhs ->
         x <> [] /\ Forall (fun c => isspace c = false /\ c <> VBAR) x.
Proof.
  unfold parse_grammar. intros E A rhs I.
  assert (F : Forall read_production g).
  { refine (@for_each_invariant _ _ (Forall read_production) parse_line _ _ [] g
              (Forall_nil _) E).
    intros s x s'. apply parse_line_reads. }
  rewrite Forall_forall in F. destruct (F _ I) as [H1 H2]. cbn [fst snd] in *.
  split; [exact H1|]. rewrite Forall_forall in H2. exact H2.
Qed.

Lemma parsed_symbols_are_words_witness :
  parse_grammar fixed_grammar_text = Ok fixed_grammar
  /\ forall A rhs, In (A, rhs) fixed_grammar ->
       strip A = A
       /\ forall x, In x rhs ->
            x <> [] /\ Forall (fun c => isspace c = false /\ c <> VBAR) x.
Proof.
  assert (E : parse_grammar fixed_grammar_text = Ok fixed_grammar)
    by (vm_compute; reflexivity).
  split; [exact E|]. apply (@parsed_symbols_are_words fixed_grammar_text fixed_grammar E).
Defined.

(* ===================================================================== *)
(** ** parse_grammar: reading a grammar that is written out *)
(* ===================================================================== *)

(** A symbol that can be written in an alternative: a plain symbol without
    '|'. *)
Definition alternative_symbol (x : str) : bool := plain_symbol x && negb (mem VBAR x).

Definition writable (p : Production) : bool :=
  plain_symbol (fst p) && forallb alternative_symbol (snd p).

(** The symbols of a right-hand side, each after a blank. *)
Definition spaced (rhs : list Symbol) : str := concat (map (fun x => 32%N :: x) rhs).

(** The line 'A -> X1 ... Xn' of a production, and the text with one line
    for each production. *)
Definition production_line (p : Production) : str := fst p ++ lit " ->" ++ spaced (snd p).

Definition grammar_lines (g : Grammar) : str := join NEWLINE (map production_line g).

Lemma plain_symbol_facts (x : str) :
  plain_symbol x = true ->
  x <> [] /\ Forall (fun c => isspace c = false) x /\ contains ARROW x = false.
Proof.
  unfold plain_symbol. rewrite !andb_true_iff, !negb_true_iff.
  intros [[H1 H2] H3]. split; [|split; [|exact H3]].
  - intros ->. discriminate H1.
  - apply Forall_forall. rewrite forallb_forall in H2. intros c Hc.
    apply negb_true_iff. apply H2. exact Hc.
Qed.

Lemma alternative_symbol_facts (x : str) :
  alternative_symbol x = true ->
  x <> [] /\ Forall (fun c => isspace c = false) x /\ contains ARROW x = false
  /\ Forall (fun c => c <> VBAR) x.
Proof.
  unfold alternative_symbol. rewrite andb_true_iff, negb_true_iff.
  intros [H1 H2]. apply plain_symbol_facts in H1 as [A [B C]].
  split; [exact A|]. split; [exact B|]. split; [exact C|].
  apply mem_false in H2. apply Forall_forall. intros c Hc ->. contradiction.
Qed.

Lemma split_char_cons (x : char) (l rest : str) :
  Forall (fun c => c <> x) l ->
  forall cur,
    split_from [x] 0 cur (l ++ x :: rest) = (rev cur ++ l) :: split_from [x] 0 [] rest.
Proof.
  induction 1 as [|c l Hc _ IH]; intros cur; cbn [app split_from startswith length Nat.sub].
  - rewrite N.eqb_refl, app_nil_r. reflexivity.
  - destruct (N.eqb_spec x c) as [E|E]; [congruence|]. cbn [andb].
    rewrite IH. cbn [rev]. rewrite <- app_assoc. reflexivity.
Qed.

Lemma split_lines (x : char) (lines : list str) :
  Forall (Forall (fun c => c <> x)) lines -> lines <> [] ->
  split (join [x] lines) [x] = lines.
Proof.
  unfold split. induction 1 as [|l ls Hl F IH]; intros Ne; [contradiction|].
  destruct ls as [|l2 ls].
  - cbn [join]. rewrite split_absent by exact Hl. reflexivity.
  - change (join [x] (l :: l2 :: ls)) with (l ++ x :: join [x] (l2 :: ls)).
    rewrite split_char_cons by exact Hl. cbn [rev app]. f_equal. apply IH. discriminate.
Qed.

Lemma split_arrow_first (A rest : str) :
  contains ARROW A = false ->
  forall cur,
    split_from ARROW 0 cur (A ++ 32%N :: 45%N :: 62%N :: rest)
    = (rev cur ++ A ++ [32%N]) :: split_from ARROW 0 [] rest.
Proof.
  change ARROW with [45%N; 62%N].
  induction A as [|c A IH]; intros E cur.
  - cbn. reflexivity.
  - cbn [contains] in E. apply orb_false_iff in E as [E1 E2].
    cbn [app split_from].
    assert (S : startswith (c :: A ++ 32 :: 45 :: 62 :: rest)%N [45; 62]%N = false).
    { cbn [startswith] in *. destruct (45 =? c)%N; [|reflexivity]. cbn [andb] in *.
      destruct A as [|d A']; [reflexivity | cbn [app startswith] in *; assumption]. }
    rewrite S. rewrite IH by assumption. cbn [rev]. rewrite <- !app_assoc. reflexivity.
Qed.

Lemma split_arrow_absent (s : str) :
  contains ARROW s = false ->
  forall cur, split_from ARROW 0 cur s = [rev cur ++ s].
Proof.
  induction s as [|c s IH]; intros E cur.
  - cbn. rewrite app_nil_r. reflexivity.
  - cbn [contains] in E. apply orb_false_iff in E as [E1 E2].
    cbn [split_from]. rewrite E1, IH by exact E2. cbn [rev].
    rewrite <- app_assoc. reflexivity.
Qed.

Lemma contains_tail (p s : str) (c : char) :
  contains p (c :: s) = false -> contains p s = false.
Proof. cbn [contains]. intros E. apply orb_false_iff in E as [_ E]. exact E. Qed.

Lemma spaced_no_arrow (rhs : list Symbol) :
  Forall (fun x => contains ARROW x = false) rhs -> contains ARROW (spaced rhs) = false.
Proof.
  unfold spaced. induction 1 as [|x r Hx F IH]; [reflexivity|].
  cbn [map concat]. apply not_true_is_false. intros H.
  change ((32%N :: x) ++ concat (map (fun x => 32%N :: x) r))
    with ([] ++ 32%N :: (x ++ concat (map (fun x => 32%N :: x) r))) in H.
  apply contains_apart in H as [H|H]; [discriminate H | | | discriminate].
  - destruct r as [|y r].
    + cbn [map concat] in H. rewrite app_nil_r in H. exact (eq_true_false_abs _ H Hx).
    + cbn [map concat] in H, IH.
      change (x ++ (32%N :: y) ++ concat (map (fun x => 32%N :: x) r))
        with (x ++ 32%N :: (y ++ concat (map (fun x => 32%N :: x) r))) in H.
      apply contains_apart in H as [H|H];
        [exact (eq_true_false_abs _ H Hx) | | | discriminate].
      * apply contains_tail in IH. exact (eq_true_false_abs _ H IH).
      * apply mem_false. reflexivity.
  - apply mem_false. reflexivity.
Qed.

Lemma split_ws_lstrip (s : str) : split_ws_from [] (lstrip s) = split_ws_from [] s.
Proof.
  induction s as [|c s IH]; [reflexivity|]. cbn [lstrip split_ws_from].
  destruct (isspace c) eqn:E; [exact IH|]. cbn [split_ws_from]. rewrite E. reflexivity.
Qed.

Lemma split_ws_space_end (s : str) (c : char) :
  isspace c = true ->
  forall cur, split_ws_from cur (s ++ [c]) = split_ws_from cur s.
Proof.
  intros Hc. induction s as [|x s IH]; intros cur; cbn [app split_ws_from].
  - rewrite Hc. destruct cur; reflexivity.
  - destruct (isspace x); [destruct cur; rewrite IH; reflexivity | apply IH].
Qed.

Lemma split_ws_rstrip (s : str) : split_ws_from [] (rstrip s) = split_ws_from [] s.
Proof.
  induction s as [|x s IH] using rev_ind; [reflexivity|].
  destruct (isspace x) eqn:Ex.
  - rewrite rstrip_space_end, split_ws_space_end by exact Ex. exact IH.
  - rewrite rstrip_nonspace_end by exact Ex. reflexivity.
Qed.

(** Whitespace at the ends does not change the words. *)
Lemma split_ws_strip (s : str) : split_ws (strip s) = split_ws s.
Proof. unfold split_ws, strip. rewrite split_ws_rstrip. apply split_ws_lstrip. Qed.

Lemma spaced_words (rhs : list Symbol) :
  Forall (fun x => x <> [] /\ Forall (fun c => isspace c = false) x) rhs ->
  split_ws (spaced rhs) = rhs.
Proof.
  unfold split_ws, spaced. induction 1 as [|x r [Nx Fx] F IH]; [reflexivity|].
  cbn [map concat app split_ws_from].
  change (isspace 32%N) with true. cbv iota.
  destruct r as [|y r].
  - cbn [map concat]. rewrite app_nil_r. apply split_ws_last; assumption.
  - cbn [map concat app] in *. rewrite split_ws_first by (assumption || reflexivity).
    f_equal. cbn [split_ws_from] in IH. exact IH.
Qed.

Lemma production_line_read (grammar : Grammar) (p : Production) :
  writable p = true -> parse_line grammar (production_line p) = Ok (grammar ++ [p]).
Proof.
  destruct p as [lhs rhs]. unfold writable, production_line. cbn [fst snd].
  rewrite andb_true_iff, forallb_forall. intros [Hl Hr].
  apply plain_symbol_facts in Hl as [Nl [Fl Al]].
  assert (R : forall x, In x rhs ->
                x <> [] /\ Forall (fun c => isspace c = false) x
                /\ contains ARROW x = false /\ Forall (fun c => c <> VBAR) x).
  { intros x Hx. apply alternative_symbol_facts. apply Hr. exact Hx. }
  assert (Ta : contains ARROW (spaced rhs) = false).
  { apply spaced_no_arrow. apply Forall_forall. intros x Hx. apply (R x Hx). }
  assert (Tb : Forall (fun c => c <> VBAR) (spaced rhs)).
  { unfold spaced. apply Forall_concat. apply Forall_map. apply Forall_forall.
    intros x Hx. constructor; [discriminate | apply (R x Hx)]. }
  unfold parse_line. fold ARROW.
  change (lit " ->" ++ spaced rhs) with (32%N :: 45%N :: 62%N :: spaced rhs).
  rewrite contains_app_r by reflexivity. cbn [negb].
  unfold split at 1. rewrite (@split_arrow_first lhs (spaced rhs) Al []), (@split_arrow_absent (spaced rhs) Ta []).
  cbn [rev app].
  change [32%N] with (lit " ").
  rewrite plain_symbol_strip.
  2:{ apply forallb_forall. rewrite Forall_forall in Fl. intros c Hc.
      apply negb_true_iff. apply Fl. exact Hc. }
  change (lit "|") with [VBAR]. unfold split.
  rewrite split_absent by (apply Forall_strip; exact Tb).
  cbn [rev app map]. rewrite !split_ws_strip, spaced_words; [reflexivity|].
  apply Forall_forall. intros x Hx. destruct (R x Hx) as [A [B _]]. auto.
Qed.

Lemma production_lines_read (g : Grammar) :
  forallb writable g = true ->
  forall grammar, for_each parse_line (map production_line g) grammar = Ok (grammar ++ g).
Proof.
  induction g as [|p g IH]; intros W grammar; cbn [map for_each].
  - rewrite app_nil_r. reflexivity.
  - cbn [forallb] in W. apply andb_true_iff in W as [Wp Wg].
    rewrite (@production_line_read grammar p Wp). cbn [bind].
    rewrite (IH Wg). rewrite <- app_assoc. reflexivity.
Qed.

(** A line begins with the left-hand side and ends with a word. *)
Lemma production_line_ends (p : Production) :
  writable p = true ->
  Forall (fun c => c <> 10%N) (production_line p)
  /\ (exists c r, production_line p = c :: r /\ isspace c = false)
  /\ exists r c, production_line p = r ++ [c] /\ isspace c = false.
Proof.
  destruct p as [lhs rhs]. unfold writable, production_line. cbn [fst snd].
  rewrite andb_true_iff, forallb_forall. intros [Hl Hr].
  apply plain_symbol_facts in Hl as [Nl [Fl _]].
  assert (R : forall x, In x rhs -> x <> [] /\ Forall (fun c => isspace c = false) x).
  { intros x Hx. destruct (@alternative_symbol_facts x (Hr x Hx)) as [A [B _]]. auto. }
  assert (NL : forall w, Forall (fun c => isspace c = false) w ->
                         Forall (fun c => c <> 10%N) w).
  { intros w F. eapply Forall_impl; [|exact F]. intros c Hc ->. discriminate Hc. }
  split; [|split].
  - apply Forall_app. split; [apply NL; exact Fl|].
    apply Forall_app. split; [repeat constructor; discriminate|].
    unfold spaced. apply Forall_concat. apply Forall_map. apply Forall_forall.
    intros x Hx. constructor; [discriminate | apply NL; apply (R x Hx)].
  - destruct lhs as [|c l]; [contradiction|]. exists c. eexists.
    split; [reflexivity|]. inversion Fl; assumption.
  - destruct rhs as [|x rhs] using rev_ind.
    + exists (lhs ++ lit " -"), 62%N. split; [|reflexivity].
      cbn [spaced map concat]. rewrite <- app_assoc. reflexivity.
    + destruct (R x) as [Nx Fx]; [apply in_or_app; right; left; reflexivity|].
      destruct (exists_last Nx) as [w [c E]]. subst x.
      exists (lhs ++ lit " ->" ++ spaced rhs ++ 32%N :: w), c. split.
      * unfold spaced. rewrite map_app, concat_app. cbn [map concat].
        rewrite app_nil_r, <- !app_assoc. reflexivity.
      * apply Forall_app in Fx as [_ Fc]. inversion Fc; assumption.
Qed.

Lemma join_ends (lines : list str) (l : str) :
  (exists rest, join NEWLINE (l :: lines) = l ++ rest)
  /\ exists front last, join NEWLINE (l :: lines) = front ++ last /\ In last (l :: lines).
Proof.
  split.
  - destruct lines; [exists []; cbn; rewrite app_nil_r; reflexivity|].
    eexists. reflexivity.
  - revert l. induction lines as [|l2 lines IH]; intros l.
    + exists [], l. split; [reflexivity | left; reflexivity].
    + destruct (IH l2) as [front [last [E I]]].
      exists (l ++ NEWLINE ++ front), last. split; [|right; exact I].
      change (join NEWLINE (l :: l2 :: lines))
        with (l ++ NEWLINE ++ join NEWLINE (l2 :: lines)).
      rewrite E, <- !app_assoc. reflexivity.
Qed.

Lemma strip_nothing (s : str) :
  (forall c r, s = c :: r -> isspace c = false) ->
  (forall r c, s = r ++ [c] -> isspace c = false) ->
  strip s = s.
Proof.
  intros H1 H2. unfold strip. destruct s as [|c r]; [reflexivity|].
  rewrite lstrip_nonspace by (eapply H1; reflexivity).
  assert (Ne : c :: r <> []) by discriminate.
  destruct (exists_last Ne) as [r' [c' E]]. rewrite E.
  apply rstrip_nonspace_end. eapply H2. exact E.
Qed.

(** A single line is read as its production. *)
Lemma production_line_parsed (p : Production) :
  writable p = true -> parse_grammar (production_line p) = Ok [p].
Proof.
  intros W. unfold parse_grammar.
  destruct (@production_line_ends p W) as [NL [[c0 [r0 [E0 H0]]] [r1 [c1 [E1 H1]]]]].
  rewrite strip_nothing.
  - unfold split. rewrite split_absent by exact NL. cbn [rev app for_each].
    rewrite (@production_line_read [] p W). reflexivity.
  - intros c r E. rewrite E0 in E. inversion E; subst. exact H0.
  - intros r c E. rewrite E1 in E. apply app_inj_tail in E as [_ <-]. exact H1.
Qed.

(** X16: parse_grammar reads back a grammar that is written out with one
    line 'A -> X1 ... Xn' for each production, when the symbols are plain:
    not empty, without whitespace and without '->' inside, and for those of
    the right-hand sides without '|'. *)
Theorem parse_grammar_reads_lines (g : Grammar) :
  forallb writable g = true -> parse_grammar (grammar_lines g) = Ok g.
Proof.
  intros W. unfold parse_grammar, grammar_lines.
  destruct g as [|p g]; [reflexivity|].
  assert (L : forall q, In q (p :: g) -> writable q = true).
  { apply forallb_forall. exact W. }
  assert (T : strip (join NEWLINE (map production_line (p :: g)))
              = join NEWLINE (map production_line (p :: g))).
  { cbn [map].
    destruct (join_ends (map production_line g) (production_line p))
      as [[rest E1] [front [last [E2 I]]]].
    apply strip_nothing.
    - intros c r E. rewrite E1 in E.
      destruct (@production_line_ends p (L p (or_introl eq_refl))) as [_ [[c0 [r0 [E0 H0]]] _]].
      rewrite E0 in E. cbn [app] in E. inversion E; subst. exact H0.
    - intros r c E. rewrite E2 in E.
      change (production_line p :: map production_line g)
        with (map production_line (p :: g)) in I.
      apply in_map_iff in I as [q [<- Hq]].
      destruct (@production_line_ends q (L q Hq)) as [_ [_ [r0 [c0 [E0 H0]]]]].
      rewrite E0, app_assoc in E. apply app_inj_tail in E as [_ <-]. exact H0. }
  rewrite T. unfold NEWLINE. rewrite split_lines.
  - apply (@production_lines_read (p :: g) W []).
  - apply Forall_forall. intros l Hl. apply in_map_iff in Hl as [q [<- Hq]].
    apply (@production_line_ends q (L q Hq)).
  - discriminate.
Qed.

Lemma parse_grammar_reads_lines_witness :
  forallb writable fixed_grammar = true
  /\ parse_grammar (grammar_lines fixed_grammar) = Ok fixed_grammar.
Proof.
  split; [reflexivity|]. apply (@parse_grammar_reads_lines fixed_grammar). reflexivity.
Defined.
(* ===================================================================== *)
(** ** The application: where an item set comes from *)
(* ===================================================================== *)

Definition PredecessorMap := dict Z (option (Z * Symbol)).

(** Lines 76-78 of the application, for one entry of [goto_table.items()]. *)
Definition note_predecessor (predecessor_map : PredecessorMap)
    (entry : (Z * Symbol) * Z) : PredecessorMap :=
  let '((state_idx, symbol), target_idx) := entry in
  if has predecessor_map target_idx then predecessor_map
  else set predecessor_map target_idx (Some (state_idx, symbol)).

(** Lines 71-80: [build_predecessor_map]; the entries of the dict are met in
    the order in which their keys were entered. *)
Definition build_predecessor_map (item_sets : list (list Item)) (goto_table : GotoTable)
    : PredecessorMap :=
  fold_left note_predecessor goto_table (set [] 0%Z None).

(** Lines 100-110: the header of item set [idx]. *)
Definition item_set_header (predecessor_map : PredecessorMap) (idx : nat) : str :=
  if Nat.eqb idx 0
  then lit "Item Set I" ++ str_of_int (Z.of_nat idx) ++ lit " (Initial State)"
  else
    match get_or predecessor_map (Z.of_nat idx) None with
    | Some (pred_state, symbol) =>
      lit "Item Set I" ++ str_of_int (Z.of_nat idx) ++ lit " = GOTO(I"
        ++ str_of_int pred_state ++ lit ", " ++ symbol ++ lit ")"
    | None => lit "Item Set I" ++ str_of_int (Z.of_nat idx)
    end.

Lemma find_first {A : Type} (f : A -> bool) (l : list A) (e : A) :
  find f l = Some e ->
  exists l1 l2, l = l1 ++ e :: l2 /\ f e = true /\ forall x, In x l1 -> f x = false.
Proof.
  induction l as [|a l IH]; cbn [find]; [discriminate|].
  destruct (f a) eqn:E.
  - intros [= <-]. exists [], l. split; [reflexivity|]. split; [exact E|]. intros x [].
  - intros H. destruct (IH H) as [l1 [l2 [-> [Fe N]]]].
    exists (a :: l1), l2. split; [reflexivity|]. split; [exact Fe|].
    intros x [<- |Hx]; [exact E | apply N; exact Hx].
Qed.

(** What the map holds for a state: what it held before the loop, or else
    the source of the first transition to the state. *)
Lemma predecessor_fold (l : GotoTable) :
  forall (pm : PredecessorMap) (j : Z),
    get (fold_left note_predecessor l pm) j
    = match get pm j with
      | Some v => Some v
      | None =>
        match find (fun e => Z.eqb (snd e) j) l with
        | Some e => Some (Some (fst e))
        | None => None
        end
      end.
Proof.
  induction l as [|[[i X] t] l IH]; intros pm j; cbn [fold_left find snd].
  - destruct (get pm j); reflexivity.
  - rewrite IH. unfold note_predecessor, has. destruct (get pm t) as [v|] eqn:Gt.
    + destruct (get pm j) eqn:Gj; [reflexivity|].
      destruct (Z.eqb_spec t j) as [E|E]; [|reflexivity].
      subst j. rewrite Gt in Gj. discriminate Gj.
    + rewrite get_set. change (eqb j t) with (Z.eqb j t).
      destruct (Z.eqb_spec j t) as [E|E].
      * subst j. rewrite Gt, Z.eqb_refl. reflexivity.
      * destruct (get pm j); [reflexivity|].
        destruct (Z.eqb_spec t j) as [E'|E']; [congruence | reflexivity].
Qed.

(** X17: for the automaton that construct_lr0_item_sets returns on a grammar
    with at least one production, build_predecessor_map gives state 0 no
    predecessor and has no key that is not a state.  Every other state has a
    recorded predecessor (s, X): s is a state of smaller index, the state is,
    as a set, the non-empty goto of state s on X, and the header shown for it
    is the one that names this GOTO. *)
Theorem predecessor_names_a_goto (lhs0 : Symbol) (rhs0 : list Symbol) (rest : Grammar) :
  let g := (lhs0, rhs0) :: rest in
  exists item_sets goto_table,
    (forall fuel,
        2 ^ length (all_items g) < fuel ->
        construct_lr0_item_sets fuel g = Some (Ok (item_sets, goto_table)))
    /\ get (build_predecessor_map item_sets goto_table) 0%Z = Some None
    /\ (forall k,
          get (build_predecessor_map item_sets goto_table) k <> None ->
          exists idx, k = Z.of_nat idx /\ idx < length item_sets)
    /\ forall idx J,
         0 < idx -> nth_error item_sets idx = Some J ->
         exists s X I_ J',
           get (build_predecessor_map item_sets goto_table) (Z.of_nat idx)
             = Some (Some (Z.of_nat s, X))
           /\ s < idx
           /\ nth_error item_sets s = Some I_
           /\ goto I_ X g = Some J' /\ J' <> [] /\ set_eqb J J' = true
           /\ item_set_header (build_predecessor_map item_sets goto_table) idx
              = lit "Item Set I" ++ str_of_int (Z.of_nat idx) ++ lit " = GOTO(I"
                  ++ str_of_int (Z.of_nat s) ++ lit ", " ++ X ++ lit ")".
Proof.
  intros g.
  destruct (lr0_collection_good lhs0 rhs0 rest) as [aut [initial [R [Ec G]]]].
  fold g in R, Ec, G.
  destruct G as [Gs Gf Gi Gd Gv Gt Gc Gp Gk Gw].
  exists (item_sets aut), (goto_table aut).
  split; [exact R|]. unfold build_predecessor_map.
  split; [|split].
  - rewrite predecessor_fold. reflexivity.
  - intros k. rewrite predecessor_fold. cbn [set get].
    change (eqb k 0%Z) with (Z.eqb k 0). destruct (Z.eqb_spec k 0) as [->|Nk].
    + intros _. exists 0. split; [reflexivity|]. apply nth_error_Some. congruence.
    + destruct (find _ (goto_table aut)) as [[[s X] t]|] eqn:F; [|congruence].
      intros _. destruct (find_first _ _ F) as [l1 [l2 [E [Ft _]]]].
      cbn [snd] in Ft. apply Z.eqb_eq in Ft. subst t.
      assert (Hk : get (goto_table aut) (s, X) = Some k).
      { apply (In_get _ _ _ Gk). rewrite E. apply in_or_app. right. left. reflexivity. }
      destruct (Gt _ _ _ Hk) as [n [I_ [J' [_ [_ [_ [_ Hi]]]]]]].
      apply index_of_indexed_Some in Hi as [m [J [Ej [Hm _]]]].
      exists m. split; [exact Ej|]. apply nth_error_Some. congruence.
  - intros idx J Pos Hn.
    assert (Ln : idx < length (item_sets aut)) by (apply nth_error_Some; congruence).
    destruct (Gc idx (conj Pos Ln)) as [i0 [X0 H0]].
    destruct (find (fun e => Z.eqb (snd e) (Z.of_nat idx)) (goto_table aut))
      as [[[s X] t]|] eqn:F.
    2:{ exfalso. apply get_Some_In in H0.
        pose proof (find_none _ _ F _ H0) as N. cbn [snd] in N.
        rewrite Z.eqb_refl in N. discriminate N. }
    destruct (find_first _ _ F) as [l1 [l2 [E [Ft N1]]]].
    cbn [snd] in Ft. apply Z.eqb_eq in Ft. subst t.
    assert (Hk : get (goto_table aut) (s, X) = Some (Z.of_nat idx)).
    { apply (In_get _ _ _ Gk). rewrite E. apply in_or_app. right. left. reflexivity. }
    assert (Lt : (s < Z.of_nat idx)%Z).
    { apply (Gw l1 s X (Z.of_nat idx) l2 E); [|lia].
      intros I. apply in_map_iff in I as [e [Ee He]].
      pose proof (N1 e He) as Ne. rewrite Ee, Z.eqb_refl in Ne. discriminate Ne. }
    destruct (Gt _ _ _ Hk) as [n [I_ [J' [En [Hs [Hg [Ne Hi]]]]]]].
    apply index_of_indexed_Some in Hi as [m [J0 [Ej [Hm Hq]]]].
    cbn [Nat.add] in Ej. apply Nat2Z.inj in Ej. subst m.
    rewrite Hn in Hm. inversion Hm; subst J0. subst s.
    assert (Gp' : get (fold_left note_predecessor (goto_table aut) (set [] 0%Z None))
                      (Z.of_nat idx) = Some (Some (Z.of_nat n, X))).
    { rewrite predecessor_fold, F. cbn [set get fst].
      change (eqb (Z.of_nat idx) 0%Z) with (Z.eqb (Z.of_nat idx) 0).
      destruct (Z.eqb_spec (Z.of_nat idx) 0) as [Z0|_]; [lia | reflexivity]. }
    exists n, X, I_, J'. split; [exact Gp'|]. split; [lia|]. split; [exact Hs|].
    split; [exact Hg|]. split; [exact Ne|]. split; [exact Hq|].
    unfold item_set_header, get_or. rewrite Gp'.
    destruct idx as [|idx]; [lia | reflexivity].
Qed.

(* ===================================================================== *)
(** ** The application: the text of an item *)
(* ===================================================================== *)

(** The dot of a displayed item. *)
Definition DOT : str := lit "•".

(** [l.insert(n, x)] for [n >= 0]: past the end, the value is appended. *)
Definition insert_at {A : Type} (n : nat) (x : A) (l : list A) : list A :=
  firstn n l ++ x :: skipn n l.

(** Lines 65-68: [item_to_str]. *)
Definition item_to_str (item : Item) : str :=
  let '(lhs, rhs, dot_pos) := item in
  let rhs_with_dot := insert_at dot_pos DOT rhs in
  lhs ++ lit " -> " ++ join (lit " ") rhs_with_dot.

Lemma join_spaced (x : str) (l : list str) :
  lit " " ++ join (lit " ") (x :: l) = spaced (x :: l).
Proof.
  revert x. induction l as [|y l IH]; intros x.
  - cbn [join]. unfold spaced. cbn [map concat]. rewrite app_nil_r. reflexivity.
  - change (join (lit " ") (x :: y :: l)) with (x ++ lit " " ++ join (lit " ") (y :: l)).
    rewrite IH. unfold spaced. cbn [map concat]. reflexivity.
Qed.

Lemma insert_at_cons {A : Type} (n : nat) (x : A) (l : list A) :
  exists y r, insert_at n x l = y :: r.
Proof.
  unfold insert_at. destruct (firstn n l) as [|y r]; cbn [app]; eauto.
Qed.

(** The text of an item is the line of a production whose right-hand side
    holds the dot. *)
Lemma item_to_str_line (lhs : Symbol) (rhs : list Symbol) (dot_pos : nat) :
  item_to_str (lhs, rhs, dot_pos) = production_line (lhs, insert_at dot_pos DOT rhs).
Proof.
  unfold item_to_str, production_line. cbn [fst snd]. f_equal.
  destruct (insert_at_cons dot_pos DOT rhs) as [y [r ->]].
  change (lit " -> ") with (lit " ->" ++ lit " "). rewrite <- app_assoc.
  f_equal. apply join_spaced.
Qed.

Lemma insert_at_In {A : Type} (n : nat) (x y : A) (l : list A) :
  In y (insert_at n x l) -> y = x \/ In y l.
Proof.
  unfold insert_at. intros H. apply in_app_iff in H as [H|[H|H]].
  - right. rewrite <- (firstn_skipn n l). apply in_or_app. left. exact H.
  - left. symmetry. exact H.
  - right. rewrite <- (firstn_skipn n l). apply in_or_app. right. exact H.
Qed.

(** Where the inserted value is tells the position and the list, when the
    list does not hold the value. *)
Lemma insert_at_inj {A : Type} (x : A) (l1 : list A) :
  forall l2 n1 n2,
    ~ In x l1 -> ~ In x l2 -> n1 <= length l1 -> n2 <= length l2 ->
    insert_at n1 x l1 = insert_at n2 x l2 -> l1 = l2 /\ n1 = n2.
Proof.
  unfold insert_at.
  induction l1 as [|a l1 IH]; intros l2 n1 n2 N1 N2 L1 L2 E.
  - cbn [length] in L1. assert (n1 = 0) by lia. subst n1. cbn in E.
    destruct l2 as [|b l2].
    + cbn [length] in L2. assert (n2 = 0) by lia. subst n2. auto.
    + destruct n2 as [|n2]; cbn [firstn skipn app] in E.
      * inversion E.
      * exfalso. apply N2. left. inversion E. reflexivity.
  - destruct n1 as [|n1].
    + cbn [firstn skipn app] in E.
      destruct n2 as [|n2]; [cbn in E; inversion E; auto|].
      destruct l2 as [|b l2]; [cbn [length] in L2; lia|].
      cbn [firstn skipn app] in E. inversion E; subst.
      exfalso. apply N2. left. reflexivity.
    + cbn [firstn skipn app] in E.
      destruct n2 as [|n2].
      * cbn [firstn skipn app] in E. inversion E; subst.
        exfalso. apply N1. left. reflexivity.
      * destruct l2 as [|b l2]; [cbn [length] in L2; lia|].
        cbn [firstn skipn app] in E. inversion E; subst.
        cbn [length] in L1, L2.
        destruct (IH l2 n1 n2) as [-> ->]; auto; try lia.
        -- intros I. apply N1. right. exact I.
        -- intros I. apply N2. right. exact I.
Qed.

(** An item that can be displayed: plain symbols without '|', none of them
    the dot, and the dot position inside the right-hand side or at its
    end. *)
Definition displayable (item : Item) : bool :=
  let '(lhs, rhs, dot_pos) := item in
  plain_symbol lhs && forallb alternative_symbol rhs && negb (mem DOT rhs)
  && Nat.leb dot_pos (length rhs).

Lemma displayable_writable (lhs : Symbol) (rhs : list Symbol) (dot_pos : nat) :
  displayable (lhs, rhs, dot_pos) = true ->
  writable (lhs, insert_at dot_pos DOT rhs) = true
  /\ ~ In DOT rhs /\ dot_pos <= length rhs.
Proof.
  unfold displayable, writable. cbn [fst snd].
  rewrite !andb_true_iff, negb_true_iff, Nat.leb_le.
  intros [[[Hl Hr] Hm] Hd]. split; [|split; [apply mem_false; exact Hm | exact Hd]].
  split; [exact Hl|]. apply forallb_forall. intros y Hy.
  apply insert_at_In in Hy as [-> |Hy]; [reflexivity|].
  rewrite forallb_forall in Hr. apply Hr. exact Hy.
Qed.

(** X18: the text that item_to_str shows for an item tells the item.
    parse_grammar reads the text as one production: the left-hand side of
    the item, and its right-hand side with the dot put in at the dot
    position; and two displayable items with the same text are the same
    item. *)
Theorem item_text_tells_item (item : Item) :
  displayable item = true ->
  parse_grammar (item_to_str item)
    = Ok [(fst (fst item), insert_at (snd item) DOT (snd (fst item)))]
  /\ forall item',
       displayable item' = true -> item_to_str item' = item_to_str item -> item' = item.
Proof.
  destruct item as [[lhs rhs] d]. intros Hd. cbn [fst snd].
  destruct (displayable_writable _ _ _ Hd) as [W [N L]].
  assert (P : forall l r n,
             displayable (l, r, n) = true ->
             parse_grammar (item_to_str (l, r, n)) = Ok [(l, insert_at n DOT r)]).
  { intros l r n H. destruct (displayable_writable _ _ _ H) as [W' _].
    rewrite item_to_str_line. apply production_line_parsed. exact W'. }
  split; [apply P; exact Hd|].
  intros [[lhs' rhs'] d'] Hd' E.
  destruct (displayable_writable _ _ _ Hd') as [_ [N' L']].
  pose proof (P _ _ _ Hd') as P1. rewrite E, (P _ _ _ Hd) in P1.
  inversion P1 as [[El Er]].
  destruct (@insert_at_inj _ DOT rhs rhs' d d' N N' L L' Er) as [-> ->].
  subst lhs'. reflexivity.
Qed.

Lemma item_text_tells_item_witness :
  displayable (fixed_item 1 1) = true
  /\ parse_grammar (item_to_str (fixed_item 1 1))
       = Ok [(fst (fst (fixed_item 1 1)),
              insert_at (snd (fixed_item 1 1)) DOT (snd (fst (fixed_item 1 1))))]
  /\ forall item',
       displayable item' = true ->
       item_to_str item' = item_to_str (fixed_item 1 1) -> item' = fixed_item 1 1.
Proof.
  assert (D : displayable (fixed_item 1 1) = true) by (vm_compute; reflexivity).
  split; [exact D|]. apply (@item_text_tells_item (fixed_item 1 1) D).
Defined.
